(** * yk_gmd_io: the GMD comparison engine of [test/compare.py]

    A shallow embedding of the vertex-set comparison, the voxel index of
    fused vertices, the mesh drivers and the recursive node comparison.

    Numbers.  The Python code computes on floats ([mathutils.Vector] holds
    single-precision components, Python [float] is double precision).  The
    embedding computes on exact rationals instead: [Q] for raw coordinates,
    canonical rationals [Qc] for the rounded values that are stored in sets
    and compared with [==].  NaN, infinities and rounding error of float
    arithmetic are therefore outside the model. *)

From Stdlib Require Import QArith Qcanon Qabs Qround Lqa.
From stdpp Require Import base decidable option list sorting gmap strings.

Local Open Scope Z_scope.

(** ** Python numbers *)

Module PyNum.

(** [round(x)] of Python: the nearest integer, ties go to the even one. *)
Definition round_half_even (q : Q) : Z :=
  let n := Qnum q in
  let d := Z.pos (Qden q) in
  let fl := n / d in
  let r2 := 2 * (n mod d) in
  if r2 <? d then fl
  else if d <? r2 then fl + 1
  else if Z.even fl then fl else fl + 1.

(** [round(x, ndigits)]. *)
Definition py_round (ndigits : nat) (x : Q) : Q :=
  let scale := Pos.pow 10 (Pos.of_nat ndigits) in
  match ndigits with
  | O => inject_Z (round_half_even x)
  | S _ => Qmake (round_half_even (x * inject_Z (Z.pos scale))) scale
  end.

(** [int(x)]: truncation towards zero. *)
Definition py_int (q : Q) : Z := Z.quot (Qnum q) (Z.pos (Qden q)).

(** [math.floor(x)], for comparison with [py_int]. *)
Definition py_floor (q : Q) : Z := Z.div (Qnum q) (Z.pos (Qden q)).

Definition Qltb (x y : Q) : bool := negb (Qle_bool y x).

End PyNum.
Export PyNum.

(** ** ApproxFingerprint: [VertApproxData] *)

(** A rounded 4-tuple, as produced by [tuple(round(x, 2) for x in v.resized(4))]. *)
Definition Tuple4 : Type := Qc * Qc * Qc * Qc.

(** [Vector.resized(4)]: the first four components, zero padded. *)
Definition resized4 (v : list Q) : Q * Q * Q * Q :=
  (nth 0 v 0%Q, nth 1 v 0%Q, nth 2 v 0%Q, nth 3 v 0%Q).

Definition round_tuple4 (ndigits : nat) (t : Q * Q * Q * Q) : Tuple4 :=
  let '(a, b, c, d) := t in
  (Q2Qc (py_round ndigits a), Q2Qc (py_round ndigits b),
   Q2Qc (py_round ndigits c), Q2Qc (py_round ndigits d)).

(** [Vector(a).dot(Vector(b))] on two 4-tuples: the exact value.  The code
    computes it on single-precision components, so that its result can differ
    from the exact one by a relative error of about 1e-7. *)
Definition dot4 (a b : Tuple4) : Qc :=
  let '(a0, a1, a2, a3) := a in
  let '(b0, b1, b2, b3) := b in
  (a0 * b0 + a1 * b1 + a2 * b2 + a3 * b3)%Qc.

Record VertApproxData : Type := mkVertApproxData {
  normal : option Tuple4;
  tangent : option Tuple4
}.

Global Instance VertApproxData_eq_dec : EqDecision VertApproxData.
Proof. solve_decision. Defined.

Global Instance VertApproxData_countable : Countable VertApproxData.
Proof.
  apply (inj_countable' (fun x => (normal x, tangent x))
                        (fun p => mkVertApproxData (fst p) (snd p))).
  intros []; reflexivity.
Defined.

Module VertApproxData.

(** [VertApproxData.new(normal, tangent)] *)
Definition new (normal tangent : option (list Q)) : VertApproxData :=
  {| normal := (fun v => round_tuple4 2 (resized4 v)) <$> normal;
     tangent := (fun v => round_tuple4 2 (resized4 v)) <$> tangent |}.

(** The equality threshold [t = 0.9]. *)
Definition t : Qc := Q2Qc (9 # 10).

(** [self.approx_eq(other)].  The tangent comparison is commented out in
    the source and so takes no part. *)
Definition approx_eq (self other : VertApproxData) : bool :=
  match normal self with
  | None =>
      match normal other with
      | Some _ => false
      | None => true
      end
  | Some n =>
      match normal other with
      | None => false
      | Some m => if bool_decide (dot4 n m < t)%Qc then false else true
      end
  end.

End VertApproxData.

(** ** VertexSet: [VertSet] *)

Section VertSet.
Context {K : Type} `{Countable K}.

(** [verts] is the [defaultdict(lambda: set())] from exact key to the set of
    approximate data; [len] counts the calls of [add]. *)
Record VertSet : Type := mkVertSet {
  verts : gmap K (gset VertApproxData);
  len : nat
}.

(** [VertSet()] *)
Definition VertSet_init : VertSet := {| verts := ∅; len := 0 |}.

(** [self.verts[vert_exact]], read on a key (a missing key reads as the
    empty set of the default factory). *)
Definition verts_at (s : VertSet) (vert_exact : K) : gset VertApproxData :=
  default ∅ (verts s !! vert_exact).

(** [self.add(vert_exact, vert_approx)] *)
Definition VertSet_add (s : VertSet) (vert_exact : K) (vert_approx : VertApproxData)
  : VertSet :=
  {| verts := <[vert_exact := verts_at s vert_exact ∪ {[vert_approx]}]> (verts s);
     len := S (len s) |}.

(** [self.exact_difference(other)] *)
Definition exact_difference (self other : VertSet) : gset K :=
  dom (verts self) ∖ dom (verts other).

(** [any(v_a.approx_eq(v_a_alt) for v_a_alt in other_approx)] *)
Definition any_approx_eq (v_a : VertApproxData) (other_approx : gset VertApproxData)
  : bool :=
  existsb (VertApproxData.approx_eq v_a) (elements other_approx).

(** The tuple [differing_va] of step 2. *)
Definition differing_va (self_approx other_approx : gset VertApproxData)
  : list VertApproxData :=
  filter (fun v_a => any_approx_eq v_a other_approx = false) (elements self_approx).

(** [self.difference(other)]: the two loops of the method, each a fold over
    the key set it iterates. *)
Definition difference (self other : VertSet) : gmap K (list VertApproxData) :=
  let key_set := dom (verts self) in
  let verts1 :=
    set_fold (fun vert_exact (acc : gmap K (list VertApproxData)) =>
                <[vert_exact := elements (verts_at self vert_exact)]> acc)
             ∅ (key_set ∖ dom (verts other)) in
  set_fold (fun vert_exact (acc : gmap K (list VertApproxData)) =>
              let d := differing_va (verts_at self vert_exact)
                                    (verts_at other vert_exact) in
              if (0 <? length d)%nat then <[vert_exact := d]> acc else acc)
           verts1 (key_set ∩ dom (verts other)).

(** A vertex set after a sequence of [add] calls. *)
Definition VertSet_of_adds (l : list (K * VertApproxData)) : VertSet :=
  foldl (fun s p => VertSet_add s (fst p) (snd p)) VertSet_init l.

End VertSet.
Global Arguments VertSet K {_ _}.

(** ** Exceptions, the error reporter, and the monad of the comparison code *)

(** The Python exceptions the modelled code can raise.  [ReporterAbort] is
    the exception with which an error reporter stops the comparison;
    [DanglingRef] has no Python counterpart: it is the result of using a
    reference that is not allocated in the modelled store. *)
Inductive exn : Type :=
  | AssertionError
  | RuntimeError     (* dictionary changed size during iteration *)
  | IndexError
  | ZeroDivisionError
  | ReporterAbort
  | DanglingRef.

Inductive res (A : Type) : Type :=
  | Ok (a : A)
  | Raise (e : exn).
Global Arguments Ok {A} a.
Global Arguments Raise {A} e.

(** The three entry points of [ErrorReporter] that the comparison calls. *)
Inductive severity : Type := Info | Recoverable | Fatal.

(** What a message says.  The text of a message (with the sorted sample of
    up to five offending tuples in it) is not modelled; building it is taken
    to raise nothing. *)
Inductive message : Type :=
  | ExactDataDiffers (src_len dst_len n_src_not_dst n_dst_not_src : nat)
  | ApproxDataDiffers (src_len dst_len n_src_not_dst n_dst_not_src : nat)
  | FusionsDontMatch (src_n dst_n n_no_equiv n_unfused n_dst_no_equiv : nat)
  | FusionCountsDontMatch (src_n dst_n : nat)
  | FieldDiffers (f : string)
  | VectorDiffers (f : string)
  | VectorDiffersSlightly (f : string)
  | MatrixDiffers (f : string)
  | MatrixDiffersSlightly (f : string)
  | DifferentAttributeSets
  | FunctionallyIdentical
  | DifferentChildSets
  | ChildrenDifferentOrder.

(** One call of the reporter: the method called, the [context] prefix of the
    message, and what the message says. *)
Record event : Type := mkEvent {
  ev_severity : severity;
  ev_context : string;
  ev_message : message
}.

Global Instance exn_eq_dec : EqDecision exn.
Proof. solve_decision. Defined.
Global Instance severity_eq_dec : EqDecision severity.
Proof. solve_decision. Defined.
Global Instance message_eq_dec : EqDecision message.
Proof. solve_decision. Defined.
Global Instance event_eq_dec : EqDecision event.
Proof. solve_decision. Defined.

(** The injected reporter.  Its class is not part of the compared code: all
    the comparison relies on is that each call is recorded and either
    returns or raises. [aborts sev] tells whether a call of that severity
    raises. *)
Record ErrorReporter : Type := mkErrorReporter {
  aborts : severity -> bool
}.

(** A 3-vector of raw coordinates ([mathutils.Vector] with [.x], [.y], [.z]). *)
Record Vec3 : Type := mkVec3 { vx : Q; vy : Q; vz : Q }.

(** Integer voxel coordinates, the keys of [FusedVertVoxelSet.voxels]. *)
Definition Voxel : Type := Z * Z * Z.

(** *** Insertion-ordered dictionaries *)

Section Dict.
Context {Key V : Type} `{EqDecision Key}.

(** A Python [dict]: its items in insertion order, keys distinct. *)
Definition dict : Type := list (Key * V).

Fixpoint dict_get (d : dict) (k : Key) : option V :=
  match d with
  | [] => None
  | (k', v) :: d' => if decide (k' = k) then Some v else dict_get d' k
  end.

(** [k in d] *)
Definition dict_contains (d : dict) (k : Key) : bool :=
  match dict_get d k with Some _ => true | None => false end.

(** [d[k] = v]: an existing key keeps its place, a new key goes last. *)
Fixpoint dict_set (d : dict) (k : Key) (v : V) : dict :=
  match d with
  | [] => [(k, v)]
  | (k', v') :: d' =>
      if decide (k' = k) then (k, v) :: d' else (k', v') :: dict_set d' k v
  end.

End Dict.
Global Arguments dict Key V : clear implicits.

(** ** FusedVoxelIndex: [FusedVertVoxelSet] *)

Module Fused.
Section State.
Context {Sig : Type}.

(** [(exact pos, exact normal, boneweights)]; [Sig] is the type of the
    rounded bone-weight tuples. *)
Definition FusedVert : Type := Vec3 * option Vec3 * Sig.

(** The object state.  [voxels] is a [defaultdict(list)]. *)
Record FusedVertVoxelSet : Type := mkFusedVertVoxelSet {
  voxels : dict Voxel (list nat);
  voxel_size : Q;
  verts : list FusedVert
}.

(** The store of [FusedVertVoxelSet] objects (a reference is an index into
    it) and the record of the reporter calls made so far. *)
Record World : Type := mkWorld {
  heap : list FusedVertVoxelSet;
  log : list event
}.

Definition ref : Type := nat.

(** Computations that read and update the world and may raise. *)
Definition M (A : Type) : Type := World -> res A * World.

Definition ret {A} (a : A) : M A := fun w => (Ok a, w).

Definition bind {A B} (m : M A) (k : A -> M B) : M B :=
  fun w => match m w with
           | (Ok a, w') => k a w'
           | (Raise e, w') => (Raise e, w')
           end.

Definition raise {A} (e : exn) : M A := fun w => (Raise e, w).

Definition py_assert (b : bool) : M unit :=
  if b then ret tt else raise AssertionError.

Definition get_obj (r : ref) : M FusedVertVoxelSet :=
  fun w => match heap w !! r with
           | Some o => (Ok o, w)
           | None => (Raise DanglingRef, w)
           end.

Definition put_obj (r : ref) (o : FusedVertVoxelSet) : M unit :=
  fun w => (Ok tt, {| heap := <[r := o]> (heap w); log := log w |}).

(** [l[i]] on a list. *)
Definition list_index {A} (l : list A) (i : nat) : M A :=
  match l !! i with
  | Some a => ret a
  | None => raise IndexError
  end.

End State.
Global Arguments FusedVertVoxelSet Sig : clear implicits.
Global Arguments FusedVert Sig : clear implicits.
Global Arguments World Sig : clear implicits.
Global Arguments M Sig A : clear implicits.

Global Instance M_ret {Sig} : MRet (M Sig) := @ret Sig.
Global Instance M_bind {Sig} : MBind (M Sig) := fun A B k m => bind m k.

Section Ops.
Context {Sig : Type} `{EqDecision Sig}.
Abbreviation FusedVertVoxelSet := (FusedVertVoxelSet Sig).
Abbreviation FusedVert := (FusedVert Sig).
Abbreviation M := (M Sig).

(** [FusedVertVoxelSet(voxel_size)]: a new object, with the reference to it. *)
Definition init (voxel_size : Q) : M ref :=
  fun w =>
    (Ok (length (heap w)),
     {| heap := heap w ++ [{| voxels := []; voxel_size := voxel_size; verts := [] |}];
        log := log w |}).

(** The default [voxel_size = 0.0001] and [pos_epsilon = 0.00001]. *)
Definition default_voxel_size : Q := 1 # 10000.
Definition default_pos_epsilon : Q := 1 # 100000.

(** [x / y] on floats. *)
Definition py_div (x y : Q) : M Q :=
  if Qeq_bool y 0 then raise ZeroDivisionError else ret (x / y)%Q.

(** [d[k]] on the [defaultdict(list)] field [voxels] of the object at [r]:
    a missing key is inserted with an empty list. *)
Definition voxels_getitem (r : ref) (k : Voxel) : M (list nat) :=
  o ← get_obj r;
  match dict_get (voxels o) k with
  | Some l => ret l
  | None =>
      put_obj r {| voxels := dict_set (voxels o) k [];
                   voxel_size := voxel_size o; verts := verts o |};;
      ret []
  end.

(** [self.add(exact_pos, exact_norm, rounded_bw)] *)
Definition add (self : ref) (exact_pos : Vec3) (exact_norm : option Vec3)
    (rounded_bw : Sig) : M unit :=
  o ← get_obj self;
  x ← py_div (vx exact_pos) (voxel_size o);
  y ← py_div (vy exact_pos) (voxel_size o);
  z ← py_div (vz exact_pos) (voxel_size o);
  let voxel : Voxel := (py_int x, py_int y, py_int z) in
  bucket ← voxels_getitem self voxel;
  o ← get_obj self;
  put_obj self {| voxels := dict_set (voxels o) voxel (bucket ++ [length (verts o)]);
                  voxel_size := voxel_size o;
                  verts := verts o |};;
  o ← get_obj self;
  put_obj self {| voxels := voxels o;
                  voxel_size := voxel_size o;
                  verts := verts o ++ [(exact_pos, exact_norm, rounded_bw)] |}.

(** The construction of an index: [FusedVertVoxelSet(voxel_size)] followed
    by one [add] call for each element of [vs], in order. *)
Definition build (voxel_size : Q) (vs : list FusedVert) : M ref :=
  r ← init voxel_size;
  mapM (fun '(exact_pos, exact_norm, rounded_bw) =>
          add r exact_pos exact_norm rounded_bw) vs;;
  ret r.

(** [len(self)] *)
Definition len (self : ref) : M nat :=
  o ← get_obj self; ret (length (verts o)).

(** The offsets [(k - 1, k, k + 1, k + 2)] scanned along one axis. *)
Definition window (k : Z) : list Z := [k - 1; k; k + 1; k + 2].

(** The keys [(x, y, z)] in the order in which the three nested [for]
    clauses of the comprehensions produce them. *)
Definition neighbourhood (voxel_key : Voxel) : list Voxel :=
  let '(k0, k1, k2) := voxel_key in
  flat_map (fun x =>
    flat_map (fun y =>
      map (fun z => (x, y, z)) (window k2)) (window k1)) (window k0).

(** [[(i, vs[i]) for i in bucket]] *)
Definition indexed (vs : list FusedVert) (bucket : list nat)
  : M (list (nat * FusedVert)) :=
  mapM (fun i => v ← list_index vs i; ret (i, v)) bucket.

(** [other_search_space]: each probed key goes through
    [other.voxels[(x, y, z)]], the [defaultdict] read. *)
Fixpoint other_search_space (other : ref) (keys : list Voxel)
  : M (list (nat * FusedVert)) :=
  match keys with
  | [] => ret []
  | k :: keys' =>
      bucket ← voxels_getitem other k;
      o ← get_obj other;
      here ← indexed (verts o) bucket;
      rest ← other_search_space other keys';
      ret (here ++ rest)
  end.

(** [self_search_space]: guarded by [if (x, y, z) in self.voxels]. *)
Fixpoint self_search_space (self : ref) (keys : list Voxel)
  : M (list (nat * FusedVert)) :=
  match keys with
  | [] => ret []
  | k :: keys' =>
      o ← get_obj self;
      here ← (if dict_contains (voxels o) k
              then indexed (verts o) (default [] (dict_get (voxels o) k))
              else ret []);
      rest ← self_search_space self keys';
      ret (here ++ rest)
  end.

(** [(a - b).length_squared] *)
Definition length_squared_diff (a b : Vec3) : Q :=
  ((vx a - vx b) * (vx a - vx b) + (vy a - vy b) * (vy a - vy b)
   + (vz a - vz b) * (vz a - vz b))%Q.

(** [tuple(round(n, 3) for n in other_norm) if other_norm else None] *)
Definition rounded_norm (other_norm : option Vec3) : option (Q * Q * Q) :=
  (fun n => (py_round 3 (vx n), py_round 3 (vy n), py_round 3 (vz n))) <$> other_norm.

(** An entry of [potential_other_verts] and [potential_self_verts]. *)
Definition Candidate : Type := nat * option (Q * Q * Q) * Vec3.

(** An entry of [was_unfused_in_other]. *)
Definition Unfused : Type := Vec3 * Sig * list Candidate * list Candidate.

(** The comprehension that filters a search space for one vertex. *)
Definition potential_verts (search_space : list (nat * FusedVert))
    (self_v_pos : Vec3) (self_v_rounded_bw : Sig) (pos_epsilon_sqr : Q)
  : list Candidate :=
  flat_map (fun '(other_fused_idx, (other_pos, other_norm, other_rounded_bw)) =>
              if bool_decide (other_rounded_bw = self_v_rounded_bw)
                 && Qltb (length_squared_diff self_v_pos other_pos) pos_epsilon_sqr
              then [(other_fused_idx, rounded_norm other_norm, other_pos)]
              else [])
           search_space.

(** The three accumulators of the loop. *)
Record Acc : Type := mkAcc {
  has_no_equiv_in_other : list FusedVert;
  was_unfused_in_other : list Unfused;
  counted_other_verts : gset nat
}.

(** [for self_vert in verts: ...] *)
Fixpoint for_self_verts (self : ref) (other_space self_space : list (nat * FusedVert))
    (pos_epsilon_sqr : Q) (vs : list nat) (acc : Acc) : M Acc :=
  match vs with
  | [] => ret acc
  | self_vert :: vs' =>
      o ← get_obj self;
      v ← list_index (verts o) self_vert;
      let '(self_v_pos, self_v_norm, self_v_rounded_bw) := v in
      let potential_other_verts :=
        potential_verts other_space self_v_pos self_v_rounded_bw pos_epsilon_sqr in
      let counted :=
        counted_other_verts acc ∪ list_to_set (map (fun c => c.1.1) potential_other_verts) in
      let potential_self_verts :=
        potential_verts self_space self_v_pos self_v_rounded_bw pos_epsilon_sqr in
      let acc' :=
        if (length potential_other_verts =? 0)%nat then
          {| has_no_equiv_in_other :=
               has_no_equiv_in_other acc ++ [(self_v_pos, self_v_norm, self_v_rounded_bw)];
             was_unfused_in_other := was_unfused_in_other acc;
             counted_other_verts := counted |}
        else if (length potential_self_verts <? length potential_other_verts)%nat then
          {| has_no_equiv_in_other := has_no_equiv_in_other acc;
             was_unfused_in_other :=
               was_unfused_in_other acc
               ++ [(self_v_pos, self_v_rounded_bw, potential_self_verts, potential_other_verts)];
             counted_other_verts := counted |}
        else
          {| has_no_equiv_in_other := has_no_equiv_in_other acc;
             was_unfused_in_other := was_unfused_in_other acc;
             counted_other_verts := counted |} in
      for_self_verts self other_space self_space pos_epsilon_sqr vs' acc'
  end.

(** [for voxel_key, verts in self.voxels.items(): ...].  [items] are the
    items still to come and [n0] is the size of the dictionary when the
    iteration started: each step of a dictionary iterator first compares
    the current size with it and raises [RuntimeError] when they differ. *)
Fixpoint for_voxels (self other : ref) (pos_epsilon_sqr : Q) (n0 : nat)
    (items : list (Voxel * list nat)) (acc : Acc) : M Acc :=
  o ← get_obj self;
  if negb (length (voxels o) =? n0)%nat then raise RuntimeError
  else
    match items with
    | [] => ret acc
    | (voxel_key, vs) :: items' =>
        other_space ← other_search_space other (neighbourhood voxel_key);
        self_space ← self_search_space self (neighbourhood voxel_key);
        acc' ← for_self_verts self other_space self_space pos_epsilon_sqr vs acc;
        for_voxels self other pos_epsilon_sqr n0 items' acc'
    end.

(** [self.check_one_to_one(other, pos_epsilon)] *)
Definition check_one_to_one (self other : ref) (pos_epsilon : Q)
  : M (list FusedVert * list Unfused * list FusedVert) :=
  s ← get_obj self;
  o ← get_obj other;
  py_assert (Qeq_bool (voxel_size s) (voxel_size o));;
  py_assert (Qltb pos_epsilon (voxel_size s));;
  let pos_epsilon_sqr := (pos_epsilon * pos_epsilon)%Q in
  acc ← for_voxels self other pos_epsilon_sqr (length (voxels s)) (voxels s)
          {| has_no_equiv_in_other := []; was_unfused_in_other := [];
             counted_other_verts := ∅ |};
  o ← get_obj other;
  n ← len other;
  other_vs_with_no_equiv_in_self ←
    mapM (list_index (verts o))
         (filter (fun other_i => other_i ∉ counted_other_verts acc) (seq 0 n));
  ret (has_no_equiv_in_other acc, was_unfused_in_other acc,
       other_vs_with_no_equiv_in_self).

End Ops.

(** *** The index read as a value

    The functions below compute, on object states, what the methods above
    compute on the store when nothing raises.  They serve to state and prove
    the properties of the methods. *)

Section Reading.
Context {Sig : Type} `{EqDecision Sig}.
Abbreviation FusedVertVoxelSet := (FusedVertVoxelSet Sig).
Abbreviation FusedVert := (FusedVert Sig).


(** The world with the object at [r] replaced by [o]. *)
Definition with_obj (w : World Sig) (r : ref) (o : FusedVertVoxelSet) : World Sig :=
  {| heap := <[r := o]> (heap w); log := log w |}.

(** The world with the new object [o], whose reference is the former
    length of the store. *)
Definition allocated (w : World Sig) (o : FusedVertVoxelSet) : World Sig :=
  {| heap := heap w ++ [o]; log := log w |}.

(** The bucket of [k], empty for a missing key. *)
Definition bucket_of (o : FusedVertVoxelSet) (k : Voxel) : list nat :=
  default [] (dict_get (voxels o) k).

(** The key computed by [add] for a position. *)
Definition voxel_of (voxel_size : Q) (p : Vec3) : Voxel :=
  (py_int (vx p / voxel_size), py_int (vy p / voxel_size), py_int (vz p / voxel_size)).

(** The key with [floor] in place of [int], for comparison. *)
Definition floor_voxel_of (voxel_size : Q) (p : Vec3) : Voxel :=
  (py_floor (vx p / voxel_size), py_floor (vy p / voxel_size),
   py_floor (vz p / voxel_size)).

(** The state after [add], when the division succeeds. *)
Definition added (o : FusedVertVoxelSet) (v : FusedVert) : FusedVertVoxelSet :=
  let voxel := voxel_of (voxel_size o) v.1.1 in
  {| voxels := dict_set (voxels o) voxel (bucket_of o voxel ++ [length (verts o)]);
     voxel_size := voxel_size o;
     verts := verts o ++ [v] |}.

(** The state of [FusedVertVoxelSet(voxel_size)] after adding [vs] in order. *)
Definition built (voxel_size : Q) (vs : list FusedVert) : FusedVertVoxelSet :=
  foldl added {| voxels := []; voxel_size := voxel_size; verts := [] |} vs.

(** Every index stored in a bucket is an index of [verts]. *)
Definition buckets_valid (o : FusedVertVoxelSet) : Prop :=
  Forall (fun kl : Voxel * list nat =>
            Forall (fun i => (i < length (verts o))%nat) kl.2) (voxels o).

(** The keys of [voxels] are distinct, as the keys of a dictionary are. *)
Definition keys_distinct (o : FusedVertVoxelSet) : Prop :=
  NoDup (map fst (voxels o)).

(** Every index of [verts] is stored in some bucket. *)
Definition buckets_cover (o : FusedVertVoxelSet) : Prop :=
  forall i, (i < length (verts o))%nat -> exists k, i ∈ bucket_of o k.

(** [o'] is [o] up to buckets that are empty: same vertices, same voxel
    size, and every key reads the same bucket. *)
Definition same_buckets (o o' : FusedVertVoxelSet) : Prop :=
  verts o' = verts o /\ voxel_size o' = voxel_size o /\
  forall k, bucket_of o' k = bucket_of o k.

(** The state after a read [voxels[k]] of the [defaultdict]. *)
Definition probed (o : FusedVertVoxelSet) (k : Voxel) : FusedVertVoxelSet :=
  match dict_get (voxels o) k with
  | Some _ => o
  | None => {| voxels := dict_set (voxels o) k [];
               voxel_size := voxel_size o; verts := verts o |}
  end.

(** The keys read in [other.voxels] by a comparison against the items
    [items] of [self.voxels]. *)
Definition probes (items : list (Voxel * list nat)) : list Voxel :=
  flat_map (fun kl => neighbourhood kl.1) items.

(** The search space read from [o] for the keys [keys]. *)
Definition space (o : FusedVertVoxelSet) (keys : list Voxel) : list (nat * FusedVert) :=
  flat_map (fun k => omap (fun i => pair i <$> verts o !! i) (bucket_of o k)) keys.

(** One step of [for self_vert in verts]. *)
Definition classify (other_space self_space : list (nat * FusedVert))
    (pos_epsilon_sqr : Q) (acc : Acc) (v : FusedVert) : Acc :=
  let '(self_v_pos, self_v_norm, self_v_rounded_bw) := v in
  let potential_other_verts :=
    potential_verts other_space self_v_pos self_v_rounded_bw pos_epsilon_sqr in
  let counted :=
    counted_other_verts acc ∪ list_to_set (map (fun c => c.1.1) potential_other_verts) in
  let potential_self_verts :=
    potential_verts self_space self_v_pos self_v_rounded_bw pos_epsilon_sqr in
  if (length potential_other_verts =? 0)%nat then
    {| has_no_equiv_in_other :=
         has_no_equiv_in_other acc ++ [(self_v_pos, self_v_norm, self_v_rounded_bw)];
       was_unfused_in_other := was_unfused_in_other acc;
       counted_other_verts := counted |}
  else if (length potential_self_verts <? length potential_other_verts)%nat then
    {| has_no_equiv_in_other := has_no_equiv_in_other acc;
       was_unfused_in_other :=
         was_unfused_in_other acc
         ++ [(self_v_pos, self_v_rounded_bw, potential_self_verts, potential_other_verts)];
       counted_other_verts := counted |}
  else
    {| has_no_equiv_in_other := has_no_equiv_in_other acc;
       was_unfused_in_other := was_unfused_in_other acc;
       counted_other_verts := counted |}.

(** The loop over the items of [self.voxels], on the states [s] and [o]. *)
Definition scan (s o : FusedVertVoxelSet) (pos_epsilon_sqr : Q)
    (items : list (Voxel * list nat)) (acc : Acc) : Acc :=
  foldl (fun acc '(voxel_key, vs) =>
           foldl (classify (space o (neighbourhood voxel_key))
                           (space s (neighbourhood voxel_key)) pos_epsilon_sqr)
                 acc (omap (fun i => verts s !! i) vs))
        acc items.

(** The triple returned by [check_one_to_one], on the states [s] and [o]. *)
Definition one_to_one (s o : FusedVertVoxelSet) (pos_epsilon : Q)
  : list FusedVert * list Unfused * list FusedVert :=
  let acc := scan s o (pos_epsilon * pos_epsilon)%Q (voxels s)
               {| has_no_equiv_in_other := []; was_unfused_in_other := [];
                  counted_other_verts := ∅ |} in
  (has_no_equiv_in_other acc, was_unfused_in_other acc,
   omap (fun i => verts o !! i)
        (filter (fun other_i => other_i ∉ counted_other_verts acc)
                (seq 0 (length (verts o))))).

End Reading.
End Fused.

(** ** Mesh Equivalence Driver *)

(** What the comparison reads from meshes.  The mesh, attribute-set and
    vertex-buffer classes and the vertex fusion are imported by
    [compare.py], not defined in it; they enter as parameters:
    - [attribute_set m], [str(attribute_set)] and the printed
      [attr.texture_diffuse];
    - [unique_vert_records skinned ms]: for the meshes [ms], the sequence of
      [(vert_exact, normal, tangent)] on which [get_unique_verts]
      ([get_unique_skinned_verts] when [skinned]) calls
      [all_verts.add(vert_exact, VertApproxData.new(normal, tangent))];
    - [fusion_output_records skinned ms]: the sequence of
      [(exact_pos, norm, rounded_bw)] on which [find_fusion_output_vs]
      calls [all_verts.add], one per fused vertex of [vertex_fusion].
    Mesh data is taken to be well formed, so that reading it raises
    nothing. *)
Class MeshData (Mesh AttrSet K Sig : Type) : Type := {
  attribute_set : Mesh -> AttrSet;
  attr_str : AttrSet -> string;
  texture_diffuse : AttrSet -> string;
  unique_vert_records : bool -> list Mesh -> list (K * option (list Q) * option (list Q));
  fusion_output_records : bool -> list Mesh -> list (Fused.FusedVert Sig)
}.

Section Driver.
Context {Mesh AttrSet K Sig : Type}.
Context `{Countable K} `{EqDecision Sig} `{EqDecision AttrSet}.
Context `{!MeshData Mesh AttrSet K Sig}.
Abbreviation M := (Fused.M Sig).

(** [error.info(..)], [error.recoverable(..)] and [error.fatal(..)]: the call
    is recorded, then the reporter returns or raises. *)
Definition report (error : ErrorReporter) (sev : severity) (context : string)
    (msg : message) : M unit :=
  fun w =>
    let w' := {| Fused.heap := Fused.heap w;
                 Fused.log := Fused.log w ++ [mkEvent sev context msg] |} in
    if aborts error sev then (Raise ReporterAbort, w') else (Ok tt, w').

(** [get_unique_verts(ms)] and [get_unique_skinned_verts(ms)] *)
Definition get_unique_verts (skinned : bool) (ms : list Mesh) : VertSet K :=
  foldl (fun all_verts '(vert_exact, normal, tangent) =>
           VertSet_add all_verts vert_exact (VertApproxData.new normal tangent))
        VertSet_init (unique_vert_records skinned ms).

(** [find_fusion_output_vs(ms)], local to
    [compare_same_layout_mesh_vertex_fusions] *)
Definition find_fusion_output_vs (skinned : bool) (ms : list Mesh) : M Fused.ref :=
  all_verts ← Fused.init Fused.default_voxel_size;
  mapM (fun '(exact_pos, norm, rounded_bw) =>
          Fused.add all_verts exact_pos norm rounded_bw)
       (fusion_output_records skinned ms);;
  mret all_verts.

Definition nonempty {A} (l : list A) : bool :=
  match l with [] => false | _ :: _ => true end.

(** [compare_same_layout_mesh_vertex_fusions(skinned, src, dst, error, context)] *)
Definition compare_same_layout_mesh_vertex_fusions (skinned : bool)
    (src dst : list Mesh) (error : ErrorReporter) (context : string) : M bool :=
  src_fused_vs ← find_fusion_output_vs skinned src;
  src_n_fused_vs ← Fused.len src_fused_vs;
  dst_fused_vs ← find_fusion_output_vs skinned dst;
  dst_n_fused_vs ← Fused.len dst_fused_vs;
  r ← Fused.check_one_to_one src_fused_vs dst_fused_vs Fused.default_pos_epsilon;
  let '(src_vs_with_no_equiv, src_vs_unfused_in_dst, dst_vs_with_no_equiv_in_src) := r in
  if nonempty src_vs_with_no_equiv || nonempty src_vs_unfused_in_dst
     || nonempty dst_vs_with_no_equiv_in_src
  then
    report error Fatal context
      (FusionsDontMatch src_n_fused_vs dst_n_fused_vs
         (length src_vs_with_no_equiv) (length src_vs_unfused_in_dst)
         (length dst_vs_with_no_equiv_in_src));;
    mret false
  else
    (if negb (src_n_fused_vs =? dst_n_fused_vs)%nat
     then report error Recoverable context
            (FusionCountsDontMatch src_n_fused_vs dst_n_fused_vs)
     else mret tt);;
    mret true.

(** [compare_same_layout_meshes(skinned, src, dst, error, context)] *)
Definition compare_same_layout_meshes (skinned : bool) (src dst : list Mesh)
    (error : ErrorReporter) (context : string) : M bool :=
  let src_vertices := get_unique_verts skinned src in
  let dst_vertices := get_unique_verts skinned dst in
  let src_but_not_dst_exact := exact_difference src_vertices dst_vertices in
  let dst_but_not_src_exact := exact_difference dst_vertices src_vertices in
  if negb (bool_decide (src_but_not_dst_exact = ∅))
     || negb (bool_decide (dst_but_not_src_exact = ∅))
  then
    report error Fatal context
      (ExactDataDiffers (len src_vertices) (len dst_vertices)
         (size src_but_not_dst_exact) (size dst_but_not_src_exact));;
    mret false
  else
    let src_but_not_dst := difference src_vertices dst_vertices in
    let dst_but_not_src := difference dst_vertices src_vertices in
    if negb (bool_decide (src_but_not_dst = ∅))
       || negb (bool_decide (dst_but_not_src = ∅))
    then
      report error Recoverable context
        (ApproxDataDiffers (len src_vertices) (len dst_vertices)
           (size src_but_not_dst) (size dst_but_not_src));;
      mret false
    else mret true.

End Driver.

(** ** Hierarchy Comparator *)

(** [NodeType]: bones, unskinned objects, skinned objects. *)
Inductive NodeType : Type := MatrixTransform | UnskinnedMesh | SkinnedMesh.

Global Instance NodeType_eq_dec : EqDecision NodeType.
Proof. solve_decision. Defined.

(** A node of the scene tree, with the fields the comparison reads.  The
    node classes are imported by [compare.py]; the class of a node is read
    off its [node_type] ([GMDBone] for [MatrixTransform], [GMDSkinnedObject]
    for [SkinnedMesh], [GMDUnskinnedObject] for [UnskinnedMesh]), and a
    node without meshes has the empty [mesh_list]. *)
#[local] Unset Elimination Schemes.
Inductive GMDNode (Mesh : Type) : Type := mkGMDNode {
  name : string;
  node_type : NodeType;
  pos : list Q;
  rot : list Q;
  scale : list Q;
  world_pos : list Q;
  anim_axis : list Q;
  flags : list Z;
  matrix : list (list Q);
  children : list (GMDNode Mesh);
  mesh_list : list Mesh
}.
#[local] Set Elimination Schemes.
Global Arguments mkGMDNode {Mesh}.
Global Arguments name {Mesh}.
Global Arguments node_type {Mesh}.
Global Arguments pos {Mesh}.
Global Arguments rot {Mesh}.
Global Arguments scale {Mesh}.
Global Arguments world_pos {Mesh}.
Global Arguments anim_axis {Mesh}.
Global Arguments flags {Mesh}.
Global Arguments matrix {Mesh}.
Global Arguments children {Mesh}.
Global Arguments mesh_list {Mesh}.

(** [isinstance(n, GMDSkinnedObject)] *)
Definition is_skinned_object {Mesh} (n : GMDNode Mesh) : bool :=
  bool_decide (node_type n = SkinnedMesh).

(** Equality of two tuples of floats. *)
Fixpoint tuple_eqb (a b : list Q) : bool :=
  match a, b with
  | [], [] => true
  | x :: a', y :: b' => Qeq_bool x y && tuple_eqb a' b'
  | _, _ => false
  end.

Fixpoint tuple2_eqb (a b : list (list Q)) : bool :=
  match a, b with
  | [], [] => true
  | x :: a', y :: b' => tuple_eqb x y && tuple2_eqb a' b'
  | _, _ => false
  end.

(** [sum(fabs(s - r) for (s, r) in zip(a, b))] *)
Fixpoint sum_abs_diff (a b : list Q) : Q :=
  match a, b with
  | s :: a', r :: b' => (Qabs (s - r) + sum_abs_diff a' b')%Q
  | _, _ => 0%Q
  end.

(** [sorted_l = [n for n in l]; sorted_l.sort(key=key)], for string keys.
    [list.sort] keeps the order of elements with equal keys; this sort need
    not, so that the order among equal keys is outside the model (the one
    call site sorts distinct strings by themselves). *)
Definition sort_by_key {T} (key : T -> string) (l : list T) : list T :=
  @merge_sort T (fun a b => String.leb (key a) (key b) = true)
    (fun a b => decide (String.leb (key a) (key b) = true)) l.

(** [sort_src_dest_lists(src, dst, key)] *)
Definition sort_src_dest_lists {T} (src dst : list T) (key : T -> string)
  : list T * list T :=
  (sort_by_key key src, sort_by_key key dst).

Section Hierarchy.
Context {Mesh AttrSet K Sig : Type}.
Context `{Countable K} `{EqDecision Sig} `{EqDecision AttrSet}.
Context `{!MeshData Mesh AttrSet K Sig}.
Abbreviation M := (Fused.M Sig).
Abbreviation Node := (GMDNode Mesh).

(** [compare_field(f)]: [fld] reads the field named [f]. *)
Definition compare_field {A} `{EqDecision A} (src dst : Node) (error : ErrorReporter)
    (context : string) (f : string) (fld : Node -> A) : M unit :=
  if bool_decide (fld src ≠ fld dst)
  then report error Fatal context (FieldDiffers f)
  else mret tt.

(** [compare_vec_field(f)].  The threshold 0.05 is tested on the exact sum
    of the differences; the code's sum of doubles can differ from it by
    rounding error. *)
Definition compare_vec_field (src dst : Node) (error : ErrorReporter)
    (context : string) (f : string) (fld : Node -> list Q) : M unit :=
  let src_f := map (py_round 3) (fld src) in
  let dst_f := map (py_round 3) (fld dst) in
  if negb (tuple_eqb src_f dst_f) then
    if Qltb (5 # 100) (sum_abs_diff src_f dst_f)
    then report error Fatal context (VectorDiffers f)
    else report error Recoverable context (VectorDiffersSlightly f)
  else mret tt.

(** [compare_mat_field(f)], with the same test of the threshold. *)
Definition compare_mat_field (src dst : Node) (error : ErrorReporter)
    (context : string) (f : string) (fld : Node -> list (list Q)) : M unit :=
  let src_f := map (map (py_round 3)) (fld src) in
  let dst_f := map (map (py_round 3)) (fld dst) in
  if negb (tuple2_eqb src_f dst_f) then
    let src_floats := concat src_f in
    let dst_floats := concat dst_f in
    if Qltb (5 # 100) (sum_abs_diff src_floats dst_floats)
    then report error Fatal context (MatrixDiffers f)
    else report error Recoverable context (MatrixDiffersSlightly f)
  else mret tt.

(** The list [unique_attr_sets], in first-seen order. *)
Definition unique_attr_sets (ms : list Mesh) : list AttrSet :=
  foldl (fun acc m =>
           if bool_decide (attribute_set m ∈ acc) then acc
           else acc ++ [attribute_set m])
        [] ms.

(** [for attr in unique_attr_sets: ...], threading [identical]. *)
Fixpoint for_attr_sets (skinned : bool) (src dst : Node) (error : ErrorReporter)
    (context : string) (attrs : list AttrSet) (identical : bool) : M bool :=
  match attrs with
  | [] => mret identical
  | attr :: attrs' =>
      let src_ms := filter (fun m => attribute_set m = attr) (mesh_list src) in
      let dst_ms := filter (fun m => attribute_set m = attr) (mesh_list dst) in
      ok ← compare_same_layout_meshes skinned src_ms dst_ms error
             (context ++ "attr set " ++ texture_diffuse attr ++ " ")%string;
      for_attr_sets skinned src dst error context attrs'
        (if negb ok then false else identical)
  end.

(** [compare_single_node_pair(skinned, vertices, src, dst, error, context)] *)
Definition compare_single_node_pair (skinned vertices : bool) (src dst : Node)
    (error : ErrorReporter) (context : string) : M unit :=
  compare_field src dst error context "node_type" node_type;;
  compare_vec_field src dst error context "pos" pos;;
  compare_vec_field src dst error context "rot" rot;;
  compare_vec_field src dst error context "scale" scale;;
  compare_vec_field src dst error context "world_pos" world_pos;;
  compare_vec_field src dst error context "anim_axis" anim_axis;;
  compare_field src dst error context "flags" flags;;
  (if negb (is_skinned_object src)
   then compare_mat_field src dst error context "matrix" matrix
   else mret tt);;
  if bool_decide (node_type src = node_type dst) then
    if bool_decide (node_type src = MatrixTransform) then
      mret tt
    else
      let src_attrs : gset string :=
        list_to_set (map (fun m => attr_str (attribute_set m)) (mesh_list src)) in
      let dst_attrs : gset string :=
        list_to_set (map (fun m => attr_str (attribute_set m)) (mesh_list dst)) in
      let '(sorted_attrs_src, sorted_attrs_dst) :=
        sort_src_dest_lists (elements src_attrs) (elements dst_attrs) (fun x => x) in
      (if bool_decide (sorted_attrs_src ≠ sorted_attrs_dst)
       then report error Fatal context DifferentAttributeSets
       else mret tt);;
      if vertices then
        identical ← for_attr_sets skinned src dst error context
                      (unique_attr_sets (mesh_list src)) true;
        ok ← compare_same_layout_mesh_vertex_fusions skinned (mesh_list src)
               (mesh_list dst) error context;
        let identical := if negb ok then false else identical in
        if identical
        then report error Info context FunctionallyIdentical
        else mret tt
      else mret tt
  else mret tt.

(** [for child_src, child_dst in zip(src, dst): ...], with the recursive
    call of [recursive_compare_node_lists] on
    [(child_src.children, child_dst.children)] as the parameter [self_call],
    which receives [child_src] and [child_dst.children]. *)
Fixpoint for_zip (self_call : Node -> list Node -> string -> M unit)
    (skinned vertices : bool) (error : ErrorReporter) (context : string)
    (src dst : list Node) {struct src} : M unit :=
  match src, dst with
  | child_src :: src', child_dst :: dst' =>
      let child_context := (context ++ name child_src ++ " > ")%string in
      compare_single_node_pair skinned vertices child_src child_dst error
        child_context;;
      self_call child_src (children child_dst) child_context;;
      for_zip self_call skinned vertices error context src' dst'
  | _, _ => mret tt
  end.

(** The body of [recursive_compare_node_lists]. *)
Definition recursive_compare_body
    (self_call : Node -> list Node -> string -> M unit)
    (skinned vertices : bool) (src dst : list Node)
    (error : ErrorReporter) (context : string) : M unit :=
  let src_names_unordered : gset string := list_to_set (map name src) in
  let dst_names_unordered : gset string := list_to_set (map name dst) in
  (if bool_decide (src_names_unordered ≠ dst_names_unordered)
   then report error Fatal context DifferentChildSets
   else mret tt);;
  let src_names := map name src in
  let dst_names := map name dst in
  (if bool_decide (src_names ≠ dst_names)
   then report error Fatal context ChildrenDifferentOrder
   else mret tt);;
  for_zip self_call skinned vertices error context src dst.

(** The recursion, tied on the tree: the comparison of the children of
    [src_parent] with the list [dst]. *)
Fixpoint recursive_compare_children (skinned vertices : bool) (error : ErrorReporter)
    (src_parent : Node) (dst : list Node) (context : string) {struct src_parent}
  : M unit :=
  recursive_compare_body (recursive_compare_children skinned vertices error)
    skinned vertices (children src_parent) dst error context.

(** [recursive_compare_node_lists(skinned, vertices, src, dst, error, context)] *)
Definition recursive_compare_node_lists (skinned vertices : bool)
    (src dst : list Node) (error : ErrorReporter) (context : string) : M unit :=
  recursive_compare_body (recursive_compare_children skinned vertices error)
    skinned vertices src dst error context.

End Hierarchy.

(** ** Stating what a run reports *)

Section Reports.
Context {Sig : Type}.

(** The world after one more reporter call. *)
Definition reported (w : Fused.World Sig) (ev : event) : Fused.World Sig :=
  {| Fused.heap := Fused.heap w; Fused.log := Fused.log w ++ [ev] |}.

(** What the caller sees of a reporter call of severity [sev] that is
    followed by [return b]: the reporter's exception, or [b]. *)
Definition reply {A} (error : ErrorReporter) (sev : severity) (b : A) : res A :=
  if aborts error sev then Raise ReporterAbort else Ok b.

(** Every run of [m] appends some events [evs] to the record of reporter
    calls, and its result [r] and [evs] satisfy [Q]. *)
Definition post {A} (m : Fused.M Sig A) (Q : res A -> list event -> Prop) : Prop :=
  forall w r w', m w = (r, w') ->
    exists evs, Fused.log w' = Fused.log w ++ evs /\ Q r evs.

End Reports.

(** The event is a call of [error.fatal]. *)
Definition is_fatal (ev : event) : Prop := ev_severity ev = Fatal.

(** Some call of [error.fatal] is among the events. *)
Definition has_fatal (evs : list event) : Prop := Exists is_fatal evs.

(** The messages with which the mesh drivers report a located mismatch of
    vertex data (the count drift of the fusion check is not among them). *)
Definition mesh_mismatch (ev : event) : bool :=
  match ev_message ev with
  | ExactDataDiffers _ _ _ _ | ApproxDataDiffers _ _ _ _
  | FusionsDontMatch _ _ _ _ _ => true
  | _ => false
  end.

(** The advisory note of [compare_single_node_pair]. *)
Definition is_identical_note (ev : event) : Prop :=
  ev_message ev = FunctionallyIdentical.

(** An event that is neither a located mesh mismatch nor the note. *)
Definition plain (ev : event) : Prop :=
  mesh_mismatch ev = false /\ ~ is_identical_note ev.

(** When the note is among the events, no located mesh mismatch is. *)
Definition note_means_no_mismatch (evs : list event) : Prop :=
  Exists is_identical_note evs -> Forall (fun ev => mesh_mismatch ev = false) evs.

(** A run that raises does so with the reporter's exception, raised by the
    last call it made to the reporter. *)
Definition stops_at_abort {A} (error : ErrorReporter) (r : res A)
    (evs : list event) : Prop :=
  forall e, r = Raise e ->
    e = ReporterAbort /\
    exists evs' ev, evs = evs' ++ [ev] /\ aborts error (ev_severity ev) = true.

(** ** Concrete inputs *)

(** The fingerprint of a zero normal. *)
Definition zero_normal : VertApproxData :=
  VertApproxData.new (Some [0; 0; 0; 0]%Q) None.

Definition origin : Vec3 := mkVec3 0 0 0.

(** The point x = -0.00005, half a default voxel below the origin. *)
Definition below_origin : Vec3 := mkVec3 (-1 # 20000) 0 0.

(** The index of the single vertex [origin], and the empty index, both with
    the default voxel size. *)
Definition one_vertex : Fused.FusedVertVoxelSet unit :=
  Fused.built Fused.default_voxel_size [(origin, None, tt)].
Definition no_vertex : Fused.FusedVertVoxelSet unit :=
  Fused.built Fused.default_voxel_size [].

(** A mesh for examples: the name of its attribute set, and the records that
    the drivers read from it. *)
Record ExMesh : Type := mkExMesh {
  ex_attr : string;
  ex_verts : list (nat * option (list Q) * option (list Q));
  ex_fused : list (Fused.FusedVert unit)
}.

Global Instance ExMesh_data : MeshData ExMesh string nat unit := {|
  attribute_set := ex_attr;
  attr_str := fun a => a;
  texture_diffuse := fun a => a;
  unique_vert_records := fun _ ms => flat_map ex_verts ms;
  fusion_output_records := fun _ ms => flat_map ex_fused ms
|}.

(** A reporter that never raises. *)
Definition lenient : ErrorReporter := {| aborts := fun _ => false |}.

(** Two fused vertices on one point (with different normals), and one. *)
Definition coincident_pair : ExMesh :=
  {| ex_attr := "a"; ex_verts := [];
     ex_fused := [(origin, Some (mkVec3 1 0 0), tt); (origin, Some (mkVec3 0 1 0), tt)] |}.
Definition single_vertex : ExMesh :=
  {| ex_attr := "a"; ex_verts := [];
     ex_fused := [(origin, Some (mkVec3 1 0 0), tt)] |}.

(** An object node with the given name, type, children and meshes. *)
Definition ex_node (nm : string) (nt : NodeType) (ch : list (GMDNode ExMesh))
    (ms : list ExMesh) : GMDNode ExMesh :=
  {| name := nm; node_type := nt; pos := [0; 0; 0]%Q; rot := [0; 0; 0; 1]%Q;
     scale := [1; 1; 1]%Q; world_pos := [0; 0; 0; 1]%Q; anim_axis := [0; 0; 0; 0]%Q;
     flags := [0; 0; 0; 0]; matrix := []; children := ch; mesh_list := ms |}.

(** The empty world: no object, no report. *)
Definition empty_world : Fused.World unit := {| Fused.heap := []; Fused.log := [] |}.

(** ** The voxel index: what a comparison may change, and what it searches *)

Section Search.
Context {Sig : Type} `{EqDecision Sig}.

(** The test that the comprehensions [potential_other_verts] and
    [potential_self_verts] apply to a vertex [u] of the search space:
    [other_rounded_bw == self_v_rounded_bw and
     (self_v_pos - other_pos).length_squared < pos_epsilon_sqr]. *)
Definition is_close (pos_epsilon : Q) (self_v_pos : Vec3) (self_v_rounded_bw : Sig)
    (u : Fused.FusedVert Sig) : bool :=
  bool_decide (u.2 = self_v_rounded_bw)
  && Qltb (Fused.length_squared_diff self_v_pos u.1.1) (pos_epsilon * pos_epsilon).

(** The number of vertices of [l] that pass the test. *)
Definition count_close (pos_epsilon : Q) (self_v_pos : Vec3) (self_v_rounded_bw : Sig)
    (l : list (Fused.FusedVert Sig)) : nat :=
  length (filter (fun u => is_close pos_epsilon self_v_pos self_v_rounded_bw u = true) l).

(** [o'] is [o] with further keys at the end of [voxels], each with an empty
    bucket. *)
Definition extended_by_empty_buckets (o o' : Fused.FusedVertVoxelSet Sig) : Prop :=
  Fused.verts o' = Fused.verts o /\
  Fused.voxel_size o' = Fused.voxel_size o /\
  exists extra,
    Fused.voxels o' = Fused.voxels o ++ extra /\
    Forall (fun kl : Voxel * list nat => kl.2 = []) extra.

(** Between [w] and [w'] no report was made and no object was created, the
    objects other than the one at [other] are as they were, and the object at
    [other] gained at most empty buckets. *)
Definition touches_only (other : Fused.ref) (w w' : Fused.World Sig) : Prop :=
  Fused.log w' = Fused.log w /\
  length (Fused.heap w') = length (Fused.heap w) /\
  (forall r, r <> other -> Fused.heap w' !! r = Fused.heap w !! r) /\
  (forall o, Fused.heap w !! other = Some o ->
     exists o', Fused.heap w' !! other = Some o' /\ extended_by_empty_buckets o o').

(** Every run of [m] satisfies [touches_only other], whatever its outcome. *)
Definition probes_only {A} (other : Fused.ref) (m : Fused.M Sig A) : Prop :=
  forall w, touches_only other w (m w).2.

End Search.

(** ** The ordering of [VertApproxData] *)

(** The outcome of a rich comparison: a truth value, or the [TypeError] of
    comparing [None] with a tuple. *)
Inductive comparison_result : Type :=
  | Cmp (b : bool)
  | TypeError.

Module VertApproxOrder.

(** One position in the comparison of two tuples with [<]: items that
    differ decide by their own order, equal items leave the decision to the
    rest of the tuples. *)
Definition item_lt (x y : Qc) (rest : bool) : bool :=
  if bool_decide (x = y) then rest else bool_decide (x < y)%Qc.

(** The same with [>] ([x > y] is written [y < x]). *)
Definition item_gt (x y : Qc) (rest : bool) : bool :=
  if bool_decide (x = y) then rest else bool_decide (y < x)%Qc.

(** [a < b] and [a > b] on two tuples of four floats; tuples that agree at
    every position have the same length, and compare false. *)
Definition tuple4_lt (a b : Tuple4) : bool :=
  let '(a0, a1, a2, a3) := a in
  let '(b0, b1, b2, b3) := b in
  item_lt a0 b0 (item_lt a1 b1 (item_lt a2 b2 (item_lt a3 b3 false))).

Definition tuple4_gt (a b : Tuple4) : bool :=
  let '(a0, a1, a2, a3) := a in
  let '(b0, b1, b2, b3) := b in
  item_gt a0 b0 (item_gt a1 b1 (item_gt a2 b2 (item_gt a3 b3 false))).

(** [x < y] and [x > y] on two fields that differ: two tuples compare as
    tuples, and [None] compares with nothing. *)
Definition field_lt (x y : option Tuple4) : comparison_result :=
  match x, y with
  | Some a, Some b => Cmp (tuple4_lt a b)
  | _, _ => TypeError
  end.

Definition field_gt (x y : option Tuple4) : comparison_result :=
  match x, y with
  | Some a, Some b => Cmp (tuple4_gt a b)
  | _, _ => TypeError
  end.

(** [self.__lt__(other)]:
    [(self.normal, self.tangent) < (other.normal, other.tangent)]. *)
Definition __lt__ (self other : VertApproxData) : comparison_result :=
  if bool_decide (normal self = normal other) then
    if bool_decide (tangent self = tangent other) then Cmp false
    else field_lt (tangent self) (tangent other)
  else field_lt (normal self) (normal other).

(** [self.__gt__(other)]:
    [(self.normal, self.tangent) > (other.normal, other.tangent)]. *)
Definition __gt__ (self other : VertApproxData) : comparison_result :=
  if bool_decide (normal self = normal other) then
    if bool_decide (tangent self = tangent other) then Cmp false
    else field_gt (tangent self) (tangent other)
  else field_gt (normal self) (normal other).

End VertApproxOrder.

(** ** The reports on children without a partner *)

Section SurplusReports.
Context {Mesh Sig : Type}.

(** The world after the header of a run of [recursive_compare_node_lists] on
    two lists of which one has the names [names] of the other followed by
    those of [extra]: the report on the sets of names, when some name of
    [extra] is new, and the report on the order. *)
Definition surplus_reported (w : Fused.World Sig) (context : string)
    (names : list string) (extra : list (GMDNode Mesh)) : Fused.World Sig :=
  reported
    (if decide (Forall (fun n => name n ∈ names) extra) then w
     else reported w (mkEvent Fatal context DifferentChildSets))
    (mkEvent Fatal context ChildrenDifferentOrder).

End SurplusReports.

(** * Properties *)


(** ** Python numbers *)

Lemma Qltb_lt x y : Qltb x y = true <-> (x < y)%Q.
Proof.
  unfold Qltb. rewrite negb_true_iff, <- not_true_iff_false, Qle_bool_iff.
  split; [apply Qnot_le_lt | apply Qlt_not_le].
Qed.

Lemma py_int_nonneg_floor q : (0 <= q)%Q -> py_int q = py_floor q.
Proof.
  destruct q as [n d]. unfold Qle, py_int, py_floor. simpl. intros Hn.
  apply Z.quot_div_nonneg; lia.
Qed.

(** Truncation of a negative number that is not whole: one above the floor. *)
Lemma py_int_neg_floor q :
  (q < 0)%Q -> ~ (inject_Z (py_floor q) == q)%Q -> py_int q = py_floor q + 1.
Proof.
  destruct q as [n d]. unfold Qlt, Qeq, py_int, py_floor, inject_Z. simpl.
  intros Hn Hfrac.
  pose proof (Z.div_mod n (Z.pos d) ltac:(lia)) as Hdm.
  pose proof (Z.mod_pos_bound n (Z.pos d) ltac:(lia)) as Hmod.
  assert (n mod Z.pos d <> 0) as Hrem by (intros Hz; apply Hfrac; nia).
  assert (exists a, n = - a /\ 0 < a) as (a & -> & Ha) by (exists (- n); lia).
  assert (a mod Z.pos d <> 0) as Hrem'.
  { intros Hz. apply Hrem. by rewrite Z.mod_opp_l_z by lia. }
  rewrite Z.quot_opp_l, Z.quot_div_nonneg by lia.
  rewrite Z.div_opp_l_nz by lia. lia.
Qed.

(** Truncation of a whole number is the number. *)
Lemma py_int_whole_floor q :
  (inject_Z (py_floor q) == q)%Q -> py_int q = py_floor q.
Proof.
  destruct q as [n d]. unfold Qeq, py_int, py_floor, inject_Z. simpl. intros Hw.
  assert (n = Z.pos d * (n / Z.pos d)) as Hn by lia.
  rewrite Hn at 1. rewrite Z.mul_comm. apply Z.quot_mul. lia.
Qed.

(** ** ApproxFingerprint *)

(** C1, counterexample: a fingerprint whose normal is the zero vector is not
    approximately equal to itself, its dot product with itself being 0 < 0.9. *)
Lemma approx_eq_zero_normal_irreflexive :
  VertApproxData.approx_eq zero_normal zero_normal = false.
Proof. reflexivity. Qed.

(** A value rounded to two places is a whole number of hundredths. *)
Lemma py_round_2_hundredths (x : Q) :
  py_round 2 x = (round_half_even (x * inject_Z 100) # 100)%Q.
Proof. reflexivity. Qed.

Lemma dot4_self_hundredths (a b c d : Z) :
  dot4 (Q2Qc (a # 100), Q2Qc (b # 100), Q2Qc (c # 100), Q2Qc (d # 100))
       (Q2Qc (a # 100), Q2Qc (b # 100), Q2Qc (c # 100), Q2Qc (d # 100))
  = Q2Qc ((a * a + b * b + c * c + d * d) # 10000).
Proof.
  unfold dot4. apply Qc_is_canon. simpl.
  rewrite !Qred_correct. unfold Qeq, Qplus, Qmult. simpl. lia.
Qed.

Lemma ten_thousandths_below_t (m : Z) :
  (Q2Qc (m # 10000) < VertApproxData.t)%Qc <-> m < 9000.
Proof.
  unfold VertApproxData.t, Qclt. simpl. rewrite !Qred_correct.
  unfold Qlt. simpl. lia.
Qed.

(** C1, amended: for [x = VertApproxData.new(normal, tangent)],
    [x.approx_eq(x)] is true when [normal] is absent.  When it is present,
    the dot product of the rounded normal with itself is a whole number [m]
    of ten-thousandths, and [x.approx_eq(x)] is true when [m >= 9001] and
    false when [m <= 8999], as for the zero vector. *)
Theorem approx_eq_self (normal tangent : option (list Q)) :
  let x := VertApproxData.new normal tangent in
  match normal with
  | None => VertApproxData.approx_eq x x = true
  | Some v =>
      exists m : Z,
        dot4 (round_tuple4 2 (resized4 v)) (round_tuple4 2 (resized4 v))
          = Q2Qc (m # 10000) /\
        (9001 <= m -> VertApproxData.approx_eq x x = true) /\
        (m <= 8999 -> VertApproxData.approx_eq x x = false)
  end.
Proof.
  intros x. subst x. destruct normal as [v|]; [|reflexivity].
  unfold VertApproxData.approx_eq, VertApproxData.new.
  cbn [normal fmap option_fmap option_map].
  destruct (resized4 v) as [[[a b] c] d]. unfold round_tuple4.
  rewrite !py_round_2_hundredths, dot4_self_hundredths.
  eexists. split; [reflexivity|].
  split; intros Hm; case_bool_decide as Hlt; try done.
  - apply ten_thousandths_below_t in Hlt. lia.
  - exfalso. apply Hlt, ten_thousandths_below_t. lia.
Qed.

Section VertSetProps.
Context {K : Type} `{Countable K}.
Implicit Types S : VertSet K.

Lemma any_approx_eq_true (fp : VertApproxData) (X : gset VertApproxData) :
  any_approx_eq fp X = true <->
  exists fp', fp' ∈ X /\ VertApproxData.approx_eq fp fp' = true.
Proof.
  unfold any_approx_eq. rewrite existsb_exists.
  split; intros (fp' & Hin & Heq); exists fp'; split; try done.
  - apply elem_of_elements. by apply list_elem_of_In.
  - apply list_elem_of_In. by apply elem_of_elements.
Qed.

Lemma filter_none {A} (P : A -> Prop) `{forall x, Decision (P x)} (l : list A) :
  filter P l = [] <-> forall x, x ∈ l -> ~ P x.
Proof.
  induction l as [|a l IH]; simpl.
  - split; [intros _ x Hx; by apply not_elem_of_nil in Hx | done].
  - rewrite filter_cons. destruct (decide (P a)) as [Ha|Ha].
    + split; [done|]. intros Hall. exfalso. apply (Hall a); [left | done].
    + rewrite IH. split; intros Hall x Hx.
      * apply elem_of_cons in Hx as [->|Hx]; [done | by apply Hall].
      * apply Hall. by right.
Qed.

Lemma differing_va_nil (X Y : gset VertApproxData) :
  differing_va X Y = [] <->
  forall fp, fp ∈ X -> exists fp', fp' ∈ Y /\ VertApproxData.approx_eq fp fp' = true.
Proof.
  unfold differing_va. rewrite filter_none.
  split; intros Hall fp Hin.
  - apply any_approx_eq_true. apply elem_of_elements, Hall in Hin.
    by destruct (any_approx_eq fp Y).
  - apply elem_of_elements, Hall, any_approx_eq_true in Hin. by rewrite Hin.
Qed.

Lemma exact_difference_self S : exact_difference S S = ∅.
Proof. unfold exact_difference. set_solver. Qed.

Lemma difference_self_fold S (X : gset K) :
  set_fold (fun vert_exact (acc : gmap K (list VertApproxData)) =>
              let d := differing_va (verts_at S vert_exact) (verts_at S vert_exact) in
              if (0 <? length d)%nat then <[vert_exact := d]> acc else acc)
           (∅ : gmap K (list VertApproxData)) X = ∅ <->
  forall k, k ∈ X -> differing_va (verts_at S k) (verts_at S k) = [].
Proof.
  apply (set_fold_ind_L (fun acc X => acc = ∅ <-> forall k, k ∈ X ->
           differing_va (verts_at S k) (verts_at S k) = [])).
  - split; [set_solver | done].
  - intros x Y acc Hx IH. simpl.
    destruct (differing_va (verts_at S x) (verts_at S x)) as [|fp d] eqn:Hd; simpl.
    + rewrite IH. split; intros Hall k Hk.
      * apply elem_of_union in Hk as [->%elem_of_singleton|Hk]; [done | by apply Hall].
      * apply Hall. set_solver.
    + split.
      * intros Hemp. by apply insert_non_empty in Hemp.
      * intros Hall. specialize (Hall x). rewrite Hd in Hall.
        discriminate Hall. set_solver.
Qed.

(** C2, amended: [S.exact_difference(S)] is empty for every vertex set [S],
    and [S.difference(S)] is empty exactly when every fingerprint stored in
    [S] is approximately equal to some fingerprint stored under the same
    key. *)
Theorem difference_self S :
  exact_difference S S = ∅ /\
  (difference S S = ∅ <->
   forall k fp, fp ∈ verts_at S k ->
     exists fp', fp' ∈ verts_at S k /\ VertApproxData.approx_eq fp fp' = true).
Proof.
  split; [apply exact_difference_self|].
  unfold difference.
  replace (dom (verts S) ∖ dom (verts S)) with (∅ : gset K) by set_solver.
  rewrite set_fold_empty, difference_self_fold.
  split.
  - intros Hall k fp Hfp. destruct (decide (k ∈ dom (verts S) ∩ dom (verts S))) as [Hk|Hk].
    + eapply differing_va_nil; [by apply Hall | done].
    + unfold verts_at in Hfp. rewrite (not_elem_of_dom_1 (verts S) k) in Hfp; set_solver.
  - intros Hall k _. apply differing_va_nil, Hall.
Qed.

End VertSetProps.

(** C2, counterexample: the vertex set holding one key with the zero-normal
    fingerprint differs from itself. *)
Lemma difference_self_nonempty :
  difference (VertSet_of_adds [(1%nat, zero_normal)])
             (VertSet_of_adds [(1%nat, zero_normal)]) ≠ ∅.
Proof. by vm_compute. Qed.

(** ** Insertion-ordered dictionaries *)

Section DictProps.
Context {Key V : Type} `{EqDecision Key}.
Implicit Types d : dict Key V.

Lemma dict_get_set_eq d k v : dict_get (dict_set d k v) k = Some v.
Proof.
  induction d as [|[k' v'] d IH]; simpl.
  - by rewrite decide_True.
  - destruct (decide (k' = k)) as [->|Hne]; simpl.
    + by rewrite decide_True.
    + by rewrite decide_False.
Qed.

Lemma dict_get_set_ne d k k' v : k ≠ k' -> dict_get (dict_set d k v) k' = dict_get d k'.
Proof.
  intros Hne. induction d as [|[k0 v0] d IH]; simpl.
  - by rewrite decide_False.
  - destruct (decide (k0 = k)) as [->|Hne0]; simpl.
    + by rewrite !decide_False.
    + destruct (decide (k0 = k')); done.
Qed.

Lemma dict_set_set d k v v' : dict_set (dict_set d k v) k v' = dict_set d k v'.
Proof.
  induction d as [|[k0 v0] d IH]; simpl.
  - by rewrite decide_True.
  - destruct (decide (k0 = k)) as [->|Hne]; simpl.
    + by rewrite decide_True.
    + by rewrite decide_False, IH.
Qed.

Lemma dict_get_Some_elem d k v : dict_get d k = Some v -> (k, v) ∈ d.
Proof.
  induction d as [|[k0 v0] d IH]; simpl; [done|].
  destruct (decide (k0 = k)) as [->|Hne].
  - intros [= ->]. left.
  - intros Hget. right. by apply IH.
Qed.

(** A new key makes the dictionary one item longer; an existing key keeps
    the size. *)
Lemma dict_set_length d k v :
  length (dict_set d k v) =
  match dict_get d k with Some _ => length d | None => S (length d) end.
Proof.
  induction d as [|[k0 v0] d IH]; simpl; [done|].
  destruct (decide (k0 = k)); simpl; [done|].
  rewrite IH. by destruct (dict_get d k).
Qed.

Lemma dict_set_elem d k v k' v' :
  (k', v') ∈ dict_set d k v -> (k', v') = (k, v) \/ (k', v') ∈ d.
Proof.
  induction d as [|[k0 v0] d IH]; simpl.
  - intros Hin%list_elem_of_singleton. by left.
  - destruct (decide (k0 = k)) as [->|Hne]; intros Hin.
    + apply elem_of_cons in Hin as [Hin|Hin]; [by left | right; by right].
    + apply elem_of_cons in Hin as [Hin|Hin]; [right; rewrite Hin; left|].
      destruct (IH Hin); [by left | right; by right].
Qed.

Lemma dict_set_keys d k v :
  map fst (dict_set d k v) =
  match dict_get d k with Some _ => map fst d | None => map fst d ++ [k] end.
Proof.
  induction d as [|[k0 v0] d IH]; simpl; [done|].
  destruct (decide (k0 = k)) as [->|Hne]; simpl; [done|].
  rewrite IH. by destruct (dict_get d k).
Qed.

Lemma dict_get_None_keys d k : dict_get d k = None -> k ∉ map fst d.
Proof.
  induction d as [|[k0 v0] d IH]; simpl.
  - intros _. apply not_elem_of_nil.
  - destruct (decide (k0 = k)) as [->|Hne]; [done|].
    intros Hg. apply not_elem_of_cons. split; [done | by apply IH].
Qed.

Lemma dict_set_NoDup d k v : NoDup (map fst d) -> NoDup (map fst (dict_set d k v)).
Proof.
  intros Hnd. rewrite dict_set_keys. destruct (dict_get d k) eqn:Hg; [done|].
  apply NoDup_app. split; [done|]. split.
  - intros x Hx ->%list_elem_of_singleton. by apply dict_get_None_keys in Hg.
  - apply NoDup_singleton.
Qed.

Lemma dict_elem_get_NoDup d k v :
  NoDup (map fst d) -> (k, v) ∈ d -> dict_get d k = Some v.
Proof.
  induction d as [|[k0 v0] d IH]; simpl; intros Hnd Hin.
  - by apply not_elem_of_nil in Hin.
  - apply NoDup_cons in Hnd as [Hk0 Hnd].
    apply elem_of_cons in Hin as [[= -> ->]|Hin].
    + by rewrite decide_True.
    + destruct (decide (k0 = k)) as [->|Hne]; [|by apply IH].
      exfalso. apply Hk0. apply list_elem_of_fmap. by exists (k, v).
Qed.

End DictProps.

(** ** FusedVoxelIndex *)

Module FusedProps.
Import Fused.

Section Monad.
Context {Sig : Type}.
Implicit Types w : World Sig.
Implicit Types o : FusedVertVoxelSet Sig.

Lemma bind_Ok {A B} (m : M Sig A) (k : A -> M Sig B) w a w' :
  m w = (Ok a, w') -> (m ≫= k) w = k a w'.
Proof. intros Hm. unfold mbind, M_bind, bind. by rewrite Hm. Qed.

Lemma bind_Raise {A B} (m : M Sig A) (k : A -> M Sig B) w e w' :
  m w = (Raise e, w') -> (m ≫= k) w = (Raise e, w').
Proof. intros Hm. unfold mbind, M_bind, bind. by rewrite Hm. Qed.

Lemma bind_inv {A B} (m : M Sig A) (k : A -> M Sig B) w r w' :
  (m ≫= k) w = (r, w') ->
  (exists a w1, m w = (Ok a, w1) /\ k a w1 = (r, w')) \/
  (exists e, m w = (Raise e, w') /\ r = Raise e).
Proof.
  unfold mbind, M_bind, bind. destruct (m w) as [[a|e] w1]; intros Hk.
  - left. eauto.
  - right. injection Hk as <- <-. eauto.
Qed.

Lemma get_obj_Some r w o : heap w !! r = Some o -> get_obj r w = (Ok o, w).
Proof. intros Hr. unfold get_obj. by rewrite Hr. Qed.

Lemma put_obj_spec r o w : put_obj r o w = (Ok tt, with_obj w r o).
Proof. done. Qed.

Lemma len_spec r o w :
  heap w !! r = Some o -> len r w = (Ok (length (verts o)), w).
Proof. intros Hr. unfold len. by erewrite bind_Ok by (by apply get_obj_Some). Qed.

Lemma list_index_Some {A} (l : list A) i a w :
  l !! i = Some a -> list_index l i w = (Ok a, w).
Proof. intros Hi. unfold list_index. by rewrite Hi. Qed.

Lemma with_obj_id w r o : heap w !! r = Some o -> with_obj w r o = w.
Proof. intros Hr. unfold with_obj. rewrite list_insert_id by done. by destruct w. Qed.

Lemma with_obj_with_obj w r o o' : with_obj (with_obj w r o) r o' = with_obj w r o'.
Proof. unfold with_obj. simpl. by rewrite list_insert_insert_eq. Qed.

Lemma with_obj_lookup w r o o0 :
  heap w !! r = Some o0 -> heap (with_obj w r o) !! r = Some o.
Proof.
  intros Hr. simpl. apply list_lookup_insert_eq. by eapply lookup_lt_Some.
Qed.

Lemma with_obj_lookup_ne w r r' o : r ≠ r' -> heap (with_obj w r o) !! r' = heap w !! r'.
Proof. intros Hne. simpl. by apply list_lookup_insert_ne. Qed.

End Monad.

Section Index.
Context {Sig : Type} `{EqDecision Sig}.
Implicit Types w : World Sig.
Implicit Types o s : FusedVertVoxelSet Sig.

Lemma bucket_of_probed o k k' : bucket_of (probed o k) k' = bucket_of o k'.
Proof.
  unfold probed, bucket_of. destruct (dict_get (voxels o) k) eqn:Hk; [done|]. simpl.
  destruct (decide (k = k')) as [<-|Hne].
  - by rewrite dict_get_set_eq, Hk.
  - by rewrite dict_get_set_ne.
Qed.

Lemma same_buckets_trans o1 o2 o3 :
  same_buckets o1 o2 -> same_buckets o2 o3 -> same_buckets o1 o3.
Proof.
  intros (Hv & Hs & Hb) (Hv' & Hs' & Hb'). repeat split.
  - by rewrite Hv'.
  - by rewrite Hs'.
  - intros k. by rewrite Hb'.
Qed.

Lemma same_buckets_probed o k : same_buckets o (probed o k).
Proof.
  repeat split.
  - unfold probed. by destruct (dict_get (voxels o) k).
  - unfold probed. by destruct (dict_get (voxels o) k).
  - intros k'. apply bucket_of_probed.
Qed.

Lemma same_buckets_probed_all o keys : same_buckets o (foldl probed o keys).
Proof.
  revert o. induction keys as [|k keys IH]; intros o; simpl; [done|].
  eapply same_buckets_trans; [apply same_buckets_probed | apply IH].
Qed.

Lemma buckets_valid_probed o k : buckets_valid o -> buckets_valid (probed o k).
Proof.
  unfold buckets_valid, probed. intros Hv.
  destruct (dict_get (voxels o) k) eqn:Hk; [done|]. simpl.
  apply Forall_forall. intros [k' l] Hin.
  apply dict_set_elem in Hin as [[= -> ->]|Hin]; simpl; [done|].
  by apply (proj1 (Forall_forall _ _) Hv (k', l)).
Qed.

Lemma buckets_valid_probed_all o keys :
  buckets_valid o -> buckets_valid (foldl probed o keys).
Proof.
  revert o. induction keys as [|k keys IH]; intros o Hv; simpl; [done|].
  by apply IH, buckets_valid_probed.
Qed.

Lemma buckets_valid_bucket_of o k :
  buckets_valid o -> Forall (fun i => (i < length (verts o))%nat) (bucket_of o k).
Proof.
  intros Hv. unfold bucket_of. destruct (dict_get (voxels o) k) as [l|] eqn:Hk; simpl; [|done].
  apply dict_get_Some_elem in Hk.
  by apply (proj1 (Forall_forall _ _) Hv (k, l)).
Qed.

(** The [defaultdict] read returns the bucket and leaves the probed state. *)
Lemma voxels_getitem_spec w r o k :
  heap w !! r = Some o ->
  voxels_getitem r k w = (Ok (bucket_of o k), with_obj w r (probed o k)).
Proof.
  intros Hr. unfold voxels_getitem.
  rewrite (bind_Ok _ _ _ _ _ (get_obj_Some _ _ _ Hr)).
  unfold probed, bucket_of. destruct (dict_get (voxels o) k) as [l|]; simpl.
  - by rewrite with_obj_id.
  - done.
Qed.

Lemma py_div_spec (x y : Q) w :
  Qeq_bool y 0 = false -> py_div x y w = (Ok (x / y)%Q, w).
Proof. intros Hy. unfold py_div. by rewrite Hy. Qed.

(** [add] on an index whose voxel size is not zero. *)
Lemma add_spec w r o pos norm sig :
  heap w !! r = Some o ->
  Qeq_bool (voxel_size o) 0 = false ->
  add r pos norm sig w = (Ok tt, with_obj w r (added o (pos, norm, sig))).
Proof.
  intros Hr Hvs. unfold add.
  erewrite bind_Ok by (by apply get_obj_Some).
  do 3 (erewrite bind_Ok by (by apply py_div_spec)).
  erewrite bind_Ok by (by apply voxels_getitem_spec).
  fold (voxel_of (voxel_size o) pos).
  erewrite bind_Ok by (by eapply get_obj_Some, with_obj_lookup).
  erewrite bind_Ok by apply put_obj_spec.
  erewrite bind_Ok by (by eapply get_obj_Some, with_obj_lookup, with_obj_lookup).
  rewrite put_obj_spec, !with_obj_with_obj. f_equal. f_equal.
  unfold added. simpl.
  pose proof (same_buckets_probed o (voxel_of (voxel_size o) pos)) as (Hv & Hs & Hb).
  rewrite Hv, Hs. f_equal.
  unfold probed. destruct (dict_get (voxels o) (voxel_of (voxel_size o) pos)) eqn:Hg; [done|].
  simpl. by rewrite dict_set_set.
Qed.

Lemma mapM_list_index {A} (l : list A) (idx : list nat) w :
  Forall (fun i => (i < length l)%nat) idx ->
  mapM (list_index (Sig := Sig) l) idx w = (Ok (omap (fun i => l !! i) idx), w).
Proof.
  induction 1 as [|i idx Hi _ IH]; simpl; [done|].
  apply lookup_lt_is_Some in Hi as [a Ha].
  erewrite bind_Ok by (by apply list_index_Some).
  erewrite bind_Ok by apply IH.
  by rewrite Ha.
Qed.

Lemma indexed_spec (vs : list (FusedVert Sig)) (bucket : list nat) w :
  Forall (fun i => (i < length vs)%nat) bucket ->
  indexed vs bucket w = (Ok (omap (fun i => pair i <$> vs !! i) bucket), w).
Proof.
  unfold indexed. induction 1 as [|i idx Hi _ IH]; simpl; [done|].
  apply lookup_lt_is_Some in Hi as [a Ha].
  erewrite bind_Ok; [|by erewrite bind_Ok by (by apply list_index_Some)].
  erewrite bind_Ok by apply IH.
  by rewrite Ha.
Qed.

Lemma space_cons o k keys :
  space o (k :: keys) =
  omap (fun i => pair i <$> verts o !! i) (bucket_of o k) ++ space o keys.
Proof. done. Qed.

Lemma space_same_buckets o o' keys : same_buckets o o' -> space o' keys = space o keys.
Proof.
  intros (Hv & _ & Hb). unfold space. rewrite Hv.
  induction keys as [|k keys IH]; simpl; [done|]. by rewrite Hb, IH.
Qed.

(** The search in [other]: the result is the search space of the state
    before, and the state after has every probed key. *)
Lemma other_search_space_spec w other o keys :
  heap w !! other = Some o ->
  buckets_valid o ->
  other_search_space other keys w =
    (Ok (space o keys), with_obj w other (foldl probed o keys)).
Proof.
  revert w o. induction keys as [|k keys IH]; intros w o Hr Hv; simpl.
  - by rewrite with_obj_id.
  - erewrite bind_Ok by (by apply voxels_getitem_spec).
    pose proof (same_buckets_probed o k) as Hsame.
    assert (heap (with_obj w other (probed o k)) !! other = Some (probed o k)) as Hr'
      by (by eapply with_obj_lookup).
    erewrite bind_Ok by (by apply get_obj_Some).
    erewrite bind_Ok.
    2:{ apply indexed_spec. destruct Hsame as (-> & _ & _).
        by apply buckets_valid_bucket_of. }
    erewrite bind_Ok by (apply IH; [done | by apply buckets_valid_probed]).
    rewrite with_obj_with_obj. unfold mret, M_ret, ret.
    rewrite (space_same_buckets _ _ _ Hsame).
    destruct Hsame as (-> & _ & _). done.
Qed.

Lemma dict_contains_bucket_of o k :
  dict_contains (voxels o) k = false -> bucket_of o k = [].
Proof.
  unfold dict_contains, bucket_of. by destruct (dict_get (voxels o) k).
Qed.

Lemma self_bucket_spec w s k :
  buckets_valid s ->
  (if dict_contains (voxels s) k
   then indexed (verts s) (default [] (dict_get (voxels s) k))
   else ret []) w
  = (Ok (omap (fun i => pair i <$> verts s !! i) (bucket_of s k)), w).
Proof.
  intros Hv. destruct (dict_contains (voxels s) k) eqn:Hc.
  - apply indexed_spec. by apply buckets_valid_bucket_of.
  - by rewrite dict_contains_bucket_of.
Qed.

(** The search in [self] changes nothing. *)
Lemma self_search_space_spec w self s keys :
  heap w !! self = Some s ->
  buckets_valid s ->
  self_search_space self keys w = (Ok (space s keys), w).
Proof.
  intros Hr Hv. induction keys as [|k keys IH]; simpl; [done|].
  erewrite bind_Ok by (by apply get_obj_Some).
  erewrite bind_Ok by (by apply self_bucket_spec).
  erewrite bind_Ok by apply IH. done.
Qed.

(** The loop over the vertices of one bucket. *)
Lemma for_self_verts_spec w self s other_space self_space eps2 vs acc :
  heap w !! self = Some s ->
  Forall (fun i => (i < length (verts s))%nat) vs ->
  for_self_verts self other_space self_space eps2 vs acc w =
    (Ok (foldl (classify other_space self_space eps2) acc
               (omap (fun i => verts s !! i) vs)), w).
Proof.
  intros Hr Hvs. revert acc. induction Hvs as [|i vs Hi _ IH]; intros acc; simpl; [done|].
  apply lookup_lt_is_Some in Hi as [[[p n] sg] Ha].
  erewrite bind_Ok by (by apply get_obj_Some).
  erewrite bind_Ok by (by apply list_index_Some).
  rewrite Ha. simpl. by rewrite IH.
Qed.

Lemma scan_same_buckets s o o' eps2 items acc :
  same_buckets o o' -> scan s o' eps2 items acc = scan s o eps2 items acc.
Proof.
  intros Hsame. unfold scan. revert acc.
  induction items as [|[k vs] items IH]; intros acc; simpl; [done|].
  by rewrite IH, (space_same_buckets _ _ _ Hsame).
Qed.

Lemma probes_cons k vs items : probes ((k, vs) :: items) = neighbourhood k ++ probes items.
Proof. done. Qed.

(** The loop over the items of [self.voxels], for two distinct objects: it
    returns what [scan] computes, leaves [self] as it is and leaves [other]
    with every probed key. *)
Lemma for_voxels_spec w self other s o eps2 items acc :
  self ≠ other ->
  heap w !! self = Some s ->
  heap w !! other = Some o ->
  buckets_valid s ->
  buckets_valid o ->
  items ⊆ voxels s ->
  for_voxels self other eps2 (length (voxels s)) items acc w =
    (Ok (scan s o eps2 items acc),
     with_obj w other (foldl probed o (probes items))).
Proof.
  intros Hne Hs Ho Hvs. revert w o acc Hs Ho.
  induction items as [|[k vs] items IH]; intros w o acc Hs Ho Hvo Hsub.
  - simpl. erewrite bind_Ok by (by apply get_obj_Some).
    rewrite Nat.eqb_refl. simpl. by rewrite with_obj_id.
  - cbn [for_voxels]. erewrite bind_Ok by (by apply get_obj_Some).
    rewrite Nat.eqb_refl. cbn [negb].
    erewrite bind_Ok by (by apply other_search_space_spec).
    set (o' := foldl probed o (neighbourhood k)).
    assert (heap (with_obj w other o') !! self = Some s) as Hs'
      by (by rewrite with_obj_lookup_ne).
    assert (heap (with_obj w other o') !! other = Some o') as Ho'
      by (by eapply with_obj_lookup).
    erewrite bind_Ok by (by apply self_search_space_spec).
    erewrite bind_Ok.
    2:{ apply for_self_verts_spec; [done|].
        apply (proj1 (Forall_forall _ _) Hvs (k, vs)), Hsub. left. }
    rewrite (IH _ o'); [|done|done|by apply buckets_valid_probed_all|].
    2:{ intros x Hx. apply Hsub. by right. }
    rewrite with_obj_with_obj, probes_cons, foldl_app. f_equal.
    rewrite (scan_same_buckets _ o o') by apply same_buckets_probed_all.
    done.
Qed.

(** [check_one_to_one] on two distinct objects whose voxel sizes agree and
    exceed [pos_epsilon]: it returns the triple computed by [one_to_one] and
    leaves in [other] every key it probed. *)
Lemma check_one_to_one_spec w self other s o pos_epsilon :
  self ≠ other ->
  heap w !! self = Some s ->
  heap w !! other = Some o ->
  buckets_valid s ->
  buckets_valid o ->
  Qeq_bool (voxel_size s) (voxel_size o) = true ->
  Qltb pos_epsilon (voxel_size s) = true ->
  check_one_to_one self other pos_epsilon w =
    (Ok (one_to_one s o pos_epsilon),
     with_obj w other (foldl probed o (probes (voxels s)))).
Proof.
  intros Hne Hs Ho Hvs Hvo Heq Hlt. unfold check_one_to_one.
  erewrite bind_Ok by (by apply get_obj_Some).
  erewrite bind_Ok by (by apply get_obj_Some).
  rewrite Heq, Hlt. cbn [py_assert].
  erewrite bind_Ok by done. erewrite bind_Ok by done.
  erewrite bind_Ok by (by apply for_voxels_spec).
  set (o' := foldl probed o (probes (voxels s))).
  assert (heap (with_obj w other o') !! other = Some o') as Ho'
    by (by eapply with_obj_lookup).
  pose proof (same_buckets_probed_all o (probes (voxels s))) as (Hv & _ & _).
  fold o' in Hv.
  erewrite bind_Ok by (by apply get_obj_Some).
  unfold len. erewrite bind_Ok by (by erewrite bind_Ok by (by apply get_obj_Some)).
  erewrite bind_Ok.
  2:{ apply mapM_list_index. apply Forall_forall. intros i Hi.
      apply list_elem_of_filter in Hi as [_ Hi]. apply elem_of_seq in Hi. lia. }
  unfold one_to_one. by rewrite Hv.
Qed.

End Index.


End FusedProps.

Module FusedBuilt.
Import Fused FusedProps.

Section Built.
Context {Sig : Type} `{EqDecision Sig}.
Implicit Types w : World Sig.
Implicit Types o s : FusedVertVoxelSet Sig.
Implicit Types v : FusedVert Sig.

Lemma added_verts o v : verts (added o v) = verts o ++ [v].
Proof. done. Qed.

Lemma bucket_of_added_eq o v :
  bucket_of (added o v) (voxel_of (voxel_size o) v.1.1)
  = bucket_of o (voxel_of (voxel_size o) v.1.1) ++ [length (verts o)].
Proof. unfold bucket_of at 1, added. simpl. by rewrite dict_get_set_eq. Qed.

Lemma bucket_of_added_ne o v k :
  k ≠ voxel_of (voxel_size o) v.1.1 -> bucket_of (added o v) k = bucket_of o k.
Proof. intros Hne. unfold bucket_of, added. simpl. by rewrite dict_get_set_ne. Qed.

Lemma buckets_valid_added o v : buckets_valid o -> buckets_valid (added o v).
Proof.
  intros Hv. unfold buckets_valid. rewrite added_verts, length_app. simpl.
  apply Forall_forall. intros [k l] Hin.
  apply dict_set_elem in Hin as [[= -> ->]|Hin]; simpl.
  - apply Forall_app. split.
    + eapply Forall_impl; [by apply buckets_valid_bucket_of|]. simpl. lia.
    + apply Forall_singleton. lia.
  - eapply Forall_impl; [apply (proj1 (Forall_forall _ _) Hv (k, l) Hin)|].
    simpl. lia.
Qed.

Lemma buckets_cover_added o v : buckets_cover o -> buckets_cover (added o v).
Proof.
  intros Hc i. rewrite added_verts, length_app. simpl. intros Hi.
  destruct (decide (i = length (verts o))) as [->|Hne].
  - exists (voxel_of (voxel_size o) v.1.1). rewrite bucket_of_added_eq.
    apply elem_of_app. right. by apply list_elem_of_singleton.
  - destruct (Hc i) as [k Hk]; [lia|]. exists k.
    destruct (decide (k = voxel_of (voxel_size o) v.1.1)) as [->|Hk'].
    + rewrite bucket_of_added_eq. apply elem_of_app. by left.
    + by rewrite bucket_of_added_ne.
Qed.

Lemma foldl_added_verts o l : verts (foldl added o l) = verts o ++ l.
Proof.
  revert o. induction l as [|v l IH]; intros o; simpl.
  - by rewrite app_nil_r.
  - by rewrite IH, added_verts, <- app_assoc.
Qed.

Lemma foldl_added_voxel_size o l : voxel_size (foldl added o l) = voxel_size o.
Proof. revert o. induction l as [|v l IH]; intros o; simpl; [done|]. by rewrite IH. Qed.

Lemma built_verts vsz l : verts (built (Sig := Sig) vsz l) = l.
Proof. unfold built. by rewrite foldl_added_verts. Qed.

Lemma built_voxel_size vsz l : voxel_size (built (Sig := Sig) vsz l) = vsz.
Proof. unfold built. by rewrite foldl_added_voxel_size. Qed.

(** The invariants of an index made by [add] calls. *)
Lemma built_buckets_valid vsz l : buckets_valid (built (Sig := Sig) vsz l).
Proof.
  unfold built.
  assert (forall o, buckets_valid o -> buckets_valid (foldl added o l)) as Hgen.
  { induction l as [|v l IH]; intros o Hv; simpl; [done|].
    by apply IH, buckets_valid_added. }
  apply Hgen. by apply Forall_nil.
Qed.

Lemma built_buckets_cover vsz l : buckets_cover (built (Sig := Sig) vsz l).
Proof.
  unfold built.
  assert (forall o, buckets_cover o -> buckets_cover (foldl added o l)) as Hgen.
  { induction l as [|v l IH]; intros o Hv; simpl; [done|].
    by apply IH, buckets_cover_added. }
  apply Hgen. intros i Hi. simpl in Hi. lia.
Qed.

(** A sequence of [add] calls on the object at [r]. *)
Lemma mapM_add_spec w r o (l : list (FusedVert Sig)) :
  heap w !! r = Some o ->
  Qeq_bool (voxel_size o) 0 = false ->
  exists us,
    mapM (fun '(exact_pos, norm, rounded_bw) => add r exact_pos norm rounded_bw) l w
    = (Ok us, with_obj w r (foldl added o l)).
Proof.
  revert w o. induction l as [|[[p n] sg] l IH]; intros w o Hr Hvs; simpl.
  - exists []. by rewrite with_obj_id.
  - destruct (IH (with_obj w r (added o (p, n, sg))) (added o (p, n, sg)))
      as [us Hus]; [by eapply with_obj_lookup | done |].
    exists (tt :: us).
    erewrite bind_Ok by (by apply add_spec).
    erewrite bind_Ok by apply Hus.
    by rewrite with_obj_with_obj.
Qed.

Lemma init_spec vsz w :
  init (Sig := Sig) vsz w =
  (Ok (length (heap w)),
   {| heap := heap w ++ [built vsz []]; log := log w |}).
Proof. done. Qed.

(** An index under construction is the value [built]. *)
Lemma build_spec vsz (l : list (FusedVert Sig)) w :
  ~ (vsz == 0)%Q ->
  build vsz l w = (Ok (length (heap w)), allocated w (built vsz l)).
Proof.
  intros Hvs. unfold build.
  erewrite bind_Ok by apply init_spec.
  set (w1 := {| heap := heap w ++ [built vsz []]; log := log w |}).
  destruct (mapM_add_spec w1 (length (heap w)) (built vsz []) l) as [us Hus].
  { simpl. by rewrite lookup_app_r, Nat.sub_diag. }
  { simpl. destruct (Qeq_bool vsz 0) eqn:Hq; [|done]. by apply Qeq_bool_iff in Hq. }
  erewrite bind_Ok by apply Hus.
  unfold ret, with_obj, allocated, built. simpl.
  rewrite insert_app_r_alt by done. by rewrite Nat.sub_diag.
Qed.

Lemma allocated_lookup_new w o : heap (allocated w o) !! length (heap w) = Some o.
Proof. simpl. by rewrite lookup_app_r, Nat.sub_diag. Qed.

Lemma allocated_lookup_old w o r o' :
  heap w !! r = Some o' -> heap (allocated w o) !! r = Some o'.
Proof. intros Hr. simpl. by apply lookup_app_l_Some. Qed.

End Built.
End FusedBuilt.

Module FusedSelf.
Import Fused FusedProps FusedBuilt.

Section Self.
Context {Sig : Type} `{EqDecision Sig}.
Implicit Types w : World Sig.
Implicit Types o s : FusedVertVoxelSet Sig.
Implicit Types v : FusedVert Sig.
Implicit Types acc : Acc (Sig := Sig).

Lemma keys_distinct_added o v : keys_distinct o -> keys_distinct (added o v).
Proof. unfold keys_distinct, added. simpl. apply dict_set_NoDup. Qed.

Lemma built_keys_distinct vsz l : keys_distinct (built (Sig := Sig) vsz l).
Proof.
  unfold built.
  assert (forall o, keys_distinct o -> keys_distinct (foldl added o l)) as Hgen.
  { induction l as [|v l IH]; intros o Hv; simpl; [done|].
    by apply IH, keys_distinct_added. }
  apply Hgen. apply NoDup_nil_2.
Qed.

Lemma elem_of_space o keys i v :
  (i, v) ∈ space o keys <->
  exists k, k ∈ keys /\ i ∈ bucket_of o k /\ verts o !! i = Some v.
Proof.
  unfold space. rewrite list_elem_of_In, in_flat_map. split.
  - intros (k & Hk & Hin). exists k. apply list_elem_of_In in Hk, Hin.
    apply list_elem_of_omap in Hin as (j & Hj & Hv).
    destruct (verts o !! j) as [v'|] eqn:Hl; simplify_eq/=. done.
  - intros (k & Hk & Hi & Hv). exists k. split; [by apply list_elem_of_In|].
    apply list_elem_of_In, list_elem_of_omap. exists i. by rewrite Hv.
Qed.

(** The scanned block contains the voxel itself (offset 0 on each axis). *)
Lemma neighbourhood_self (k : Voxel) : k ∈ neighbourhood k.
Proof.
  destruct k as [[x y] z]. apply (list_elem_of_lookup_2 _ 21). reflexivity.
Qed.

Lemma length_squared_diff_self (p : Vec3) (eps : Q) :
  (0 < eps)%Q -> Qltb (length_squared_diff p p) (eps * eps) = true.
Proof.
  intros Heps. apply Qltb_lt. unfold length_squared_diff.
  assert ((vx p - vx p) * (vx p - vx p) + (vy p - vy p) * (vy p - vy p)
          + (vz p - vz p) * (vz p - vz p) == 0)%Q as -> by ring.
  nra.
Qed.

Lemma elem_of_potential_verts (sp : list (nat * FusedVert Sig)) i p n sg eps :
  (0 < eps)%Q ->
  (i, (p, n, sg)) ∈ sp ->
  (i, rounded_norm n, p) ∈ potential_verts sp p sg (eps * eps).
Proof.
  intros Heps Hin. unfold potential_verts.
  apply list_elem_of_In, in_flat_map. exists (i, (p, n, sg)).
  split; [by apply list_elem_of_In|].
  rewrite bool_decide_eq_true_2 by done.
  rewrite length_squared_diff_self by done. simpl. by left.
Qed.

(** A step for a vertex that occurs in the search space, when both search
    spaces are the same: nothing is reported and the vertex is counted. *)
Lemma classify_same (sp : list (nat * FusedVert Sig)) eps acc i v :
  (0 < eps)%Q ->
  (i, v) ∈ sp ->
  let acc' := classify sp sp (eps * eps) acc v in
  has_no_equiv_in_other acc' = has_no_equiv_in_other acc /\
  was_unfused_in_other acc' = was_unfused_in_other acc /\
  counted_other_verts acc ⊆ counted_other_verts acc' /\
  i ∈ counted_other_verts acc'.
Proof.
  intros Heps Hin. destruct v as [[p n] sg]. simpl.
  pose proof (elem_of_potential_verts sp i p n sg eps Heps Hin) as Hpot.
  destruct (potential_verts sp p sg (eps * eps)) as [|c cs] eqn:Hp.
  { by apply not_elem_of_nil in Hpot. }
  assert (i ∈ (list_to_set (map (fun c => c.1.1) (c :: cs)) : gset nat)) as Hi.
  { apply elem_of_list_to_set, list_elem_of_fmap. by exists (i, rounded_norm n, p). }
  cbn [length Nat.eqb]. rewrite Nat.ltb_irrefl. simpl.
  split; [done|]. split; [done|]. split; set_solver.
Qed.

Lemma omap_cons_Some {A B} (f : A -> option B) x l y :
  f x = Some y -> omap f (x :: l) = y :: omap f l.
Proof. intros Hf. simpl. by rewrite Hf. Qed.

Lemma scan_cons s o eps2 k vs (items : list (Voxel * list nat)) acc :
  scan s o eps2 ((k, vs) :: items) acc =
  scan s o eps2 items
    (foldl (classify (space o (neighbourhood k)) (space s (neighbourhood k)) eps2)
           acc (omap (fun i => verts s !! i) vs)).
Proof. done. Qed.

Lemma bucket_same (sp : list (nat * FusedVert Sig)) (vs : list (FusedVert Sig))
    eps acc (idx : list nat) :
  (0 < eps)%Q ->
  (forall i, i ∈ idx -> exists v, vs !! i = Some v /\ (i, v) ∈ sp) ->
  let acc' := foldl (classify sp sp (eps * eps)) acc (omap (fun i => vs !! i) idx) in
  has_no_equiv_in_other acc' = has_no_equiv_in_other acc /\
  was_unfused_in_other acc' = was_unfused_in_other acc /\
  counted_other_verts acc ⊆ counted_other_verts acc' /\
  forall i, i ∈ idx -> i ∈ counted_other_verts acc'.
Proof.
  intros Heps. revert acc. induction idx as [|i idx IH]; intros acc Hall.
  { repeat split; try done. intros i Hi. by apply not_elem_of_nil in Hi. }
  destruct (Hall i) as (v & Hv & Hin); [left|].
  rewrite (omap_cons_Some (fun i => vs !! i) i idx v Hv). cbn [foldl].
  destruct (classify_same sp eps acc i v Heps Hin) as (H1 & H2 & H3 & H4).
  destruct (IH (classify sp sp (eps * eps) acc v)) as (I1 & I2 & I3 & I4).
  { intros j Hj. apply Hall. by right. }
  cbv zeta in *. rewrite I1, I2, H1, H2. repeat split; try done.
  - set_solver.
  - intros j Hj. apply elem_of_cons in Hj as [->|Hj]; [set_solver | by apply I4].
Qed.

(** The whole scan of an index against an index with the same buckets. *)
Lemma scan_same s o eps (items : list (Voxel * list nat)) acc :
  (0 < eps)%Q ->
  same_buckets s o ->
  buckets_valid s ->
  keys_distinct s ->
  items ⊆ voxels s ->
  let acc' := scan s o (eps * eps) items acc in
  has_no_equiv_in_other acc' = has_no_equiv_in_other acc /\
  was_unfused_in_other acc' = was_unfused_in_other acc /\
  counted_other_verts acc ⊆ counted_other_verts acc' /\
  forall k l i, (k, l) ∈ items -> i ∈ l -> i ∈ counted_other_verts acc'.
Proof.
  intros Heps Hsame Hv Hnd. revert acc.
  induction items as [|[k l] items IH]; intros acc Hsub.
  { repeat split; try done. intros k l i Hi. by apply not_elem_of_nil in Hi. }
  rewrite scan_cons, (space_same_buckets _ _ _ Hsame).
  assert ((k, l) ∈ voxels s) as Hkl by (apply Hsub; left).
  assert (bucket_of s k = l) as Hbk.
  { unfold bucket_of. by rewrite (dict_elem_get_NoDup _ _ _ Hnd Hkl). }
  destruct (bucket_same (space s (neighbourhood k)) (verts s) eps acc l Heps)
    as (H1 & H2 & H3 & H4).
  { intros i Hi.
    assert (i < length (verts s))%nat as Hlt.
    { by apply (proj1 (Forall_forall _ _)
                  (proj1 (Forall_forall _ _) Hv (k, l) Hkl) i). }
    apply lookup_lt_is_Some in Hlt as [v Hvi]. exists v. split; [done|].
    apply elem_of_space. exists k. rewrite Hbk.
    split; [apply neighbourhood_self | done]. }
  set (acc1 := foldl _ acc _) in *.
  destruct (IH acc1) as (I1 & I2 & I3 & I4).
  { intros x Hx. apply Hsub. by right. }
  cbv zeta in *. rewrite I1, I2, H1, H2. repeat split; try done.
  - set_solver.
  - intros k' l' i Hin Hi. apply elem_of_cons in Hin as [[= -> ->]|Hin].
    + apply I3. by apply H4.
    + by eapply I4.
Qed.

(** An index compared with an index that has the same buckets. *)
Lemma one_to_one_same s o eps :
  (0 < eps)%Q ->
  same_buckets s o ->
  buckets_valid s ->
  keys_distinct s ->
  buckets_cover s ->
  one_to_one s o eps = ([], [], []).
Proof.
  intros Heps Hsame Hv Hnd Hc. unfold one_to_one.
  destruct (scan_same s o eps (voxels s)
              {| has_no_equiv_in_other := []; was_unfused_in_other := [];
                 counted_other_verts := ∅ |} Heps Hsame Hv Hnd)
    as (H1 & H2 & _ & H4); [done|].
  simpl in *. rewrite H1, H2. f_equal.
  destruct Hsame as (Hverts & _ & _). rewrite Hverts.
  rewrite (proj2 (filter_none _ _)); [done|].
  intros i Hi%elem_of_seq Hni. apply Hni.
  destruct (Hc i) as [k Hk]; [lia|].
  unfold bucket_of in Hk. destruct (dict_get (voxels s) k) as [l|] eqn:Hg; simpl in Hk.
  - apply (H4 k l i); [by apply dict_get_Some_elem | done].
  - by apply not_elem_of_nil in Hk.
Qed.

End Self.
End FusedSelf.

Module FusedRaise.
Import Fused FusedProps.

Section NoAssertion.
Context {Sig : Type} `{EqDecision Sig}.
Implicit Types w : World Sig.















End NoAssertion.
End FusedRaise.

Module FusedClaims.
Import Fused FusedProps FusedBuilt FusedSelf FusedRaise.

Section Claims.
Context {Sig : Type} `{EqDecision Sig}.
Implicit Types w : World Sig.
Implicit Types o s : FusedVertVoxelSet Sig.

Lemma Qeq_bool_false (x y : Q) : ~ (x == y)%Q -> Qeq_bool x y = false.
Proof.
  intros Hne. destruct (Qeq_bool x y) eqn:Heq; [|done].
  by apply Qeq_bool_iff in Heq.
Qed.


Lemma voxel_of_nonneg (vsz : Q) (p : Vec3) :
  (0 <= vx p / vsz)%Q -> (0 <= vy p / vsz)%Q -> (0 <= vz p / vsz)%Q ->
  voxel_of vsz p = floor_voxel_of vsz p.
Proof.
  intros Hx Hy Hz. unfold voxel_of, floor_voxel_of.
  by rewrite !py_int_nonneg_floor.
Qed.

(** C5, amended: [add] records the new vertex index under the key obtained
    by truncating [pos / voxel_size] towards zero on each axis ([int(..)]),
    and no other bucket changes.  On each axis the component of the key is
    the floor of the quotient when the quotient is not negative or is a whole
    number, and the floor plus one when the quotient is negative and not a
    whole number. *)
Theorem add_records_under_truncated_key w r o pos norm sig :
  heap w !! r = Some o ->
  ~ (voxel_size o == 0)%Q ->
  exists o',
    add r pos norm sig w = (Ok tt, with_obj w r o') /\
    verts o' = verts o ++ [(pos, norm, sig)] /\
    bucket_of o' (voxel_of (voxel_size o) pos)
      = bucket_of o (voxel_of (voxel_size o) pos) ++ [length (verts o)] /\
    (forall k, k <> voxel_of (voxel_size o) pos -> bucket_of o' k = bucket_of o k) /\
    Forall (fun cq : Z * Q =>
              cq.1 = py_int cq.2 /\
              ((0 <= cq.2)%Q -> cq.1 = py_floor cq.2) /\
              ((inject_Z (py_floor cq.2) == cq.2)%Q -> cq.1 = py_floor cq.2) /\
              ((cq.2 < 0)%Q -> ~ (inject_Z (py_floor cq.2) == cq.2)%Q ->
               cq.1 = py_floor cq.2 + 1))
           [((voxel_of (voxel_size o) pos).1.1, (vx pos / voxel_size o)%Q);
            ((voxel_of (voxel_size o) pos).1.2, (vy pos / voxel_size o)%Q);
            ((voxel_of (voxel_size o) pos).2, (vz pos / voxel_size o)%Q)].
Proof.
  intros Hr Hvs. exists (added o (pos, norm, sig)).
  split; [by apply add_spec, Qeq_bool_false|].
  split; [done|].
  split; [apply (bucket_of_added_eq o (pos, norm, sig))|].
  split; [intros k Hk; by apply (bucket_of_added_ne o (pos, norm, sig))|].
  assert (forall q, py_int q = py_int q /\
                    ((0 <= q)%Q -> py_int q = py_floor q) /\
                    ((inject_Z (py_floor q) == q)%Q -> py_int q = py_floor q) /\
                    ((q < 0)%Q -> ~ (inject_Z (py_floor q) == q)%Q ->
                     py_int q = py_floor q + 1)) as Hq.
  { intros q. split; [done|]. split; [apply py_int_nonneg_floor|].
    split; [apply py_int_whole_floor | apply py_int_neg_floor]. }
  unfold voxel_of. cbn [fst snd]. repeat constructor; apply Hq.
Qed.

(** An index and a separately built copy: for [0 < pos_epsilon < voxel_size],
    building an index by [add] calls, building a second index by the same
    calls, and comparing the first with the second returns three empty
    lists. *)
Lemma check_one_to_one_equal_copy w vsz (l : list (FusedVert Sig)) pos_epsilon :
  (0 < pos_epsilon)%Q ->
  (pos_epsilon < vsz)%Q ->
  exists w',
    (s ← build vsz l; o ← build vsz l; check_one_to_one s o pos_epsilon) w
    = (Ok ([], [], []), w').
Proof.
  intros Hpos Hlt.
  assert (~ (vsz == 0)%Q) as Hvs by (intros Hq; rewrite Hq in Hlt; lra).
  eexists.
  erewrite bind_Ok by (by apply build_spec).
  erewrite bind_Ok.
  2:{ rewrite build_spec by done. simpl. rewrite length_app. simpl. reflexivity. }
  rewrite (check_one_to_one_spec _ _ _ (built vsz l) (built vsz l)).
  - rewrite one_to_one_same; [done | done | done | | | ].
    + apply built_buckets_valid.
    + apply built_keys_distinct.
    + apply built_buckets_cover.
  - lia.
  - by apply allocated_lookup_old, allocated_lookup_new.
  - replace (length (heap w) + 1)%nat with (length (heap (allocated w (built vsz l)))).
    + apply allocated_lookup_new.
    + simpl. by rewrite length_app.
  - apply built_buckets_valid.
  - apply built_buckets_valid.
  - by apply Qeq_bool_iff.
  - rewrite built_voxel_size. by apply Qltb_lt.
Qed.


End Claims.

(** *** Concrete indexes *)

(** C5, counterexample: with the default voxel size, the vertex at
    x = -0.00005 is recorded under the voxel (0, 0, 0), whereas the floor of
    x / voxel_size = -0.5 is -1. *)
Lemma add_negative_coordinate_not_floor :
  (r ← init default_voxel_size; add r below_origin None tt)
    {| heap := []; log := [] |}
  = (Ok tt,
     {| heap := [{| voxels := [((0, 0, 0), [0%nat])];
                    voxel_size := default_voxel_size;
                    verts := [(below_origin, None, tt)] |}];
        log := [] |})
  /\ floor_voxel_of default_voxel_size below_origin = (-1, 0, 0).
Proof. split; reflexivity. Qed.

(** The theorem of C5 at the empty index and the vertex at x = -0.00005,
    whose quotient on the first axis is negative and not whole. *)
Lemma add_records_under_truncated_key_witness :
  exists o',
    add 0%nat below_origin None tt {| heap := [no_vertex]; log := [] |}
      = (Ok tt, with_obj {| heap := [no_vertex]; log := [] |} 0%nat o') /\
    verts o' = verts no_vertex ++ [(below_origin, None, tt)] /\
    bucket_of o' (voxel_of (voxel_size no_vertex) below_origin)
      = bucket_of no_vertex (voxel_of (voxel_size no_vertex) below_origin)
        ++ [length (verts no_vertex)] /\
    (forall k, k <> voxel_of (voxel_size no_vertex) below_origin ->
               bucket_of o' k = bucket_of no_vertex k) /\
    Forall (fun cq : Z * Q =>
              cq.1 = py_int cq.2 /\
              ((0 <= cq.2)%Q -> cq.1 = py_floor cq.2) /\
              ((inject_Z (py_floor cq.2) == cq.2)%Q -> cq.1 = py_floor cq.2) /\
              ((cq.2 < 0)%Q -> ~ (inject_Z (py_floor cq.2) == cq.2)%Q ->
               cq.1 = py_floor cq.2 + 1))
           [((voxel_of (voxel_size no_vertex) below_origin).1.1,
             (vx below_origin / voxel_size no_vertex)%Q);
            ((voxel_of (voxel_size no_vertex) below_origin).1.2,
             (vy below_origin / voxel_size no_vertex)%Q);
            ((voxel_of (voxel_size no_vertex) below_origin).2,
             (vz below_origin / voxel_size no_vertex)%Q)].
Proof.
  apply (add_records_under_truncated_key
           {| heap := [no_vertex]; log := [] |} 0%nat no_vertex below_origin None tt).
  - reflexivity.
  - intros Hq. vm_compute in Hq. discriminate Hq.
Defined.

(** C7, evaluation at the failing input: comparing the index of one vertex
    with the empty index leaves 64 new (empty) buckets in the voxel map of
    [other]; and comparing the index of one vertex with itself changes the
    size of the dictionary being iterated, which raises [RuntimeError]. *)
Theorem check_one_to_one_writes_other :
  (exists o',
     check_one_to_one 0%nat 1%nat default_pos_epsilon
       {| heap := [one_vertex; no_vertex]; log := [] |}
     = (Ok ([(origin, None, tt)], [], []),
        {| heap := [one_vertex; o']; log := [] |})
     /\ voxels no_vertex = []
     /\ length (voxels o') = 64%nat
     /\ verts o' = verts no_vertex)
  /\ (check_one_to_one 0%nat 0%nat default_pos_epsilon
        {| heap := [one_vertex]; log := [] |}).1 = Raise RuntimeError.
Proof.
  split.
  - eexists. split; [vm_compute; reflexivity|]. by vm_compute.
  - by vm_compute.
Qed.

End FusedClaims.

(** *** The same object on both sides *)

Module FusedAlias.
Import Fused FusedProps FusedBuilt FusedSelf FusedRaise.

Section Alias.
Context {Sig : Type} `{EqDecision Sig}.
Implicit Types w : World Sig.
Implicit Types o s : FusedVertVoxelSet Sig.

Lemma probed_present o k : dict_contains (voxels o) k = true -> probed o k = o.
Proof.
  unfold dict_contains, probed. by destruct (dict_get (voxels o) k).
Qed.

Lemma probed_missing_length o k :
  dict_contains (voxels o) k = false ->
  length (voxels (probed o k)) = S (length (voxels o)).
Proof.
  unfold dict_contains, probed. destruct (dict_get (voxels o) k) eqn:Hg; [done|].
  intros _. simpl. by rewrite dict_set_length, Hg.
Qed.

Lemma probed_length_le o k : (length (voxels o) <= length (voxels (probed o k)))%nat.
Proof.
  destruct (dict_contains (voxels o) k) eqn:Hc.
  - by rewrite probed_present.
  - rewrite probed_missing_length by done. lia.
Qed.

Lemma probed_all_length_le o keys :
  (length (voxels o) <= length (voxels (foldl probed o keys)))%nat.
Proof.
  revert o. induction keys as [|k keys IH]; intros o; simpl; [done|].
  etrans; [apply (probed_length_le o k) | apply IH].
Qed.

Lemma probed_all_present o keys :
  Forall (fun k => dict_contains (voxels o) k = true) keys -> foldl probed o keys = o.
Proof.
  induction 1 as [|k keys Hk _ IH]; simpl; [done|]. by rewrite probed_present.
Qed.

(** Probing a missing key makes the dictionary longer. *)
Lemma probed_all_missing o keys :
  ~ Forall (fun k => dict_contains (voxels o) k = true) keys ->
  (length (voxels o) < length (voxels (foldl probed o keys)))%nat.
Proof.
  revert o. induction keys as [|k keys IH]; intros o Hnot; simpl.
  - exfalso. by apply Hnot.
  - destruct (dict_contains (voxels o) k) eqn:Hc.
    + rewrite probed_present by done. apply IH. intros Hall. apply Hnot. by constructor.
    + eapply Nat.lt_le_trans; [|apply probed_all_length_le].
      rewrite probed_missing_length by done. lia.
Qed.

(** An iteration step on a dictionary whose size has changed. *)
Lemma for_voxels_size_changed w self other o eps2 n0 items acc :
  heap w !! self = Some o ->
  length (voxels o) <> n0 ->
  for_voxels self other eps2 n0 items acc w = (Raise RuntimeError, w).
Proof.
  intros Hr Hlen.
  assert ((length (voxels o) =? n0)%nat = false) as Hneq by (by apply Nat.eqb_neq).
  destruct items as [|[k vs] items]; cbn [for_voxels];
    erewrite bind_Ok by (by apply get_obj_Some); by rewrite Hneq.
Qed.

(** The loop when [other] is [self]: it runs to its end only if every
    probed key is already a key of the dictionary; the first probe of a
    missing key makes the next iteration step raise. *)
Lemma for_voxels_same_object w r s eps2 items acc :
  heap w !! r = Some s ->
  buckets_valid s ->
  items ⊆ voxels s ->
  ~ Forall (fun k => dict_contains (voxels s) k = true) (probes items) ->
  exists w', for_voxels r r eps2 (length (voxels s)) items acc w = (Raise RuntimeError, w').
Proof.
  intros Hr Hv. revert acc.
  induction items as [|[k vs] items IH]; intros acc Hsub Hnot.
  - exfalso. apply Hnot. constructor.
  - cbn [for_voxels]. erewrite bind_Ok by (by apply get_obj_Some).
    rewrite Nat.eqb_refl. cbn [negb].
    erewrite bind_Ok by (by apply other_search_space_spec).
    set (s' := foldl probed s (neighbourhood k)).
    assert (heap (with_obj w r s') !! r = Some s') as Hr' by (by eapply with_obj_lookup).
    assert (buckets_valid s') as Hv' by (by apply buckets_valid_probed_all).
    pose proof (same_buckets_probed_all s (neighbourhood k)) as (Hverts & _ & _).
    fold s' in Hverts.
    erewrite bind_Ok by (by apply self_search_space_spec).
    erewrite bind_Ok.
    2:{ apply for_self_verts_spec; [done|]. rewrite Hverts.
        apply (proj1 (Forall_forall _ _) Hv (k, vs)), Hsub. left. }
    destruct (decide (Forall (fun k' => dict_contains (voxels s) k' = true)
                             (neighbourhood k))) as [Hall|Hmiss].
    + assert (s' = s) as Hs' by (by apply probed_all_present).
      rewrite Hs', with_obj_id by done.
      apply IH.
      * intros x Hx. apply Hsub. by right.
      * intros Hrest. apply Hnot. rewrite probes_cons. by apply Forall_app.
    + eexists. apply (for_voxels_size_changed _ _ _ s'); [done|].
      pose proof (probed_all_missing s (neighbourhood k) Hmiss) as Hgrow.
      fold s' in Hgrow. lia.
Qed.

(** Some key of a non-empty dictionary has no right-hand neighbour in it. *)
Lemma rightmost_key (d : dict Voxel (list nat)) :
  d <> [] ->
  exists k v, (k, v) ∈ d /\ dict_contains d (k.1.1 + 1, k.1.2, k.2) = false.
Proof.
  intros Hne.
  assert (exists k v, (k, v) ∈ d /\ forall k' v', (k', v') ∈ d -> k'.1.1 <= k.1.1)
    as (k & v & Hin & Hmax).
  { induction d as [|[k0 v0] d IH]; [done|].
    destruct d as [|kv d].
    - exists k0, v0. split; [left|].
      intros k' v' Hin'%list_elem_of_singleton. by injection Hin' as -> _.
    - destruct IH as (k & v & Hin & Hmax); [done|].
      destruct (decide (k.1.1 <= k0.1.1)) as [Hle|Hgt].
      + exists k0, v0. split; [left|]. intros k' v' Hin'.
        apply elem_of_cons in Hin' as [[= -> _]|Hin']; [lia|].
        specialize (Hmax k' v' Hin'). lia.
      + exists k, v. split; [by right|]. intros k' v' Hin'.
        apply elem_of_cons in Hin' as [[= -> _]|Hin']; [lia|]. by apply (Hmax k' v'). }
  exists k, v. split; [done|].
  unfold dict_contains.
  destruct (dict_get d (k.1.1 + 1, k.1.2, k.2)) as [l|] eqn:Hg; [|done].
  apply dict_get_Some_elem, Hmax in Hg. simpl in Hg. lia.
Qed.

Lemma neighbourhood_right (k : Voxel) : (k.1.1 + 1, k.1.2, k.2) ∈ neighbourhood k.
Proof.
  destruct k as [[x y] z]. apply (list_elem_of_lookup_2 _ 37). reflexivity.
Qed.

Lemma probes_not_closed s :
  voxels s <> [] ->
  ~ Forall (fun k => dict_contains (voxels s) k = true) (probes (voxels s)).
Proof.
  intros Hne Hall. destruct (rightmost_key (voxels s) Hne) as (k & v & Hin & Hmiss).
  assert ((k.1.1 + 1, k.1.2, k.2) ∈ probes (voxels s)) as Hprobe.
  { unfold probes. apply list_elem_of_In, in_flat_map. exists (k, v).
    split; [by apply list_elem_of_In|]. apply list_elem_of_In, neighbourhood_right. }
  apply (proj1 (Forall_forall _ _) Hall) in Hprobe. congruence.
Qed.

Lemma built_voxels_nonempty vsz (l : list (FusedVert Sig)) :
  l <> [] -> voxels (built vsz l) <> [].
Proof.
  intros Hl Hnil. destruct (built_buckets_cover vsz l 0%nat) as [k Hk].
  { rewrite built_verts. destruct l; [done | simpl; lia]. }
  unfold bucket_of in Hk. rewrite Hnil in Hk. simpl in Hk.
  by apply not_elem_of_nil in Hk.
Qed.

(** An index compared with itself: for every non-empty index made by [add]
    calls, with a voxel size above [pos_epsilon], the call with the same
    object on both sides raises [RuntimeError], its reads of
    [other.voxels] having changed the size of the dictionary that is being
    iterated. *)
Lemma check_one_to_one_same_object w r vsz (l : list (FusedVert Sig)) pos_epsilon :
  heap w !! r = Some (built vsz l) ->
  l <> [] ->
  (pos_epsilon < vsz)%Q ->
  exists w', check_one_to_one r r pos_epsilon w = (Raise RuntimeError, w').
Proof.
  intros Hr Hl Hlt. unfold check_one_to_one.
  erewrite bind_Ok by (by apply get_obj_Some).
  erewrite bind_Ok by (by apply get_obj_Some).
  rewrite (proj2 (Qeq_bool_iff _ _)) by reflexivity.
  rewrite built_voxel_size, (proj2 (Qltb_lt _ _) Hlt). cbn [py_assert].
  erewrite bind_Ok by done. erewrite bind_Ok by done.
  destruct (for_voxels_same_object w r (built vsz l) (pos_epsilon * pos_epsilon)
              (voxels (built vsz l))
              {| has_no_equiv_in_other := []; was_unfused_in_other := [];
                 counted_other_verts := ∅ |} Hr) as [w' Hrun].
  - apply built_buckets_valid.
  - done.
  - by apply probes_not_closed, built_voxels_nonempty.
  - exists w'. by erewrite bind_Raise by apply Hrun.
Qed.

End Alias.
End FusedAlias.

(** *** The comparison of an index with itself, and the precondition *)

Module FusedSameObject.
Import Fused FusedProps FusedBuilt FusedSelf FusedRaise FusedClaims FusedAlias.

Section SameObject.
Context {Sig : Type} `{EqDecision Sig}.
Implicit Types w : World Sig.
Implicit Types o s : FusedVertVoxelSet Sig.

(** C6: an index compared with itself.  For every non-empty index [S] built
    by [add] calls with a voxel size above [pos_epsilon], however far apart
    its members lie, [S.check_one_to_one(S, pos_epsilon)] does not return
    three empty lists: it raises [RuntimeError], the reads of
    [other.voxels] having added keys to the dictionary that the loop
    iterates. *)
Theorem check_one_to_one_self_raises w vsz (l : list (FusedVert Sig)) pos_epsilon :
  l <> [] ->
  ~ (vsz == 0)%Q ->
  (pos_epsilon < vsz)%Q ->
  exists w',
    (s ← build vsz l; check_one_to_one s s pos_epsilon) w = (Raise RuntimeError, w').
Proof.
  intros Hl Hvs Hlt.
  erewrite bind_Ok by (by apply build_spec).
  apply (check_one_to_one_same_object _ _ vsz l); [apply allocated_lookup_new | done | done].
Qed.


End SameObject.

(** The theorem of C6 for the index of the one vertex [origin], with the
    default voxel size and tolerance. *)
Lemma check_one_to_one_self_raises_witness :
  exists w',
    (s ← build default_voxel_size [(origin, None, tt)];
     check_one_to_one s s default_pos_epsilon) {| heap := []; log := [] |}
    = (Raise RuntimeError, w').
Proof.
  apply (check_one_to_one_self_raises {| heap := []; log := [] |}
           default_voxel_size [(origin, None, tt)] default_pos_epsilon).
  - discriminate.
  - intros Hq. vm_compute in Hq. discriminate Hq.
  - reflexivity.
Defined.



End FusedSameObject.

(** ** Mesh Equivalence Driver *)

Module DriverProps.
Import FusedProps FusedBuilt FusedSelf FusedRaise.

Section Driver.
Context {Mesh AttrSet K Sig : Type}.
Context `{Countable K} `{EqDecision Sig} `{EqDecision AttrSet}.
Context `{!MeshData Mesh AttrSet K Sig}.
Implicit Types w : Fused.World Sig.
Implicit Types src dst ms : list Mesh.

Lemma report_spec (error : ErrorReporter) sev context msg w :
  report error sev context msg w
  = (reply error sev tt, reported w (mkEvent sev context msg)).
Proof. unfold report, reply, reported. by destruct (aborts error sev). Qed.

(** A report followed by [return b]. *)
Lemma report_then_ret {A} (error : ErrorReporter) sev context msg (b : A) w :
  (report error sev context msg ≫= fun _ => mret b) w
  = (reply error sev b, reported w (mkEvent sev context msg)).
Proof.
  unfold mbind, Fused.M_bind, Fused.bind. rewrite report_spec. unfold reply.
  by destruct (aborts error sev).
Qed.

Lemma find_fusion_output_vs_spec skinned ms w :
  find_fusion_output_vs skinned ms w
  = (Ok (length (Fused.heap w)),
     Fused.allocated w (Fused.built Fused.default_voxel_size (fusion_output_records skinned ms))).
Proof.
  unfold find_fusion_output_vs.
  erewrite bind_Ok by apply init_spec.
  set (w1 := {| Fused.heap := Fused.heap w ++ [Fused.built Fused.default_voxel_size []]; Fused.log := Fused.log w |}).
  destruct (mapM_add_spec w1 (length (Fused.heap w)) (Fused.built Fused.default_voxel_size [])
              (fusion_output_records skinned ms)) as [us Hus].
  { simpl. by rewrite lookup_app_r, Nat.sub_diag. }
  { reflexivity. }
  erewrite bind_Ok by apply Hus.
  unfold mret, Fused.M_ret, Fused.ret, Fused.with_obj, Fused.allocated, Fused.built. simpl.
  rewrite insert_app_r_alt by done. by rewrite Nat.sub_diag.
Qed.

(** The drivers' view of the fusion check: the two indexes it builds, the
    triple it gets, and the world in which it reports. *)
Lemma compare_fusions_run skinned src dst (error : ErrorReporter) context w :
  let s := Fused.built Fused.default_voxel_size (fusion_output_records skinned src) in
  let o := Fused.built Fused.default_voxel_size (fusion_output_records skinned dst) in
  let w2 := Fused.allocated (Fused.allocated w s) o in
  let w3 := Fused.with_obj w2 (S (length (Fused.heap w))) (foldl Fused.probed o (Fused.probes (Fused.voxels s))) in
  Fused.check_one_to_one (length (Fused.heap w)) (S (length (Fused.heap w))) Fused.default_pos_epsilon w2
    = (Ok (Fused.one_to_one s o Fused.default_pos_epsilon), w3) /\
  compare_same_layout_mesh_vertex_fusions skinned src dst error context w
    = (let '(a, b, c) := Fused.one_to_one s o Fused.default_pos_epsilon in
       if nonempty a || nonempty b || nonempty c
       then
         report error Fatal context
           (FusionsDontMatch (length (Fused.verts s)) (length (Fused.verts o))
              (length a) (length b) (length c));;
         mret false
       else
         (if negb (length (Fused.verts s) =? length (Fused.verts o))%nat
          then report error Recoverable context
                 (FusionCountsDontMatch (length (Fused.verts s)) (length (Fused.verts o)))
          else mret tt);;
         mret true) w3.
Proof.
  intros s o w2 w3.
  assert (Fused.heap w2 !! length (Fused.heap w) = Some s) as Hs.
  { unfold w2, Fused.allocated. simpl. rewrite <- app_assoc.
    by rewrite lookup_app_r, Nat.sub_diag. }
  assert (Fused.heap w2 !! S (length (Fused.heap w)) = Some o) as Ho.
  { unfold w2, Fused.allocated. simpl.
    rewrite lookup_app_r by (rewrite length_app; simpl; lia).
    rewrite length_app. simpl. by replace (_ - _)%nat with 0%nat by lia. }
  assert (Fused.check_one_to_one (length (Fused.heap w)) (S (length (Fused.heap w)))
            Fused.default_pos_epsilon w2
          = (Ok (Fused.one_to_one s o Fused.default_pos_epsilon), w3)) as Hcheck.
  { apply check_one_to_one_spec;
      [lia | done | done | apply built_buckets_valid | apply built_buckets_valid
      | unfold s, o; by rewrite !built_voxel_size
      | unfold s; by rewrite built_voxel_size]. }
  split; [done|].
  unfold compare_same_layout_mesh_vertex_fusions.
  erewrite bind_Ok by apply find_fusion_output_vs_spec.
  erewrite bind_Ok.
  2:{ apply len_spec. simpl. by rewrite lookup_app_r, Nat.sub_diag. }
  erewrite bind_Ok.
  2:{ rewrite find_fusion_output_vs_spec. simpl. rewrite length_app. simpl.
      replace (length (Fused.heap w) + 1)%nat with (S (length (Fused.heap w))) by lia.
      reflexivity. }
  fold s o. fold w2.
  erewrite bind_Ok by (by apply len_spec).
  erewrite bind_Ok by apply Hcheck.
  by destruct (Fused.one_to_one s o Fused.default_pos_epsilon) as [[a b] c].
Qed.

(** The outcome of the fusion check, by cases on the triple. *)
Lemma compare_fusions_outcome skinned src dst (error : ErrorReporter) context w :
  let s := Fused.built Fused.default_voxel_size (fusion_output_records skinned src) in
  let o := Fused.built Fused.default_voxel_size (fusion_output_records skinned dst) in
  exists a b c w3,
    Fused.check_one_to_one (length (Fused.heap w)) (S (length (Fused.heap w))) Fused.default_pos_epsilon
      (Fused.allocated (Fused.allocated w s) o) = (Ok (a, b, c), w3) /\
    Fused.log w3 = Fused.log w /\
    compare_same_layout_mesh_vertex_fusions skinned src dst error context w =
      if nonempty a || nonempty b || nonempty c then
        (reply error Fatal false,
         reported w3 (mkEvent Fatal context
                        (FusionsDontMatch (length (Fused.verts s)) (length (Fused.verts o))
                           (length a) (length b) (length c))))
      else if negb (length (Fused.verts s) =? length (Fused.verts o))%nat then
        (reply error Recoverable true,
         reported w3 (mkEvent Recoverable context
                        (FusionCountsDontMatch (length (Fused.verts s)) (length (Fused.verts o)))))
      else (Ok true, w3).
Proof.
  intros s o.
  destruct (compare_fusions_run skinned src dst error context w) as [Hcheck Hrun].
  fold s o in Hcheck, Hrun.
  destruct (Fused.one_to_one s o Fused.default_pos_epsilon) as [[a b] c].
  eexists a, b, c, _. split; [apply Hcheck|]. split; [done|].
  rewrite Hrun.
  destruct (nonempty a || nonempty b || nonempty c).
  - apply report_then_ret.
  - destruct (negb _).
    + apply report_then_ret.
    + done.
Qed.

(** The outcome of the vertex-set comparison, by cases on the differences. *)
Lemma compare_same_layout_meshes_run skinned src dst (error : ErrorReporter)
    context w :
  let src_vertices := get_unique_verts skinned src in
  let dst_vertices := get_unique_verts skinned dst in
  compare_same_layout_meshes skinned src dst error context w =
    if bool_decide (exact_difference src_vertices dst_vertices = ∅ /\
                    exact_difference dst_vertices src_vertices = ∅)
    then
      if bool_decide (difference src_vertices dst_vertices = ∅ /\
                      difference dst_vertices src_vertices = ∅)
      then (Ok true, w)
      else
        (reply error Recoverable false,
         reported w (mkEvent Recoverable context
                       (ApproxDataDiffers (len src_vertices) (len dst_vertices)
                          (size (difference src_vertices dst_vertices))
                          (size (difference dst_vertices src_vertices)))))
    else
      (reply error Fatal false,
       reported w (mkEvent Fatal context
                     (ExactDataDiffers (len src_vertices) (len dst_vertices)
                        (size (exact_difference src_vertices dst_vertices))
                        (size (exact_difference dst_vertices src_vertices))))).
Proof.
  intros sv dv. unfold compare_same_layout_meshes. fold sv dv.
  destruct (decide (exact_difference sv dv = ∅)) as [He1|He1];
    destruct (decide (exact_difference dv sv = ∅)) as [He2|He2].
  2-4: rewrite (bool_decide_eq_false_2 (_ /\ _)) by tauto.
  2-4: rewrite ?(bool_decide_eq_true_2 _ He1), ?(bool_decide_eq_true_2 _ He2),
         ?(bool_decide_eq_false_2 _ He1), ?(bool_decide_eq_false_2 _ He2);
       cbn [negb orb]; apply report_then_ret.
  rewrite (bool_decide_eq_true_2 (_ /\ _)) by done.
  rewrite (bool_decide_eq_true_2 _ He1), (bool_decide_eq_true_2 _ He2). cbn [negb orb].
  destruct (decide (difference sv dv = ∅)) as [Hd1|Hd1];
    destruct (decide (difference dv sv = ∅)) as [Hd2|Hd2].
  2-4: rewrite (bool_decide_eq_false_2 (_ /\ _)) by tauto.
  2-4: rewrite ?(bool_decide_eq_true_2 _ Hd1), ?(bool_decide_eq_true_2 _ Hd2),
         ?(bool_decide_eq_false_2 _ Hd1), ?(bool_decide_eq_false_2 _ Hd2);
       cbn [negb orb]; apply report_then_ret.
  rewrite (bool_decide_eq_true_2 (_ /\ _)) by done.
  by rewrite (bool_decide_eq_true_2 _ Hd1), (bool_decide_eq_true_2 _ Hd2).
Qed.

(** C3: [compare_same_layout_meshes] first takes the exact difference in
    both directions.  When either is not empty it reports one fatal error
    and returns [False] (unless the reporter raises), whatever the tolerant
    difference is.  Only when both are empty does the tolerant difference in
    both directions decide: a non-empty one is reported as recoverable, and
    [False] is returned; otherwise nothing is reported and [True] is
    returned. *)
Theorem compare_same_layout_meshes_reports skinned src dst (error : ErrorReporter)
    context w :
  let src_vertices := get_unique_verts skinned src in
  let dst_vertices := get_unique_verts skinned dst in
  (exact_difference src_vertices dst_vertices <> ∅ \/
   exact_difference dst_vertices src_vertices <> ∅ ->
   compare_same_layout_meshes skinned src dst error context w =
     (reply error Fatal false,
      reported w (mkEvent Fatal context
                    (ExactDataDiffers (len src_vertices) (len dst_vertices)
                       (size (exact_difference src_vertices dst_vertices))
                       (size (exact_difference dst_vertices src_vertices)))))) /\
  (exact_difference src_vertices dst_vertices = ∅ ->
   exact_difference dst_vertices src_vertices = ∅ ->
   (difference src_vertices dst_vertices <> ∅ \/
    difference dst_vertices src_vertices <> ∅ ->
    compare_same_layout_meshes skinned src dst error context w =
      (reply error Recoverable false,
       reported w (mkEvent Recoverable context
                     (ApproxDataDiffers (len src_vertices) (len dst_vertices)
                        (size (difference src_vertices dst_vertices))
                        (size (difference dst_vertices src_vertices)))))) /\
   (difference src_vertices dst_vertices = ∅ ->
    difference dst_vertices src_vertices = ∅ ->
    compare_same_layout_meshes skinned src dst error context w = (Ok true, w))).
Proof.
  intros sv dv.
  pose proof (compare_same_layout_meshes_run skinned src dst error context w) as Hrun.
  cbv zeta in Hrun. fold sv dv in Hrun. rewrite Hrun. clear Hrun.
  split; [|intros He1 He2; split].
  - intros Hex. rewrite bool_decide_eq_false_2; [done | tauto].
  - intros Hd. rewrite bool_decide_eq_true_2 by done.
    rewrite bool_decide_eq_false_2; [done | tauto].
  - intros Hd1 Hd2. by rewrite !bool_decide_eq_true_2.
Qed.

(** C4: [compare_same_layout_mesh_vertex_fusions] builds the two fused
    vertex sets [rs] and [rd] with [find_fusion_output_vs], of [n_src] and
    [n_dst] vertices, and runs [check_one_to_one] on them, which returns a
    triple [(a, b, c)] and reports nothing.  When one of the three lists is
    not empty, one fatal error is reported; when the three are empty and the
    two counts differ, one recoverable error is reported; and otherwise
    nothing is reported. *)
Theorem compare_fusions_reports skinned src dst (error : ErrorReporter) context w :
  exists rs rd w2 n_src n_dst a b c w3,
    (rs ← find_fusion_output_vs skinned src;
     rd ← find_fusion_output_vs skinned dst;
     mret (rs, rd)) w = (Ok (rs, rd), w2) /\
    Fused.len rs w2 = (Ok n_src, w2) /\
    Fused.len rd w2 = (Ok n_dst, w2) /\
    Fused.check_one_to_one rs rd Fused.default_pos_epsilon w2 = (Ok (a, b, c), w3) /\
    Fused.log w3 = Fused.log w /\
    (a <> [] \/ b <> [] \/ c <> [] ->
     compare_same_layout_mesh_vertex_fusions skinned src dst error context w =
       (reply error Fatal false,
        reported w3 (mkEvent Fatal context
                       (FusionsDontMatch n_src n_dst
                          (length a) (length b) (length c))))) /\
    (a = [] -> b = [] -> c = [] ->
     (n_src <> n_dst ->
      compare_same_layout_mesh_vertex_fusions skinned src dst error context w =
        (reply error Recoverable true,
         reported w3 (mkEvent Recoverable context
                        (FusionCountsDontMatch n_src n_dst)))) /\
     (n_src = n_dst ->
      compare_same_layout_mesh_vertex_fusions skinned src dst error context w =
        (Ok true, w3))).
Proof.
  set (s := Fused.built Fused.default_voxel_size (fusion_output_records skinned src)).
  set (o := Fused.built Fused.default_voxel_size (fusion_output_records skinned dst)).
  destruct (compare_fusions_outcome skinned src dst error context w)
    as (a & b & c & w3 & Hcheck & Hlog & Hrun).
  fold s o in Hcheck, Hrun.
  exists (length (Fused.heap w)), (S (length (Fused.heap w))),
         (Fused.allocated (Fused.allocated w s) o),
         (length (Fused.verts s)), (length (Fused.verts o)), a, b, c, w3.
  split.
  { erewrite bind_Ok by apply find_fusion_output_vs_spec.
    erewrite bind_Ok by apply find_fusion_output_vs_spec.
    fold s o. simpl. rewrite length_app. simpl.
    by replace (length (Fused.heap w) + 1)%nat with (S (length (Fused.heap w))) by lia. }
  split.
  { apply len_spec. by apply allocated_lookup_old, allocated_lookup_new. }
  split.
  { apply len_spec.
    replace (S (length (Fused.heap w)))
      with (length (Fused.heap (Fused.allocated w s))).
    - apply allocated_lookup_new.
    - simpl. rewrite length_app. simpl. lia. }
  split; [done|]. split; [done|]. rewrite Hrun. clear Hrun. split.
  - intros Hne. destruct a, b, c; simpl; try done. naive_solver.
  - intros -> -> ->. simpl. split.
    + intros Hlen. by rewrite (proj2 (Nat.eqb_neq _ _) Hlen).
    + intros Hlen. by rewrite (proj2 (Nat.eqb_eq _ _) Hlen).
Qed.

End Driver.
End DriverProps.

(** ** What the drivers report *)

Module ReportProps.
Import FusedProps DriverProps.

Section Post.
Context {Sig : Type}.
Implicit Types w : Fused.World Sig.

Lemma post_ret {A} (a : A) (Q : res A -> list event -> Prop) :
  Q (Ok a) [] -> post (Sig := Sig) (mret a) Q.
Proof. intros HQ w r w' [= <- <-]. exists []. by rewrite app_nil_r. Qed.

Lemma post_weaken {A} (m : Fused.M Sig A) (Q Q' : res A -> list event -> Prop) :
  post m Q -> (forall r evs, Q r evs -> Q' r evs) -> post m Q'.
Proof.
  intros Hm HQ w r w' Hrun. destruct (Hm w r w' Hrun) as (evs & Hlog & Hq).
  exists evs. split; [done | by apply HQ].
Qed.

Lemma post_bind {A B} (m : Fused.M Sig A) (k : A -> Fused.M Sig B)
    (Q1 : res A -> list event -> Prop) (Q2 : A -> res B -> list event -> Prop)
    (Q : res B -> list event -> Prop) :
  post m Q1 ->
  (forall a, post (k a) (Q2 a)) ->
  (forall a evs1 r evs2, Q1 (Ok a) evs1 -> Q2 a r evs2 -> Q r (evs1 ++ evs2)) ->
  (forall e evs, Q1 (Raise e) evs -> Q (Raise e) evs) ->
  post (m ≫= k) Q.
Proof.
  intros Hm Hk Hok Hraise w r w' Hrun.
  apply bind_inv in Hrun as [(a & w1 & Hma & Hka)|(e & Hme & ->)].
  - destruct (Hm _ _ _ Hma) as (evs1 & Hlog1 & Hq1).
    destruct (Hk a _ _ _ Hka) as (evs2 & Hlog2 & Hq2).
    exists (evs1 ++ evs2). split; [by rewrite Hlog2, Hlog1, app_assoc | by eapply Hok].
  - destruct (Hm _ _ _ Hme) as (evs & Hlog & Hq). exists evs. split; [done | by apply Hraise].
Qed.

Lemma post_report (error : ErrorReporter) sev context msg
    (Q : res () -> list event -> Prop) :
  Q (reply error sev tt) [mkEvent sev context msg] ->
  post (Sig := Sig) (report error sev context msg) Q.
Proof.
  intros HQ w r w'. rewrite report_spec. intros [= <- <-]. by exists [mkEvent sev context msg].
Qed.

(** Composition of runs that stop only at an aborting reporter call. *)
Lemma stops_at_abort_app {B} (error : ErrorReporter) (r : res B) evs1 evs2 :
  stops_at_abort error r evs2 -> stops_at_abort error r (evs1 ++ evs2).
Proof.
  intros Hstop e He. destruct (Hstop e He) as (-> & evs' & ev & -> & Hab).
  split; [done|]. exists (evs1 ++ evs'), ev. by rewrite app_assoc.
Qed.

Lemma stops_at_abort_Ok {A} (error : ErrorReporter) (a : A) evs :
  stops_at_abort error (Ok a) evs.
Proof. intros e [=]. Qed.

Lemma stops_at_abort_reply {A} (error : ErrorReporter) sev (a : A) ev :
  ev_severity ev = sev -> stops_at_abort error (reply error sev a) [ev].
Proof.
  intros Hsev e. unfold reply. destruct (aborts error sev) eqn:Hab; intros [= <-].
  split; [done|]. exists [], ev. by rewrite Hsev.
Qed.

Lemma stops_at_abort_cast {A B} (error : ErrorReporter) e evs :
  stops_at_abort error (Raise e : res A) evs ->
  stops_at_abort error (Raise e : res B) evs.
Proof. intros Hstop e' [= <-]. by apply (Hstop e). Qed.

Lemma post_bind_stops {A B} (error : ErrorReporter) (m : Fused.M Sig A)
    (k : A -> Fused.M Sig B) :
  post m (stops_at_abort error) ->
  (forall a, post (k a) (stops_at_abort error)) ->
  post (m ≫= k) (stops_at_abort error).
Proof.
  intros Hm Hk. eapply post_bind; [apply Hm | apply Hk | |].
  - intros a evs1 r evs2 _ Hstop. by eapply stops_at_abort_app.
  - intros e evs. apply stops_at_abort_cast.
Qed.

(** With a reporter that raises only in [error.fatal], a run that stops has
    reported a fatal error. *)
Lemma stops_at_abort_fatal {A} (error : ErrorReporter) (r : res A) evs e :
  aborts error Recoverable = false ->
  aborts error Info = false ->
  stops_at_abort error r evs ->
  r = Raise e -> has_fatal evs.
Proof.
  intros Hrec Hinfo Hstop Hr. destruct (Hstop e Hr) as (_ & evs' & ev & -> & Hab).
  apply Exists_app. right. apply Exists_cons_hd. unfold is_fatal.
  destruct (ev_severity ev); congruence.
Qed.

End Post.
End ReportProps.

Module DriverReports.
Import FusedProps DriverProps ReportProps.

Section Driver.
Context {Mesh AttrSet K Sig : Type}.
Context `{Countable K} `{EqDecision Sig} `{EqDecision AttrSet}.
Context `{!MeshData Mesh AttrSet K Sig}.
Implicit Types w : Fused.World Sig.
Implicit Types src dst ms : list Mesh.

(** The three outcomes of [compare_same_layout_meshes]. *)
Lemma compare_same_layout_meshes_post skinned src dst (error : ErrorReporter) context :
  post (compare_same_layout_meshes skinned src dst error context)
    (fun r evs =>
       (r = Ok true /\ evs = []) \/
       (exists ev, evs = [ev] /\ r = reply error (ev_severity ev) false /\
                   mesh_mismatch ev = true /\ ev_severity ev <> Info)).
Proof.
  intros w r w'. rewrite compare_same_layout_meshes_run. cbv zeta.
  repeat case_bool_decide; intros [= <- <-].
  - exists []. split; [by rewrite app_nil_r | by left].
  - eexists [_]. split; [done|]. right. eexists. by repeat split.
  - eexists [_]. split; [done|]. right. eexists. by repeat split.
Qed.

(** The three outcomes of [compare_same_layout_mesh_vertex_fusions]. *)
Lemma compare_fusions_post skinned src dst (error : ErrorReporter) context :
  post (compare_same_layout_mesh_vertex_fusions skinned src dst error context)
    (fun r evs =>
       (r = Ok true /\ evs = []) \/
       (exists ev, evs = [ev] /\ r = reply error Fatal false /\
                   ev_severity ev = Fatal /\ mesh_mismatch ev = true) \/
       (exists ev n m, evs = [ev] /\ r = reply error Recoverable true /\
                       ev = mkEvent Recoverable context (FusionCountsDontMatch n m))).
Proof.
  intros w r w'.
  destruct (compare_fusions_outcome skinned src dst error context w)
    as (a & b & c & w3 & _ & Hlog & ->).
  destruct (nonempty a || nonempty b || nonempty c); [|destruct (negb _)];
    intros [= <- <-]; simpl; rewrite Hlog.
  - eexists [_]. split; [done|]. right. left. eexists. by repeat split.
  - eexists [_]. split; [done|]. right. right. eexists _, _, _. by repeat split.
  - exists []. split; [by rewrite app_nil_r | by left].
Qed.

End Driver.
End DriverReports.

(** ** Hierarchy Comparator *)

Module HierarchyProps.
Import FusedProps DriverProps ReportProps DriverReports.

Section Hierarchy.
Context {Mesh AttrSet K Sig : Type}.
Context `{Countable K} `{EqDecision Sig} `{EqDecision AttrSet}.
Context `{!MeshData Mesh AttrSet K Sig}.
Implicit Types w : Fused.World Sig.
Implicit Types src dst : GMDNode Mesh.
Implicit Types error : ErrorReporter.

(** *** Runs stop only at an aborting reporter call *)

Lemma report_stops error sev context msg :
  post (Sig := Sig) (report error sev context msg) (stops_at_abort error).
Proof. apply post_report. by apply stops_at_abort_reply. Qed.

Lemma ret_stops {A} error (a : A) :
  post (Sig := Sig) (mret a) (stops_at_abort error).
Proof. apply post_ret, stops_at_abort_Ok. Qed.

Lemma compare_same_layout_meshes_stops skinned ms1 ms2 error context :
  post (compare_same_layout_meshes skinned ms1 ms2 error context)
       (stops_at_abort error).
Proof.
  eapply post_weaken; [apply compare_same_layout_meshes_post|].
  intros r evs [[-> ->]|(ev & -> & -> & _)].
  - apply stops_at_abort_Ok.
  - by apply stops_at_abort_reply.
Qed.

Lemma compare_fusions_stops skinned ms1 ms2 error context :
  post (compare_same_layout_mesh_vertex_fusions skinned ms1 ms2 error context)
       (stops_at_abort error).
Proof.
  eapply post_weaken; [apply compare_fusions_post|].
  intros r evs [[-> ->]|[(ev & -> & -> & Hsev & _)|(ev & n & m & -> & -> & ->)]].
  - apply stops_at_abort_Ok.
  - by apply stops_at_abort_reply.
  - by apply stops_at_abort_reply.
Qed.

Lemma compare_field_stops {A} `{EqDecision A} src dst error context f
    (fld : GMDNode Mesh -> A) :
  post (Sig := Sig) (compare_field src dst error context f fld) (stops_at_abort error).
Proof.
  unfold compare_field. case_bool_decide; [apply report_stops | apply ret_stops].
Qed.

Lemma compare_vec_field_stops src dst error context f fld :
  post (Sig := Sig) (compare_vec_field src dst error context f fld) (stops_at_abort error).
Proof.
  unfold compare_vec_field. destruct (negb _); [|apply ret_stops].
  destruct (Qltb _ _); apply report_stops.
Qed.

Lemma compare_mat_field_stops src dst error context f fld :
  post (Sig := Sig) (compare_mat_field src dst error context f fld) (stops_at_abort error).
Proof.
  unfold compare_mat_field. destruct (negb _); [|apply ret_stops].
  destruct (Qltb _ _); apply report_stops.
Qed.

Lemma for_attr_sets_stops skinned src dst error context attrs identical :
  post (for_attr_sets skinned src dst error context attrs identical)
       (stops_at_abort error).
Proof.
  revert identical. induction attrs as [|attr attrs IH]; intros identical; simpl.
  - apply ret_stops.
  - apply post_bind_stops; [apply compare_same_layout_meshes_stops|].
    intros ok. apply IH.
Qed.

(** What [compare_single_node_pair] does after [compare_field("node_type")]. *)
Lemma node_pair_rest_stops (skinned vertices : bool) src dst error context :
  post (Sig := Sig)
    (compare_vec_field src dst error context "pos" pos;;
     compare_vec_field src dst error context "rot" rot;;
     compare_vec_field src dst error context "scale" scale;;
     compare_vec_field src dst error context "world_pos" world_pos;;
     compare_vec_field src dst error context "anim_axis" anim_axis;;
     compare_field src dst error context "flags" flags;;
     (if negb (is_skinned_object src)
      then compare_mat_field src dst error context "matrix" matrix
      else mret tt);;
     if bool_decide (node_type src = node_type dst) then
       if bool_decide (node_type src = MatrixTransform) then
         mret tt
       else
         let src_attrs : gset string :=
           list_to_set (map (fun m => attr_str (attribute_set m)) (mesh_list src)) in
         let dst_attrs : gset string :=
           list_to_set (map (fun m => attr_str (attribute_set m)) (mesh_list dst)) in
         let '(sorted_attrs_src, sorted_attrs_dst) :=
           sort_src_dest_lists (elements src_attrs) (elements dst_attrs) (fun x => x) in
         (if bool_decide (sorted_attrs_src ≠ sorted_attrs_dst)
          then report error Fatal context DifferentAttributeSets
          else mret tt);;
         if vertices then
           identical ← for_attr_sets skinned src dst error context
                         (unique_attr_sets (mesh_list src)) true;
           ok ← compare_same_layout_mesh_vertex_fusions skinned (mesh_list src)
                  (mesh_list dst) error context;
           let identical := if negb ok then false else identical in
           if identical
           then report error Info context FunctionallyIdentical
           else mret tt
         else mret tt
     else mret tt)
    (stops_at_abort error).
Proof.
  do 5 (apply post_bind_stops; [apply compare_vec_field_stops|]; intros _).
  apply post_bind_stops; [apply compare_field_stops|]. intros _.
  apply post_bind_stops.
  { destruct (negb _); [apply compare_mat_field_stops | apply ret_stops]. }
  intros _.
  case_bool_decide; [|apply ret_stops].
  case_bool_decide; [apply ret_stops|].
  unfold sort_src_dest_lists.
  apply post_bind_stops.
  { case_bool_decide; [apply report_stops | apply ret_stops]. }
  intros _. destruct vertices; [|apply ret_stops].
  apply post_bind_stops; [apply for_attr_sets_stops|]. intros identical.
  apply post_bind_stops; [apply compare_fusions_stops|]. intros ok.
  destruct (if negb ok then false else identical);
    [apply report_stops | apply ret_stops].
Qed.

Lemma compare_single_node_pair_stops skinned vertices src dst error context :
  post (compare_single_node_pair skinned vertices src dst error context)
       (stops_at_abort error).
Proof.
  unfold compare_single_node_pair.
  apply post_bind_stops; [apply compare_field_stops|]. intros _.
  apply node_pair_rest_stops.
Qed.

(** *** The recursion *)

(** Induction on node trees: a property of a node follows from the property
    of its children. *)
Lemma GMDNode_tree_ind (P : GMDNode Mesh -> Prop) :
  (forall n, Forall P (children n) -> P n) -> forall n, P n.
Proof.
  intros Hnode. fix IH 1. intros n. apply Hnode.
  destruct n as [nm nt p r s wp aa fl mx ch ml]. simpl.
  induction ch as [|c ch IHch]; constructor; [apply IH | apply IHch].
Qed.

Lemma recursive_compare_children_eq skinned vertices error n (dst : list (GMDNode Mesh))
    context :
  recursive_compare_children skinned vertices error n dst context
  = recursive_compare_node_lists skinned vertices (children n) dst error context.
Proof. by destruct n. Qed.

Lemma for_zip_stops self_call skinned vertices error context
    (src dst : list (GMDNode Mesh)) :
  Forall (fun n => forall d c, post (self_call n d c) (stops_at_abort error)) src ->
  post (for_zip self_call skinned vertices error context src dst)
       (stops_at_abort error).
Proof.
  intros Hall. revert dst. induction Hall as [|n src Hn _ IH]; intros dst.
  - simpl. apply ret_stops.
  - destruct dst as [|d dst]; simpl; [apply ret_stops|].
    apply post_bind_stops; [apply compare_single_node_pair_stops|]. intros _.
    apply post_bind_stops; [apply Hn|]. intros _. apply IH.
Qed.

Lemma recursive_compare_body_stops self_call skinned vertices error context
    (src dst : list (GMDNode Mesh)) :
  Forall (fun n => forall d c, post (self_call n d c) (stops_at_abort error)) src ->
  post (recursive_compare_body self_call skinned vertices src dst error context)
       (stops_at_abort error).
Proof.
  intros Hall. unfold recursive_compare_body.
  apply post_bind_stops.
  { case_bool_decide; [apply report_stops | apply ret_stops]. }
  intros _. apply post_bind_stops.
  { case_bool_decide; [apply report_stops | apply ret_stops]. }
  intros _. by apply for_zip_stops.
Qed.

Lemma recursive_compare_children_stops skinned vertices error n :
  forall (dst : list (GMDNode Mesh)) context,
    post (recursive_compare_children skinned vertices error n dst context)
         (stops_at_abort error).
Proof.
  induction n as [n IH] using GMDNode_tree_ind. intros dst context.
  rewrite recursive_compare_children_eq. unfold recursive_compare_node_lists.
  by apply recursive_compare_body_stops.
Qed.

(** The comparison raises only when a reporter call raises. *)
Lemma recursive_compare_node_lists_stops skinned vertices
    (src dst : list (GMDNode Mesh)) error context :
  post (recursive_compare_node_lists skinned vertices src dst error context)
       (stops_at_abort error).
Proof.
  apply recursive_compare_body_stops, Forall_forall.
  intros n _. apply recursive_compare_children_stops.
Qed.

(** *** The first report of a run *)

Lemma post_any {A} error (m : Fused.M Sig A) :
  post m (stops_at_abort error) -> post m (fun _ _ => True).
Proof. intros Hm. by eapply post_weaken. Qed.

(** A run that starts with a reporter call has that call as its first
    event. *)
Lemma post_report_first {B} error sev context msg (k : () -> Fused.M Sig B) :
  (forall u, post (k u) (fun _ _ => True)) ->
  post (report error sev context msg ≫= k)
       (fun _ evs => exists evs', evs = mkEvent sev context msg :: evs').
Proof.
  intros Hk.
  eapply (post_bind _ _ (fun _ evs => evs = [mkEvent sev context msg])
                        (fun _ _ _ => True)).
  - by apply post_report.
  - apply Hk.
  - intros _ evs1 r evs2 -> _. by exists evs2.
  - intros e evs ->. by exists [].
Qed.

(** A step that reports nothing leaves the property of the rest. *)
Lemma post_skip {B} (k : () -> Fused.M Sig B) (Q : res B -> list event -> Prop) :
  post (k tt) Q -> post (mret tt ≫= k) Q.
Proof. intros Hk w r w' Hrun. by apply (Hk w r w'). Qed.

Lemma compare_field_differs {A} `{EqDecision A} src dst error context f
    (fld : GMDNode Mesh -> A) :
  fld src <> fld dst ->
  compare_field (Sig := Sig) src dst error context f fld
  = report error Fatal context (FieldDiffers f).
Proof. intros Hne. unfold compare_field. by rewrite bool_decide_eq_true_2. Qed.

Lemma compare_single_node_pair_node_type skinned vertices src dst error context :
  node_type src <> node_type dst ->
  post (compare_single_node_pair skinned vertices src dst error context)
       (fun _ evs =>
          exists evs', evs = mkEvent Fatal context (FieldDiffers "node_type") :: evs').
Proof.
  intros Hne. unfold compare_single_node_pair.
  rewrite (compare_field_differs src dst error context "node_type" node_type Hne).
  apply post_report_first. intros [].
  apply (post_any error), node_pair_rest_stops.
Qed.

(** A run of the pairwise loop that returns has reported, for every pair of
    children whose node types differ, the fatal [node_type] mismatch. *)
Lemma for_zip_node_type self_call skinned vertices error context
    (src dst : list (GMDNode Mesh)) :
  (forall n d c, post (self_call n d c) (fun _ _ => True)) ->
  post (for_zip self_call skinned vertices error context src dst)
       (fun r evs =>
          forall u, r = Ok u ->
          forall i s d, src !! i = Some s -> dst !! i = Some d ->
            node_type s <> node_type d ->
            mkEvent Fatal (context ++ name s ++ " > ") (FieldDiffers "node_type") ∈ evs).
Proof.
  intros Hself. revert dst. induction src as [|n src IH]; intros dst.
  - apply post_ret. intros u _ i s d Hs. by rewrite lookup_nil in Hs.
  - destruct dst as [|d0 dst].
    { apply post_ret. intros u _ i s d _ Hd. by rewrite lookup_nil in Hd. }
    cbn [for_zip].
    eapply (post_bind _ _
              (fun _ evs =>
                 node_type n <> node_type d0 ->
                 mkEvent Fatal (context ++ name n ++ " > ") (FieldDiffers "node_type")
                   ∈ evs)
              (fun _ r evs =>
                 forall u, r = Ok u ->
                 forall i s d, src !! i = Some s -> dst !! i = Some d ->
                   node_type s <> node_type d ->
                   mkEvent Fatal (context ++ name s ++ " > ") (FieldDiffers "node_type")
                     ∈ evs)).
    + destruct (decide (node_type n = node_type d0)) as [Heq|Hne].
      * eapply post_weaken;
          [apply (post_any error), compare_single_node_pair_stops | done].
      * eapply post_weaken; [by apply compare_single_node_pair_node_type|].
        intros r evs [evs' ->] _. left.
    + intros _.
      eapply (post_bind _ _ (fun _ _ => True)
                (fun _ r evs =>
                   forall u, r = Ok u ->
                   forall i s d, src !! i = Some s -> dst !! i = Some d ->
                     node_type s <> node_type d ->
                     mkEvent Fatal (context ++ name s ++ " > ")
                       (FieldDiffers "node_type") ∈ evs)).
      * apply Hself.
      * intros _. apply IH.
      * intros _ evs1 r evs2 _ Hrest u Hu i s d Hs Hd Hne.
        apply elem_of_app. right. by eapply Hrest.
      * done.
    + intros _ evs1 r evs2 Hhead Hrest u Hu [|i] s d Hs Hd Hne; simpl in *.
      * injection Hs as <-. injection Hd as <-.
        apply elem_of_app. left. by apply Hhead.
      * apply elem_of_app. right. by eapply Hrest.
    + done.
Qed.

(** C9: [recursive_compare_node_lists] reports a fatal error
    (a) first of all, when some child name of [src] is not a child name of
        [dst];
    (b) first of all, when the two sets of child names are equal and the
        lists of names differ (another order);
    (c) for two children paired by position, with one name and different
        node types: the comparison of the pair starts by reporting the
        fatal mismatch of field [node_type]; and in the whole run, with a
        reporter that raises at most in [error.fatal], some fatal error is
        reported, and when the run reaches its end that fatal mismatch is
        among the reports. *)
Theorem recursive_compare_fatal skinned vertices (src dst : list (GMDNode Mesh))
    error context w :
  exists evs,
    Fused.log (recursive_compare_node_lists skinned vertices src dst error context w).2
      = Fused.log w ++ evs /\
    ((exists n, n ∈ map name src /\ n ∉ map name dst) ->
     exists evs', evs = mkEvent Fatal context DifferentChildSets :: evs') /\
    ((list_to_set (map name src) : gset string) = list_to_set (map name dst) ->
     map name src <> map name dst ->
     exists evs', evs = mkEvent Fatal context ChildrenDifferentOrder :: evs') /\
    (forall i s d, src !! i = Some s -> dst !! i = Some d ->
       name s = name d -> node_type s <> node_type d ->
       (forall w0, exists evs0,
          Fused.log (compare_single_node_pair skinned vertices s d error
                       (context ++ name s ++ " > ") w0).2
          = Fused.log w0
            ++ mkEvent Fatal (context ++ name s ++ " > ") (FieldDiffers "node_type")
               :: evs0) /\
       (aborts error Recoverable = false -> aborts error Info = false ->
        has_fatal evs /\
        (forall u,
           (recursive_compare_node_lists skinned vertices src dst error context w).1
             = Ok u ->
           mkEvent Fatal (context ++ name s ++ " > ") (FieldDiffers "node_type")
             ∈ evs))).
Proof.
  destruct (recursive_compare_node_lists skinned vertices src dst error context w)
    as [r w'] eqn:Hrun. simpl.
  pose proof (recursive_compare_node_lists_stops skinned vertices src dst error
                context w r w' Hrun) as (evs & Hlog & Hstops).
  exists evs. split; [done|].
  assert (forall Q,
            post (recursive_compare_node_lists skinned vertices src dst error context) Q
            -> Q r evs) as Huse.
  { intros Q HQ. destruct (HQ w r w' Hrun) as (evs0 & Hlog0 & Hq).
    rewrite Hlog in Hlog0. by apply app_inv_head in Hlog0 as <-. }
  assert (forall u : (),
            post (for_zip (recursive_compare_children skinned vertices error)
                    skinned vertices error context src dst) (fun _ _ => True))
    as Hzip.
  { intros _. apply (post_any error), for_zip_stops, Forall_forall.
    intros n _. apply recursive_compare_children_stops. }
  split; [|split].
  - intros (n & Hin & Hnin).
    apply (Huse (fun _ evs =>
             exists evs', evs = mkEvent Fatal context DifferentChildSets :: evs')).
    unfold recursive_compare_node_lists, recursive_compare_body. cbv zeta.
    rewrite (bool_decide_eq_true_2
               ((list_to_set (map name src) : gset string) ≠ list_to_set (map name dst))).
    2:{ intros Heq. apply Hnin. apply (elem_of_list_to_set (C := gset string)).
        rewrite <- Heq. by apply elem_of_list_to_set. }
    apply post_report_first. intros _.
    eapply (post_bind _ _ (fun _ _ => True) (fun _ _ _ => True));
      [|apply Hzip|done|done].
    case_bool_decide;
      [apply (post_any error), report_stops | apply (post_any error), ret_stops].
  - intros Hset Hlist.
    apply (Huse (fun _ evs =>
             exists evs', evs = mkEvent Fatal context ChildrenDifferentOrder :: evs')).
    unfold recursive_compare_node_lists, recursive_compare_body. cbv zeta.
    rewrite (bool_decide_eq_false_2
               ((list_to_set (map name src) : gset string) ≠ list_to_set (map name dst)))
      by (intros Hne; by apply Hne).
    apply post_skip.
    rewrite (bool_decide_eq_true_2 (map name src ≠ map name dst)) by done.
    apply post_report_first. apply Hzip.
  - intros i s d Hs Hd Hname Hne. split.
    { intros w0.
      destruct (compare_single_node_pair skinned vertices s d error
                  (context ++ name s ++ " > ") w0) as [r0 w0'] eqn:Hpair.
      destruct (compare_single_node_pair_node_type skinned vertices s d error
                  (context ++ name s ++ " > ") Hne w0 r0 w0' Hpair)
        as (evs1 & Hlog1 & evs0 & ->).
      by exists evs0. }
    intros Hrec Hinfo.
    assert (forall u, r = Ok u ->
              mkEvent Fatal (context ++ name s ++ " > ") (FieldDiffers "node_type") ∈ evs)
      as Hreach.
    { apply (Huse (fun r evs => forall u, r = Ok u ->
               mkEvent Fatal (context ++ name s ++ " > ") (FieldDiffers "node_type")
                 ∈ evs)).
      unfold recursive_compare_node_lists, recursive_compare_body. cbv zeta.
      eapply (post_bind _ _ (fun _ _ => True)
                (fun _ r evs => forall u, r = Ok u ->
                   mkEvent Fatal (context ++ name s ++ " > ")
                     (FieldDiffers "node_type") ∈ evs)).
      - case_bool_decide;
          [apply (post_any error), report_stops | apply (post_any error), ret_stops].
      - intros _.
        eapply (post_bind _ _ (fun _ _ => True)
                  (fun _ r evs => forall u, r = Ok u ->
                     mkEvent Fatal (context ++ name s ++ " > ")
                       (FieldDiffers "node_type") ∈ evs)).
        + case_bool_decide;
            [apply (post_any error), report_stops | apply (post_any error), ret_stops].
        + intros _. eapply post_weaken.
          * apply for_zip_node_type. intros n0 d0 c.
            apply (post_any error), recursive_compare_children_stops.
          * intros r0 evs0 Hall u0 Hu0. by eapply Hall.
        + intros _ evs1 r0 evs2 _ Hin u0 Hu0. apply elem_of_app. right. by eapply Hin.
        + done.
      - intros _ evs1 r0 evs2 _ Hin u0 Hu0. apply elem_of_app. right. by eapply Hin.
      - done. }
    split; [|done].
    destruct r as [u|e].
    + apply Exists_exists. eexists. split; [by apply (Hreach u)|done].
    + by eapply stops_at_abort_fatal.
Qed.

End Hierarchy.
End HierarchyProps.

(** ** The pass signal and the advisory note *)

Module SignalProps.
Import FusedProps DriverProps ReportProps DriverReports HierarchyProps.

Section Signal.
Context {Mesh AttrSet K Sig : Type}.
Context `{Countable K} `{EqDecision Sig} `{EqDecision AttrSet}.
Context `{!MeshData Mesh AttrSet K Sig}.
Implicit Types w : Fused.World Sig.
Implicit Types src dst : GMDNode Mesh.
Implicit Types error : ErrorReporter.

Lemma plain_no_note evs : Forall plain evs -> ~ Exists is_identical_note evs.
Proof.
  intros Hall Hex. apply Exists_exists in Hex as (ev & Hin & Hnote).
  by destruct (proj1 (Forall_forall _ _) Hall ev Hin).
Qed.

Lemma post_bind_plain {A B} (m : Fused.M Sig A) (k : A -> Fused.M Sig B) :
  post m (fun _ evs => Forall plain evs) ->
  (forall a, post (k a) (fun _ evs => note_means_no_mismatch evs)) ->
  post (m ≫= k) (fun _ evs => note_means_no_mismatch evs).
Proof.
  intros Hm Hk. eapply post_bind; [apply Hm | apply Hk | |].
  - intros a evs1 r evs2 Hplain Hnote Hex.
    apply Exists_app in Hex as [Hex|Hex]; [by apply plain_no_note in Hex|].
    apply Forall_app. split; [|by apply Hnote].
    eapply Forall_impl; [apply Hplain|]. by intros ev [].
  - intros e evs Hplain Hex. by apply plain_no_note in Hex.
Qed.

Lemma report_plain error sev context msg :
  mesh_mismatch (mkEvent sev context msg) = false ->
  msg <> FunctionallyIdentical ->
  post (Sig := Sig) (report error sev context msg) (fun _ evs => Forall plain evs).
Proof. intros Hm Hn. apply post_report. by repeat constructor. Qed.

Lemma ret_plain {A} (a : A) :
  post (Sig := Sig) (mret a) (fun _ evs => Forall plain evs).
Proof. by apply post_ret. Qed.

Lemma compare_field_plain {A} `{EqDecision A} src dst error context f
    (fld : GMDNode Mesh -> A) :
  post (Sig := Sig) (compare_field src dst error context f fld)
       (fun _ evs => Forall plain evs).
Proof.
  unfold compare_field. case_bool_decide; [by apply report_plain | apply ret_plain].
Qed.

Lemma compare_vec_field_plain src dst error context f fld :
  post (Sig := Sig) (compare_vec_field src dst error context f fld)
       (fun _ evs => Forall plain evs).
Proof.
  unfold compare_vec_field. destruct (negb _); [|apply ret_plain].
  destruct (Qltb _ _); by apply report_plain.
Qed.

Lemma compare_mat_field_plain src dst error context f fld :
  post (Sig := Sig) (compare_mat_field src dst error context f fld)
       (fun _ evs => Forall plain evs).
Proof.
  unfold compare_mat_field. destruct (negb _); [|apply ret_plain].
  destruct (Qltb _ _); by apply report_plain.
Qed.

Lemma mesh_mismatch_no_note ev : mesh_mismatch ev = true -> ~ is_identical_note ev.
Proof. unfold mesh_mismatch, is_identical_note. intros Hm Hn. by rewrite Hn in Hm. Qed.

(** The loop over the attribute sets returns [True] only when it started
    with [True] and no group comparison reported anything. *)
Lemma for_attr_sets_note skinned src dst error context attrs identical :
  post (for_attr_sets skinned src dst error context attrs identical)
       (fun r evs =>
          ~ Exists is_identical_note evs /\
          (r = Ok true -> identical = true /\ evs = [])).
Proof.
  revert identical. induction attrs as [|attr attrs IH]; intros identical; simpl.
  - apply post_ret. split; [by intros ?%Exists_nil | by intros [= ->]].
  - eapply post_bind; [apply compare_same_layout_meshes_post | intros ok; apply IH | |].
    + intros ok evs1 r evs2 Hmesh [Hnn Hres]. split.
      * intros Hex. apply Exists_app in Hex as [Hex|Hex]; [|done].
        destruct Hmesh as [[_ ->]|(ev & -> & _ & Hm & _)].
        -- by apply Exists_nil in Hex.
        -- apply Exists_cons in Hex as [Hex|Hex]; [|by apply Exists_nil in Hex].
           by apply mesh_mismatch_no_note in Hex.
      * intros Hr. destruct (Hres Hr) as [Hid ->].
        destruct Hmesh as [[[= ->] ->]|(ev & -> & Hrep & _)].
        -- done.
        -- unfold reply in Hrep. destruct (aborts error _); [done|].
           injection Hrep as ->. done.
    + intros e evs Hmesh. split; [|done].
      destruct Hmesh as [[[=] _]|(ev & -> & _ & Hm & _)].
      intros Hex. apply Exists_cons in Hex as [Hex|Hex]; [|by apply Exists_nil in Hex].
      by apply mesh_mismatch_no_note in Hex.
Qed.

Lemma compare_fusions_note skinned ms1 ms2 error context :
  post (compare_same_layout_mesh_vertex_fusions skinned ms1 ms2 error context)
       (fun r evs =>
          ~ Exists is_identical_note evs /\
          (r = Ok true -> Forall (fun ev => mesh_mismatch ev = false) evs)).
Proof.
  eapply post_weaken; [apply compare_fusions_post|].
  intros r evs [[-> ->]|[(ev & -> & Hrep & _ & Hm)|(ev & n & m & -> & Hrep & ->)]].
  - split; [by intros ?%Exists_nil | done].
  - split.
    + intros Hex. apply Exists_cons in Hex as [Hex|Hex]; [|by apply Exists_nil in Hex].
      by apply mesh_mismatch_no_note in Hex.
    + intros ->. unfold reply in Hrep. by destruct (aborts error Fatal).
  - split.
    + intros Hex. apply Exists_cons in Hex as [Hex|Hex]; [|by apply Exists_nil in Hex].
      done.
    + intros _. by repeat constructor.
Qed.

(** The vertex part of [compare_single_node_pair]. *)
Lemma vertices_part_note skinned src dst error context :
  post (identical ← for_attr_sets skinned src dst error context
                      (unique_attr_sets (mesh_list src)) true;
        ok ← compare_same_layout_mesh_vertex_fusions skinned (mesh_list src)
               (mesh_list dst) error context;
        let identical := if negb ok then false else identical in
        if identical
        then report error Info context FunctionallyIdentical
        else mret tt)
       (fun _ evs => note_means_no_mismatch evs).
Proof.
  eapply (post_bind _ _ _
            (fun identical _ evs =>
               (identical = true -> note_means_no_mismatch evs) /\
               (identical = false -> ~ Exists is_identical_note evs)));
    [apply for_attr_sets_note | | |].
  - intros identical.
    eapply (post_bind _ _ _
              (fun ok _ evs =>
                 (ok = true -> identical = true ->
                  Forall (fun ev => mesh_mismatch ev = false) evs) /\
                 (~ (ok = true /\ identical = true) -> evs = [])));
      [apply compare_fusions_note | | |].
    + intros ok. destruct ok, identical; simpl.
      * apply post_report. split; [|by intros []]. intros _ _. by repeat constructor.
      * apply post_ret. split; [done|]. by intros _.
      * apply post_ret. split; [done|]. by intros _.
      * apply post_ret. split; [done|]. by intros _.
    + intros ok evs1 r evs2 [Hnn Hok] [Hboth Hnone]. split.
      * intros -> Hex. destruct ok.
        -- apply Forall_app. split; [by apply Hok | by apply Hboth].
        -- rewrite Hnone in Hex by (by intros []). rewrite app_nil_r in Hex. done.
      * intros -> Hex. rewrite Hnone in Hex by (by intros []).
        rewrite app_nil_r in Hex. done.
    + intros e evs [Hnn _]. split; [by intros _ Hex | by intros _].
  - intros identical evs1 r evs2 [Hnn Hres] [Htrue Hfalse] Hex.
    apply Exists_app in Hex as [Hex|Hex]; [done|].
    destruct identical.
    + destruct (Hres eq_refl) as [_ ->]. simpl. by apply Htrue.
    + by apply Hfalse in Hex.
  - intros e evs [Hnn _] Hex. done.
Qed.

Lemma compare_single_node_pair_note skinned vertices src dst error context :
  post (compare_single_node_pair skinned vertices src dst error context)
       (fun _ evs => note_means_no_mismatch evs).
Proof.
  unfold compare_single_node_pair.
  apply post_bind_plain; [apply compare_field_plain|]. intros _.
  do 5 (apply post_bind_plain; [apply compare_vec_field_plain|]; intros _).
  apply post_bind_plain; [apply compare_field_plain|]. intros _.
  apply post_bind_plain.
  { destruct (negb _); [apply compare_mat_field_plain | apply ret_plain]. }
  intros _.
  assert (forall u : (), post (Sig := Sig) (mret u)
                           (fun _ evs => note_means_no_mismatch evs)) as Hret.
  { intros u. apply post_ret. by intros ?%Exists_nil. }
  case_bool_decide; [|apply Hret].
  case_bool_decide; [apply Hret|].
  unfold sort_src_dest_lists.
  apply post_bind_plain.
  { case_bool_decide; [by apply report_plain | apply ret_plain]. }
  intros _. destruct vertices; [|apply Hret].
  apply vertices_part_note.
Qed.

(** C8, amended: [compare_same_layout_meshes] returns [True] only when it
    has reported nothing; [compare_same_layout_mesh_vertex_fusions] returns
    [False] only after the fatal report, and returns [True] after no report
    or after the recoverable report of a count drift alone; and in
    [compare_single_node_pair] the note "functionally identical" is reported
    only when no report of a located mesh mismatch (exact data, approximate
    data, fusions) has been made. *)
Theorem pass_signal skinned vertices (ms1 ms2 : list Mesh) src dst error context :
  post (compare_same_layout_meshes skinned ms1 ms2 error context)
       (fun r evs => r = Ok true -> evs = []) /\
  post (compare_same_layout_mesh_vertex_fusions skinned ms1 ms2 error context)
       (fun r evs =>
          (r = Ok false -> exists ev, evs = [ev] /\ ev_severity ev = Fatal) /\
          (r = Ok true ->
           evs = [] \/
           exists n m, evs = [mkEvent Recoverable context (FusionCountsDontMatch n m)])) /\
  post (compare_single_node_pair skinned vertices src dst error context)
       (fun _ evs =>
          Exists is_identical_note evs ->
          Forall (fun ev => mesh_mismatch ev = false) evs).
Proof.
  split; [|split].
  - eapply post_weaken; [apply compare_same_layout_meshes_post|].
    intros r evs [[_ ->]|(ev & -> & Hrep & _)]; [done|].
    intros ->. unfold reply in Hrep. by destruct (aborts error _).
  - eapply post_weaken; [apply compare_fusions_post|].
    intros r evs [[-> ->]|[(ev & -> & Hrep & Hsev & _)|(ev & n & m & -> & Hrep & ->)]].
    + split; [done | by left].
    + split; [by eauto|]. intros ->. unfold reply in Hrep. by destruct (aborts error _).
    + split; [|by eauto]. intros ->. unfold reply in Hrep. by destruct (aborts error _).
  - apply compare_single_node_pair_note.
Qed.

End Signal.
End SignalProps.

(** ** Concrete runs *)

(** C8, counterexample: [src] holds two fused vertices on one point and [dst]
    one.  The fusion check reports the recoverable count drift and still
    returns [True]; and [compare_single_node_pair] on two nodes with these
    meshes reports the note "functionally identical" after it. *)
Lemma count_drift_passes :
  (compare_same_layout_mesh_vertex_fusions false [coincident_pair] [single_vertex]
     lenient "ctx" empty_world).1 = Ok true /\
  Fused.log (compare_same_layout_mesh_vertex_fusions false [coincident_pair]
               [single_vertex] lenient "ctx" empty_world).2
    = [mkEvent Recoverable "ctx" (FusionCountsDontMatch 2 1)] /\
  Fused.log (compare_single_node_pair false true
               (ex_node "n" UnskinnedMesh [] [coincident_pair])
               (ex_node "n" UnskinnedMesh [] [single_vertex])
               lenient "ctx" empty_world).2
    = [mkEvent Recoverable "ctx" (FusionCountsDontMatch 2 1);
       mkEvent Info "ctx" FunctionallyIdentical].
Proof. by vm_compute. Qed.

(** Examples for C9 with the reporter that never raises: a child missing in
    [dst], two children in another order, and a pair of children with
    different node types. *)
Example recursive_compare_missing_child :
  Fused.log (recursive_compare_node_lists false false
               [ex_node "a" MatrixTransform [] []; ex_node "b" MatrixTransform [] []]
               [ex_node "a" MatrixTransform [] []]
               lenient "" empty_world).2
  = [mkEvent Fatal "" DifferentChildSets; mkEvent Fatal "" ChildrenDifferentOrder].
Proof. by vm_compute. Qed.

Example recursive_compare_reordered :
  Fused.log (recursive_compare_node_lists false false
               [ex_node "a" MatrixTransform [] []; ex_node "b" MatrixTransform [] []]
               [ex_node "b" MatrixTransform [] []; ex_node "a" MatrixTransform [] []]
               lenient "" empty_world).2
  = [mkEvent Fatal "" ChildrenDifferentOrder].
Proof. by vm_compute. Qed.

Example recursive_compare_node_type :
  Fused.log (recursive_compare_node_lists false false
               [ex_node "a" MatrixTransform [] []]
               [ex_node "a" UnskinnedMesh [] []]
               lenient "" empty_world).2
  = [mkEvent Fatal "a > " (FieldDiffers "node_type")].
Proof. by vm_compute. Qed.

(** ** ApproxFingerprint: symmetry and ordering *)

Module VertApproxProps.
Import VertApproxOrder.

Lemma dot4_comm (a b : Tuple4) : dot4 a b = dot4 b a.
Proof.
  destruct a as [[[a0 a1] a2] a3], b as [[[b0 b1] b2] b3]. unfold dot4. ring.
Qed.

(** [approx_eq] is symmetric: [a.approx_eq(b)] and [b.approx_eq(a)] agree. *)
Theorem approx_eq_sym (a b : VertApproxData) :
  VertApproxData.approx_eq a b = VertApproxData.approx_eq b a.
Proof.
  unfold VertApproxData.approx_eq.
  destruct (normal a) as [n|], (normal b) as [m|]; try done.
  by rewrite (dot4_comm n m).
Qed.

Lemma item_gt_lt x y r : item_gt x y r = item_lt y x r.
Proof.
  unfold item_gt, item_lt. repeat case_bool_decide; congruence.
Qed.

Lemma tuple4_gt_lt a b : tuple4_gt a b = tuple4_lt b a.
Proof.
  destruct a as [[[a0 a1] a2] a3], b as [[[b0 b1] b2] b3].
  unfold tuple4_gt, tuple4_lt. by rewrite !item_gt_lt.
Qed.

Lemma field_gt_lt x y : field_gt x y = field_lt y x.
Proof. destruct x, y; simpl; try done. by rewrite tuple4_gt_lt. Qed.

Lemma item_lt_refl x r : item_lt x x r = r.
Proof. unfold item_lt. by rewrite bool_decide_eq_true_2. Qed.

Lemma Qclt_irrefl (x : Qc) : ~ (x < x)%Qc.
Proof. intros H. by apply (Qclt_not_eq x x). Qed.

Lemma item_lt_trans x y z r1 r2 r3 :
  (r1 = true -> r2 = true -> r3 = true) ->
  item_lt x y r1 = true -> item_lt y z r2 = true -> item_lt x z r3 = true.
Proof.
  unfold item_lt. intros Hr. repeat case_bool_decide; subst; try done.
  - intros _ _. exfalso. by eapply Qclt_irrefl, Qclt_trans.
  - intros _ _. exfalso. eauto using Qclt_trans.
Qed.

Lemma item_lt_asym x y r r' :
  (r = true -> r' = false) -> item_lt x y r = true -> item_lt y x r' = false.
Proof.
  unfold item_lt. intros Hr. repeat case_bool_decide; subst; try done.
  intros _. exfalso. by eapply Qclt_irrefl, Qclt_trans.
Qed.

Lemma item_lt_total x y r r' :
  (x = y -> r = true \/ r' = true) ->
  item_lt x y r = true \/ item_lt y x r' = true.
Proof.
  unfold item_lt. intros Hr. repeat case_bool_decide; subst; try done; try tauto.
  all: try (by left); try (by right).
  exfalso. destruct (Qc_dec x y) as [[Hlt|Hgt]|Heq]; done.
Qed.

Lemma tuple4_lt_irrefl a : tuple4_lt a a = false.
Proof.
  destruct a as [[[a0 a1] a2] a3]. unfold tuple4_lt. by rewrite !item_lt_refl.
Qed.

Lemma tuple4_lt_trans a b c :
  tuple4_lt a b = true -> tuple4_lt b c = true -> tuple4_lt a c = true.
Proof.
  destruct a as [[[a0 a1] a2] a3], b as [[[b0 b1] b2] b3], c as [[[c0 c1] c2] c3].
  unfold tuple4_lt. repeat (apply item_lt_trans). done.
Qed.

Lemma tuple4_lt_asym a b : tuple4_lt a b = true -> tuple4_lt b a = false.
Proof.
  destruct a as [[[a0 a1] a2] a3], b as [[[b0 b1] b2] b3].
  unfold tuple4_lt. repeat (apply item_lt_asym). done.
Qed.

Lemma tuple4_lt_total a b : a <> b -> tuple4_lt a b = true \/ tuple4_lt b a = true.
Proof.
  destruct a as [[[a0 a1] a2] a3], b as [[[b0 b1] b2] b3]. intros Hne.
  unfold tuple4_lt.
  apply item_lt_total. intros ->. apply item_lt_total. intros ->.
  apply item_lt_total. intros ->. apply item_lt_total. intros ->. done.
Qed.

(** The ordering of fingerprints raises [TypeError] exactly when the first
    of the fields [normal], [tangent] on which the two fingerprints differ is
    [None] on one side; [a > b] and [b < a] always agree, in their value and
    in raising. *)
Theorem VertApproxData_lt_raises (a b : VertApproxData) :
  (__lt__ a b = TypeError <->
   (normal a <> normal b /\ (normal a = None \/ normal b = None)) \/
   (normal a = normal b /\ tangent a <> tangent b /\
    (tangent a = None \/ tangent b = None))) /\
  __gt__ a b = __lt__ b a.
Proof.
  split.
  - unfold __lt__.
    destruct (bool_decide_reflect (normal a = normal b)) as [Hn|Hn].
    + destruct (bool_decide_reflect (tangent a = tangent b)) as [Ht|Ht].
      * split; [done|]. intros [[? _]|(_ & ? & _)]; done.
      * destruct (tangent a) as [ta|], (tangent b) as [tb|]; simpl.
        -- split; [done|]. intros [[? _]|(_ & _ & [?|?])]; done.
        -- split; [|done]. intros _. right. eauto.
        -- split; [|done]. intros _. right. eauto.
        -- done.
    + destruct (normal a) as [na|], (normal b) as [nb|]; simpl.
      * split; [done|]. intros [[_ [?|?]]|[? _]]; done.
      * split; [|done]. intros _. left. eauto.
      * split; [|done]. intros _. left. eauto.
      * done.
  - unfold __gt__, __lt__. rewrite !field_gt_lt.
    destruct (bool_decide_reflect (normal a = normal b)) as [Hn|Hn].
    + rewrite (bool_decide_eq_true_2 (normal b = normal a)) by done.
      destruct (bool_decide_reflect (tangent a = tangent b)) as [Ht|Ht].
      * by rewrite (bool_decide_eq_true_2 (tangent b = tangent a)).
      * by rewrite (bool_decide_eq_false_2 (tangent b = tangent a)) by congruence.
    + by rewrite (bool_decide_eq_false_2 (normal b = normal a)) by congruence.
Qed.

(** Where it returns, the ordering of fingerprints is a strict order: no
    fingerprint is below itself, [a < b] and [b < c] give [a < c], [a < b]
    gives [not b < a]; and two different fingerprints with both fields
    present are ordered one way or the other. *)
Theorem VertApproxData_lt_strict_order :
  (forall a, __lt__ a a = Cmp false) /\
  (forall a b c, __lt__ a b = Cmp true -> __lt__ b c = Cmp true ->
                 __lt__ a c = Cmp true) /\
  (forall a b, __lt__ a b = Cmp true -> __lt__ b a = Cmp false) /\
  (forall a b,
     is_Some (normal a) -> is_Some (tangent a) ->
     is_Some (normal b) -> is_Some (tangent b) ->
     a = b \/ __lt__ a b = Cmp true \/ __lt__ b a = Cmp true).
Proof.
  split; [|split; [|split]].
  - intros a. unfold __lt__. by rewrite !bool_decide_eq_true_2.
  - intros [na ta] [nb tb] [nc tc]. unfold __lt__. simpl.
    repeat case_bool_decide; subst; try done.
    all: repeat match goal with x : option Tuple4 |- _ => destruct x end; simpl; try done.
    all: intros [= Hab] [= Hbc]; pose proof (tuple4_lt_trans _ _ _ Hab Hbc) as Hac;
      try (by rewrite Hac); by rewrite tuple4_lt_irrefl in Hac.
  - intros [na ta] [nb tb]. unfold __lt__. simpl.
    repeat case_bool_decide; subst; try done.
    all: repeat match goal with x : option Tuple4 |- _ => destruct x end; simpl; try done.
    all: intros [= Hab]; by rewrite (tuple4_lt_asym _ _ Hab).
  - intros [na ta] [nb tb]. simpl. intros [x ->] [tx ->] [y ->] [ty ->].
    unfold __lt__. simpl.
    repeat case_bool_decide; simplify_eq; try (by left); right.
    + destruct (tuple4_lt_total tx ty) as [Hlt|Hlt]; [congruence| |]; rewrite Hlt; by eauto.
    + destruct (tuple4_lt_total x y) as [Hlt|Hlt]; [congruence| |]; rewrite Hlt; by eauto.
Qed.

End VertApproxProps.

(** ** VertexSet: what [add] stores and what [difference] returns *)

Section VertSetMore.
Context {K : Type} `{Countable K}.
Implicit Types S O : VertSet K.

Lemma verts_at_add S k a k' :
  verts_at (VertSet_add S k a) k' =
  if decide (k = k') then verts_at S k ∪ {[a]} else verts_at S k'.
Proof.
  unfold verts_at, VertSet_add. simpl. destruct (decide (k = k')) as [->|Hne].
  - by rewrite lookup_insert_eq.
  - by rewrite lookup_insert_ne.
Qed.

Lemma foldl_add_spec (l : list (K * VertApproxData)) S :
  let S' := foldl (fun s p => VertSet_add s p.1 p.2) S l in
  len S' = (len S + length l)%nat /\
  (forall k a, a ∈ verts_at S' k <-> a ∈ verts_at S k \/ (k, a) ∈ l) /\
  (forall k, k ∈ dom (verts S') <-> k ∈ dom (verts S) \/ k ∈ l.*1).
Proof.
  revert S. induction l as [|[k0 a0] l IH]; intros S; simpl.
  - split; [lia|]. split.
    + intros k a. rewrite elem_of_nil. tauto.
    + intros k. rewrite elem_of_nil. tauto.
  - destruct (IH (VertSet_add S k0 a0)) as (I1 & I2 & I3). cbv zeta in *.
    split; [rewrite I1; simpl; lia|]. split.
    + intros k a. rewrite I2, verts_at_add, elem_of_cons.
      destruct (decide (k0 = k)) as [->|Hne].
      * rewrite elem_of_union, elem_of_singleton. split.
        -- intros [[?| ->]|?]; eauto.
        -- intros [?|[[= ->]|?]]; eauto.
      * split; [intros [?|?]; eauto|]. intros [?|[[= ? ?]|?]]; eauto. congruence.
    + intros k. rewrite I3. simpl. rewrite dom_insert, elem_of_union, elem_of_singleton,
        elem_of_cons. split.
      * intros [[->|?]|?]; eauto.
      * intros [?|[->|?]]; eauto.
Qed.

(** After a sequence of [add] calls, [len] is the number of calls (a pair
    added twice counts twice), the keys of [verts] are the exact keys added,
    and the set stored under a key holds the approximate data added with that
    key. *)
Theorem VertSet_adds_lookup (l : list (K * VertApproxData)) :
  len (VertSet_of_adds l) = length l /\
  (forall k a, a ∈ verts_at (VertSet_of_adds l) k <-> (k, a) ∈ l) /\
  (forall k, k ∈ dom (verts (VertSet_of_adds l)) <-> k ∈ l.*1).
Proof.
  destruct (foldl_add_spec l VertSet_init) as (H1 & H2 & H3). cbv zeta in *.
  split; [exact H1|]. split.
  - intros k a. unfold VertSet_of_adds. rewrite H2.
    unfold verts_at at 1. simpl. rewrite lookup_empty. simpl. set_solver.
  - intros k. unfold VertSet_of_adds. rewrite H3. simpl. rewrite dom_empty. set_solver.
Qed.

(** The entry of [self.difference(other)] for a key. *)
Lemma difference_lookup S O k :
  difference S O !! k =
  if decide (k ∈ dom (verts S)) then
    if decide (k ∈ dom (verts O)) then
      let d := differing_va (verts_at S k) (verts_at O k) in
      if (0 <? length d)%nat then Some d else None
    else Some (elements (verts_at S k))
  else None.
Proof.
  unfold difference.
  set (f1 := fun vert_exact (acc : gmap K (list VertApproxData)) =>
               <[vert_exact := elements (verts_at S vert_exact)]> acc).
  set (f2 := fun vert_exact (acc : gmap K (list VertApproxData)) =>
               let d := differing_va (verts_at S vert_exact) (verts_at O vert_exact) in
               if (0 <? length d)%nat then <[vert_exact := d]> acc else acc).
  assert (forall (X : gset K) k,
            (k ∈ X -> set_fold f1 ∅ X !! k = Some (elements (verts_at S k))) /\
            (k ∉ X -> set_fold f1 ∅ X !! k = None)) as Hf1.
  { intros X. apply (set_fold_ind_L (fun acc X => forall k,
       (k ∈ X -> acc !! k = Some (elements (verts_at S k))) /\
       (k ∉ X -> acc !! k = None))).
    - intros k'. split; [set_solver|]. intros _. apply lookup_empty.
    - intros x Y acc Hx IH k'. unfold f1. destruct (decide (x = k')) as [->|Hne].
      + rewrite lookup_insert_eq. split; [done | set_solver].
      + rewrite lookup_insert_ne by done. destruct (IH k') as [IH1 IH2].
        split; intros Hk; [apply IH1 | apply IH2]; set_solver. }
  assert (forall (b : gmap K (list VertApproxData)) (X : gset K) k,
            (k ∈ X -> set_fold f2 b X !! k =
               if (0 <? length (differing_va (verts_at S k) (verts_at O k)))%nat
               then Some (differing_va (verts_at S k) (verts_at O k)) else b !! k) /\
            (k ∉ X -> set_fold f2 b X !! k = b !! k)) as Hf2.
  { intros b X. apply (set_fold_ind_L (fun acc X => forall k,
       (k ∈ X -> acc !! k =
          if (0 <? length (differing_va (verts_at S k) (verts_at O k)))%nat
          then Some (differing_va (verts_at S k) (verts_at O k)) else b !! k) /\
       (k ∉ X -> acc !! k = b !! k))).
    - intros k'. split; [set_solver | done].
    - intros x Y acc Hx IH k'. unfold f2. cbv zeta.
      destruct (IH k') as [IH1 IH2].
      destruct (decide (x = k')) as [->|Hne].
      + split; [intros _ | set_solver].
        destruct (0 <? length (differing_va (verts_at S k') (verts_at O k')))%nat eqn:E.
        * by rewrite lookup_insert_eq.
        * by apply IH2.
      + assert ((if (0 <? length (differing_va (verts_at S x) (verts_at O x)))%nat
                 then <[x := differing_va (verts_at S x) (verts_at O x)]> acc
                 else acc) !! k' = acc !! k') as ->.
        { destruct (0 <? length (differing_va (verts_at S x) (verts_at O x)))%nat.
          - by apply lookup_insert_ne.
          - done. }
        split; intros Hk; [apply IH1 | apply IH2]; set_solver. }
  destruct (Hf2 (set_fold f1 ∅ (dom (verts S) ∖ dom (verts O)))
              (dom (verts S) ∩ dom (verts O)) k) as [G1 G2].
  destruct (Hf1 (dom (verts S) ∖ dom (verts O)) k) as [F1 F2].
  destruct (decide (k ∈ dom (verts S))) as [HS|HS], (decide (k ∈ dom (verts O))) as [HO|HO];
    cbv zeta.
  - rewrite G1 by set_solver. rewrite F2 by set_solver. done.
  - rewrite G2 by set_solver. rewrite F1 by set_solver. done.
  - rewrite G2 by set_solver. rewrite F2 by set_solver. done.
  - rewrite G2 by set_solver. rewrite F2 by set_solver. done.
Qed.

Lemma any_approx_eq_false (a : VertApproxData) (X : gset VertApproxData) :
  any_approx_eq a X = false <->
  forall a', a' ∈ X -> VertApproxData.approx_eq a a' = false.
Proof.
  rewrite <- not_true_iff_false, any_approx_eq_true. split.
  - intros Hno a' Ha'. apply not_true_is_false. intros Heq. apply Hno. eauto.
  - intros Hall (a' & Ha' & Heq). by rewrite (Hall a' Ha') in Heq.
Qed.

(** What [self.difference(other)] holds, as its documentation says: the
    pairs [(vert_exact, vert_approx)] of [self] for which [other] has, under
    the same exact key, no approximate data that [vert_approx] is
    approximately equal to. *)
Theorem difference_elem S O k a :
  (exists d, difference S O !! k = Some d /\ a ∈ d) <->
  k ∈ dom (verts S) /\ a ∈ verts_at S k /\
  forall a', a' ∈ verts_at O k -> VertApproxData.approx_eq a a' = false.
Proof.
  rewrite difference_lookup.
  destruct (decide (k ∈ dom (verts S))) as [HS|HS].
  - destruct (decide (k ∈ dom (verts O))) as [HO|HO]; cbv zeta.
    + destruct (differing_va (verts_at S k) (verts_at O k)) as [|a0 d] eqn:Hd; simpl.
      * split; [by intros (d & [=] & _)|]. intros (_ & Ha & Hall). exfalso.
        assert (a ∈ differing_va (verts_at S k) (verts_at O k)) as Hin.
        { unfold differing_va. apply list_elem_of_filter. split.
          - by apply any_approx_eq_false.
          - by apply elem_of_elements. }
        rewrite Hd in Hin. by apply not_elem_of_nil in Hin.
      * rewrite <- Hd. unfold differing_va. split.
        -- intros (d' & [= <-] & Hin). apply list_elem_of_filter in Hin as [Hno Hin].
           split; [done|]. split; [by apply elem_of_elements|].
           by apply any_approx_eq_false.
        -- intros (_ & Ha & Hall). eexists. split; [done|].
           apply list_elem_of_filter. split.
           ++ by apply any_approx_eq_false.
           ++ by apply elem_of_elements.
    + split.
      * intros (d & [= <-] & Hin). split; [done|]. split; [by apply elem_of_elements|].
        intros a' Ha'. unfold verts_at in Ha'.
        rewrite (not_elem_of_dom_1 (verts O) k HO) in Ha'. set_solver.
      * intros (_ & Ha & _). eexists. split; [done|]. by apply elem_of_elements.
  - split; [by intros (d & [=] & _) | tauto].
Qed.

(** Every key of [exact_difference] is a key of [difference] (so that an
    empty [difference] means an empty [exact_difference]); and
    [self.difference(other)] is empty exactly when every exact key of [self]
    is one of [other] and each approximate data of [self] is approximately
    equal to some approximate data of [other] under the same key. *)
Theorem difference_empty_iff S O :
  exact_difference S O ⊆ dom (difference S O) /\
  (difference S O = ∅ <->
   dom (verts S) ⊆ dom (verts O) /\
   forall k a, a ∈ verts_at S k ->
     exists a', a' ∈ verts_at O k /\ VertApproxData.approx_eq a a' = true).
Proof.
  split.
  - intros k Hk. unfold exact_difference in Hk. apply elem_of_difference in Hk as [HS HO].
    apply elem_of_dom. rewrite difference_lookup.
    rewrite decide_True by done. by rewrite decide_False by done.
  - rewrite map_empty. split.
    + intros Hnone. split.
      * intros k HS. specialize (Hnone k). rewrite difference_lookup in Hnone.
        rewrite decide_True in Hnone by done.
        by destruct (decide (k ∈ dom (verts O))).
      * intros k a Ha. specialize (Hnone k). rewrite difference_lookup in Hnone.
        destruct (decide (k ∈ dom (verts S))) as [HS|HS].
        -- destruct (decide (k ∈ dom (verts O))) as [HO|HO]; [|done]. cbv zeta in Hnone.
           destruct (differing_va (verts_at S k) (verts_at O k)) eqn:Hd; [|done].
           by apply (proj1 (differing_va_nil _ _) Hd).
        -- unfold verts_at in Ha. rewrite (not_elem_of_dom_1 (verts S) k HS) in Ha.
           set_solver.
    + intros [Hsub Hall] k. rewrite difference_lookup.
      destruct (decide (k ∈ dom (verts S))) as [HS|HS]; [|done].
      rewrite decide_True by set_solver. cbv zeta.
      rewrite (proj2 (differing_va_nil _ _)); [done|]. intros a Ha. by apply Hall.
Qed.


(** The order of the [add] calls does not matter: two sequences of calls
    that add the same pairs the same number of times, in any order, make the
    same vertex set (the same [verts] and the same [len]). *)
Theorem VertSet_adds_Permutation (l l' : list (K * VertApproxData)) :
  l ≡ₚ l' -> VertSet_of_adds l = VertSet_of_adds l'.
Proof.
  intros Hp.
  destruct (foldl_add_spec l VertSet_init) as (L1 & L2 & L3).
  destruct (foldl_add_spec l' VertSet_init) as (L1' & L2' & L3').
  cbv zeta in *. fold (VertSet_of_adds l) in *. fold (VertSet_of_adds l') in *.
  destruct (VertSet_of_adds l) as [m n] eqn:E, (VertSet_of_adds l') as [m' n'] eqn:E'.
  simpl in *. f_equal.
  - apply map_eq. intros k.
    assert (forall a, a ∈ verts_at {| verts := m; len := n |} k <->
                      a ∈ verts_at {| verts := m'; len := n' |} k) as Hat.
    { intros a. rewrite L2, L2'. by rewrite Hp. }
    assert (k ∈ dom m <-> k ∈ dom m') as Hdom.
    { rewrite L3, L3'. by rewrite Hp. }
    unfold verts_at in Hat. simpl in Hat. rewrite !elem_of_dom in Hdom.
    destruct (m !! k) as [X|] eqn:Hm, (m' !! k) as [X'|] eqn:Hm'; simpl in *.
    + f_equal. by apply set_eq.
    + exfalso. by apply (is_Some_None (A := gset VertApproxData)), Hdom.
    + exfalso. by apply (is_Some_None (A := gset VertApproxData)), Hdom.
    + done.
  - rewrite L1, L1'. by rewrite Hp.
Qed.

End VertSetMore.

(** The order-independence theorem for two pairs added in either order. *)
Lemma VertSet_adds_Permutation_witness :
  VertSet_of_adds [(1%nat, zero_normal); (2%nat, VertApproxData.new None None)]
  = VertSet_of_adds [(2%nat, VertApproxData.new None None); (1%nat, zero_normal)].
Proof.
  apply (VertSet_adds_Permutation
           [(1%nat, zero_normal); (2%nat, VertApproxData.new None None)]
           [(2%nat, VertApproxData.new None None); (1%nat, zero_normal)]).
  apply perm_swap.
Defined.

(** ** Sorting by key *)

Section SortProps.

Lemma ascii_compare_lt_trans (a b c : Ascii.ascii) :
  Ascii.compare a b = Lt -> Ascii.compare b c = Lt -> Ascii.compare a c = Lt.
Proof.
  unfold Ascii.compare. rewrite !N.compare_lt_iff. lia.
Qed.

Lemma string_compare_lt_trans (s1 s2 s3 : string) :
  String.compare s1 s2 = Lt -> String.compare s2 s3 = Lt -> String.compare s1 s3 = Lt.
Proof.
  revert s2 s3. induction s1 as [|c1 s1 IH]; intros [|c2 s2] [|c3 s3]; simpl; try done.
  destruct (Ascii.compare c1 c2) eqn:E12; [| |done].
  - apply Ascii.compare_eq_iff in E12 as ->.
    destruct (Ascii.compare c2 c3) eqn:E23; [| done |done]. apply IH.
  - intros _. destruct (Ascii.compare c2 c3) eqn:E23; [| |done].
    + apply Ascii.compare_eq_iff in E23 as <-. by rewrite E12.
    + by rewrite (ascii_compare_lt_trans _ _ _ E12 E23).
Qed.

Lemma string_leb_trans (s1 s2 s3 : string) :
  String.leb s1 s2 = true -> String.leb s2 s3 = true -> String.leb s1 s3 = true.
Proof.
  unfold String.leb.
  destruct (String.compare s1 s2) eqn:E12; [| |done];
    destruct (String.compare s2 s3) eqn:E23; try done; intros _ _.
  - apply String.compare_eq_iff in E12 as ->. by rewrite E23.
  - apply String.compare_eq_iff in E12 as ->. by rewrite E23.
  - apply String.compare_eq_iff in E23 as <-. by rewrite E12.
  - by rewrite (string_compare_lt_trans _ _ _ E12 E23).
Qed.

Lemma sort_by_key_sorted {T} (key : T -> string) (l : list T) :
  Sorted (fun a b => String.leb (key a) (key b) = true) (sort_by_key key l) /\
  sort_by_key key l ≡ₚ l.
Proof.
  unfold sort_by_key. split.
  - apply (@Sorted_merge_sort T _ _ (fun a b => String.leb_total (key a) (key b))).
  - apply merge_sort_Permutation.
Qed.

Lemma sort_by_key_unique (l1 l2 : list string) :
  sort_by_key (fun x => x) l1 = sort_by_key (fun x => x) l2 <-> l1 ≡ₚ l2.
Proof.
  destruct (sort_by_key_sorted (fun x : string => x) l1) as [S1 P1].
  destruct (sort_by_key_sorted (fun x : string => x) l2) as [S2 P2].
  split.
  - intros Heq. by rewrite <- P1, Heq.
  - intros Hp.
    apply (Sorted_unique (fun a b : string => String.leb a b = true)
             (Transitive0 := string_leb_trans) (AntiSymm0 := String.leb_antisym));
      [done | done |].
    by rewrite P1, P2.
Qed.

(** [sort_src_dest_lists] returns each of its two lists sorted by key, with
    the elements it was given; with the identity as key, the two results are
    equal exactly when the two inputs hold the same strings the same number
    of times, whatever their orders; and on the elements of two sets of
    strings, exactly when the two sets are equal. *)
Theorem sort_src_dest_lists_sorted :
  (forall (T : Type) (src dst : list T) (key : T -> string),
     let r := sort_src_dest_lists src dst key in
     Sorted (fun a b => String.leb (key a) (key b) = true) r.1 /\ r.1 ≡ₚ src /\
     Sorted (fun a b => String.leb (key a) (key b) = true) r.2 /\ r.2 ≡ₚ dst) /\
  (forall src dst : list string,
     let r := sort_src_dest_lists src dst (fun x => x) in
     r.1 = r.2 <-> src ≡ₚ dst) /\
  (forall X Y : gset string,
     let r := sort_src_dest_lists (elements X) (elements Y) (fun x => x) in
     r.1 = r.2 <-> X = Y).
Proof.
  split; [|split].
  - intros T src dst key. simpl.
    destruct (sort_by_key_sorted key src), (sort_by_key_sorted key dst). done.
  - intros src dst. simpl. apply sort_by_key_unique.
  - intros X Y. simpl. rewrite sort_by_key_unique. split.
    + intros Hp. apply set_eq. intros x. by rewrite <- !elem_of_elements, Hp.
    + by intros ->.
Qed.

End SortProps.

(** ** FusedVoxelIndex: what a comparison may change *)

Module FusedFrame.
Import Fused FusedProps.

Section Frame.
Context {Sig : Type} `{EqDecision Sig}.
Implicit Types w : World Sig.
Implicit Types o s : FusedVertVoxelSet Sig.

Lemma extended_refl o : extended_by_empty_buckets o o.
Proof.
  repeat split. exists []. by rewrite app_nil_r.
Qed.

Lemma extended_trans o1 o2 o3 :
  extended_by_empty_buckets o1 o2 -> extended_by_empty_buckets o2 o3 ->
  extended_by_empty_buckets o1 o3.
Proof.
  intros (Hv & Hs & e1 & He1 & Hf1) (Hv' & Hs' & e2 & He2 & Hf2).
  split; [congruence|]. split; [congruence|].
  exists (e1 ++ e2). split.
  - by rewrite He2, He1, app_assoc.
  - by apply Forall_app.
Qed.

Lemma dict_set_missing (d : dict Voxel (list nat)) k v :
  dict_get d k = None -> dict_set d k v = d ++ [(k, v)].
Proof.
  induction d as [|[k0 v0] d IH]; simpl; [done|].
  destruct (decide (k0 = k)); [done|]. intros Hg. by rewrite IH.
Qed.

Lemma extended_probed o k : extended_by_empty_buckets o (probed o k).
Proof.
  unfold probed. destruct (dict_get (voxels o) k) eqn:Hg; [apply extended_refl|].
  repeat split. simpl. exists [(k, [])]. split.
  - by apply dict_set_missing.
  - by apply Forall_singleton.
Qed.

Lemma extended_same_buckets o o' : extended_by_empty_buckets o o' -> same_buckets o o'.
Proof.
  intros (Hv & Hs & extra & He & Hf). repeat split; try done.
  intros k. unfold bucket_of. rewrite He. clear He.
  induction (voxels o) as [|[k0 v0] d IH]; simpl.
  - induction Hf as [|[k1 v1] extra Hk _ IH]; simpl; [done|].
    simpl in Hk. subst v1. by destruct (decide (k1 = k)).
  - by destruct (decide (k0 = k)).
Qed.

Lemma touches_only_refl other w : touches_only other w w.
Proof.
  repeat split. intros o Ho. exists o. split; [done | apply extended_refl].
Qed.

Lemma touches_only_trans other w1 w2 w3 :
  touches_only other w1 w2 -> touches_only other w2 w3 -> touches_only other w1 w3.
Proof.
  intros (Hl & Hn & Hr & Ho) (Hl' & Hn' & Hr' & Ho').
  split; [congruence|]. split; [congruence|]. split.
  - intros r Hne. by rewrite Hr', Hr.
  - intros o Hlook. destruct (Ho o Hlook) as (o2 & Ho2 & He2).
    destruct (Ho' o2 Ho2) as (o3 & Ho3 & He3).
    exists o3. split; [done | by eapply extended_trans].
Qed.

Lemma probes_only_ret {A} other (a : A) : probes_only (Sig := Sig) other (ret a).
Proof. intros w. apply touches_only_refl. Qed.

Lemma probes_only_mret {A} other (a : A) : probes_only (Sig := Sig) other (mret a).
Proof. intros w. apply touches_only_refl. Qed.

Lemma probes_only_raise {A} other e : probes_only (Sig := Sig) other (raise (A := A) e).
Proof. intros w. apply touches_only_refl. Qed.

Lemma probes_only_bind {A B} other (m : M Sig A) (k : A -> M Sig B) :
  probes_only other m -> (forall a, probes_only other (k a)) ->
  probes_only other (m ≫= k).
Proof.
  intros Hm Hk w. specialize (Hm w).
  unfold mbind, M_bind, bind. destruct (m w) as [[a|e] w1]; simpl in *; [|done].
  eapply touches_only_trans; [done | apply Hk].
Qed.

Lemma probes_only_get_obj other r : probes_only (Sig := Sig) other (get_obj r).
Proof.
  intros w. unfold get_obj. destruct (heap w !! r); apply touches_only_refl.
Qed.

Lemma probes_only_list_index {A} other (l : list A) i :
  probes_only (Sig := Sig) other (list_index l i).
Proof.
  unfold list_index. destruct (l !! i); [apply probes_only_ret | apply probes_only_raise].
Qed.

Lemma probes_only_py_assert other b : probes_only (Sig := Sig) other (py_assert b).
Proof. destruct b; [apply probes_only_ret | apply probes_only_raise]. Qed.

Lemma probes_only_mapM {A B} other (f : A -> M Sig B) (l : list A) :
  (forall a, probes_only other (f a)) -> probes_only other (mapM f l).
Proof.
  intros Hf. induction l as [|a l IH]; simpl; [apply probes_only_mret|].
  apply probes_only_bind; [done|]. intros b.
  apply probes_only_bind; [done|]. intros bs. apply probes_only_mret.
Qed.

Lemma probes_only_indexed other (vs : list (FusedVert Sig)) bucket :
  probes_only other (indexed vs bucket).
Proof.
  apply probes_only_mapM. intros i.
  apply probes_only_bind; [apply probes_only_list_index|].
  intros v. apply probes_only_ret.
Qed.

Lemma probes_only_len other r : probes_only (Sig := Sig) other (len r).
Proof.
  apply probes_only_bind; [apply probes_only_get_obj|]. intros o. apply probes_only_ret.
Qed.

(** The one place where the store is written: the [defaultdict] read of
    [other.voxels]. *)
Lemma probes_only_voxels_getitem other k :
  probes_only (Sig := Sig) other (voxels_getitem other k).
Proof.
  intros w. destruct (heap w !! other) as [o|] eqn:Ho.
  - rewrite (voxels_getitem_spec _ _ _ _ Ho). unfold touches_only, with_obj. simpl.
    split; [done|]. split; [by rewrite length_insert|]. split.
    + intros r Hne. by rewrite list_lookup_insert_ne.
    + intros o0 Ho0. rewrite Ho in Ho0. injection Ho0 as <-.
      exists (probed o k). split.
      * apply list_lookup_insert_eq. by eapply lookup_lt_Some.
      * apply extended_probed.
  - unfold voxels_getitem, mbind, M_bind, bind, get_obj. rewrite Ho. simpl.
    apply touches_only_refl.
Qed.

Lemma probes_only_other_search_space other keys :
  probes_only (Sig := Sig) other (other_search_space other keys).
Proof.
  induction keys as [|k keys IH]; simpl; [apply probes_only_ret|].
  apply probes_only_bind; [apply probes_only_voxels_getitem|]. intros bucket.
  apply probes_only_bind; [apply probes_only_get_obj|]. intros o.
  apply probes_only_bind; [apply probes_only_indexed|]. intros here.
  apply probes_only_bind; [done|]. intros rest. apply probes_only_ret.
Qed.

Lemma probes_only_self_search_space other self keys :
  probes_only (Sig := Sig) other (self_search_space self keys).
Proof.
  induction keys as [|k keys IH]; simpl; [apply probes_only_ret|].
  apply probes_only_bind; [apply probes_only_get_obj|]. intros o.
  apply probes_only_bind.
  { destruct (dict_contains (voxels o) k); [apply probes_only_indexed | apply probes_only_ret]. }
  intros here. apply probes_only_bind; [done|]. intros rest. apply probes_only_ret.
Qed.

Lemma probes_only_for_self_verts other self other_space self_space eps2 vs acc :
  probes_only (Sig := Sig) other
    (for_self_verts self other_space self_space eps2 vs acc).
Proof.
  revert acc. induction vs as [|i vs IH]; intros acc; simpl; [apply probes_only_ret|].
  apply probes_only_bind; [apply probes_only_get_obj|]. intros o.
  apply probes_only_bind; [apply probes_only_list_index|]. intros [[p n] sg].
  apply IH.
Qed.

Lemma probes_only_for_voxels other self eps2 n0 items acc :
  probes_only (Sig := Sig) other (for_voxels self other eps2 n0 items acc).
Proof.
  revert acc. induction items as [|[k vs] items IH]; intros acc; simpl.
  - apply probes_only_bind; [apply probes_only_get_obj|]. intros o.
    destruct (negb _); [apply probes_only_raise | apply probes_only_ret].
  - apply probes_only_bind; [apply probes_only_get_obj|]. intros o.
    destruct (negb _); [apply probes_only_raise|].
    apply probes_only_bind; [apply probes_only_other_search_space|]. intros osp.
    apply probes_only_bind; [apply probes_only_self_search_space|]. intros ssp.
    apply probes_only_bind; [apply probes_only_for_self_verts|]. intros acc'.
    apply IH.
Qed.

Lemma probes_only_check_one_to_one self other pos_epsilon :
  probes_only (Sig := Sig) other (check_one_to_one self other pos_epsilon).
Proof.
  unfold check_one_to_one.
  apply probes_only_bind; [apply probes_only_get_obj|]. intros s.
  apply probes_only_bind; [apply probes_only_get_obj|]. intros o.
  apply probes_only_bind; [apply probes_only_py_assert|]. intros _.
  apply probes_only_bind; [apply probes_only_py_assert|]. intros _.
  apply probes_only_bind; [apply probes_only_for_voxels|]. intros acc.
  apply probes_only_bind; [apply probes_only_get_obj|]. intros o'.
  apply probes_only_bind; [apply probes_only_len|]. intros n.
  apply probes_only_bind; [apply probes_only_mapM; intros i; apply probes_only_list_index|].
  intros l. apply probes_only_ret.
Qed.

(** Whatever its arguments and its outcome, [check_one_to_one] reports
    nothing, creates no object, leaves every object other than [other] as it
    was ([self] included, when it is another object), and changes [other] only
    by appending keys with empty buckets to [other.voxels]: its vertex list,
    its voxel size, its existing items and their order stay, and every key
    reads the same bucket as before. *)
Theorem check_one_to_one_frame (self other : ref) (pos_epsilon : Q) w :
  let w' := (check_one_to_one self other pos_epsilon w).2 in
  log w' = log w /\
  length (heap w') = length (heap w) /\
  (forall r, r <> other -> heap w' !! r = heap w !! r) /\
  (forall o, heap w !! other = Some o ->
     exists o' extra,
       heap w' !! other = Some o' /\
       verts o' = verts o /\ voxel_size o' = voxel_size o /\
       voxels o' = voxels o ++ extra /\
       Forall (fun kl : Voxel * list nat => kl.2 = []) extra /\
       forall k, bucket_of o' k = bucket_of o k).
Proof.
  intros w'. destruct (probes_only_check_one_to_one self other pos_epsilon w)
    as (Hl & Hn & Hr & Ho).
  split; [done|]. split; [done|]. split; [done|].
  intros o Hlook. destruct (Ho o Hlook) as (o' & Ho' & Hext).
  pose proof (extended_same_buckets _ _ Hext) as (_ & _ & Hb).
  destruct Hext as (Hv & Hs & extra & He & Hf).
  exists o', extra. done.
Qed.

End Frame.
End FusedFrame.

(** ** FusedVoxelIndex: the scanned block of voxels holds every close vertex *)

Module FusedSearch.
Import Fused FusedProps FusedBuilt FusedSelf.

Section Truncation.

Lemma py_int_floor q : (0 <= q)%Q -> py_int q = Qfloor q.
Proof.
  destruct q as [n d]. unfold Qle, py_int, Qfloor. simpl. intros Hn.
  apply Z.quot_div_nonneg; lia.
Qed.

Lemma py_int_ceiling q : (q <= 0)%Q -> py_int q = Qceiling q.
Proof.
  destruct q as [n d]. unfold Qle, py_int, Qceiling, Qfloor. simpl. intros Hn.
  rewrite <- (Z.opp_involutive n) at 1. rewrite Z.quot_opp_l by lia.
  f_equal. apply Z.quot_div_nonneg; lia.
Qed.

Lemma Zlt_of_Qlt (a b : Z) : (inject_Z a < inject_Z b)%Q -> a < b.
Proof. by rewrite <- Zlt_Qlt. Qed.

(** Truncation moves a number by less than one. *)
Lemma py_int_bounds q :
  (inject_Z (py_int q) - 1 < q)%Q /\ (q < inject_Z (py_int q) + 1)%Q /\
  ((0 <= q)%Q -> 0 <= py_int q /\ (inject_Z (py_int q) <= q)%Q) /\
  ((q <= 0)%Q -> py_int q <= 0 /\ (q <= inject_Z (py_int q))%Q).
Proof.
  pose proof (Qfloor_le q) as Hf1. pose proof (Qlt_floor q) as Hf2.
  pose proof (Qle_ceiling q) as Hc1. pose proof (Qceiling_lt q) as Hc2.
  rewrite inject_Z_plus in Hf2. unfold Z.sub in Hc2. rewrite inject_Z_plus in Hc2.
  change (inject_Z 1) with 1%Q in *. change (inject_Z (- (1))) with (-1)%Q in *.
  assert (forall a : Z, (inject_Z a < 1)%Q -> a <= 0) as Hup.
  { intros a Ha. apply Z.lt_succ_r, Zlt_of_Qlt. by change (inject_Z (Z.succ 0)) with 1%Q. }
  assert (forall a : Z, (-1 < inject_Z a)%Q -> 0 <= a) as Hdown.
  { intros a Ha. cut (-1 < a); [lia|]. apply Zlt_of_Qlt. by change (inject_Z (-1)) with (-1)%Q. }
  destruct (Qlt_le_dec q 0) as [Hneg|Hpos].
  - assert (q <= 0)%Q as Hle by lra. rewrite (py_int_ceiling q Hle).
    split; [lra|]. split; [lra|]. split.
    + intros H0. split; [apply Hdown|]; lra.
    + intros _. split; [apply Hup|]; lra.
  - rewrite (py_int_floor q Hpos).
    split; [lra|]. split; [lra|]. split.
    + intros _. split; [apply Hdown|]; lra.
    + intros H0. split; [apply Hup; lra|].
      assert (0 <= Qfloor q) as Hz by (apply Hdown; lra).
      rewrite Zle_Qle in Hz. change (inject_Z 0) with 0%Q in Hz. lra.
Qed.

(** Two numbers less than one apart truncate to integers at most one
    apart. *)
Lemma py_int_near (x y : Q) :
  (x - 1 < y)%Q -> (y < x + 1)%Q -> py_int x - 1 <= py_int y <= py_int x + 1.
Proof.
  intros Hlo Hhi.
  destruct (py_int_bounds x) as (Hx1 & Hx2 & Hxp & Hxn).
  destruct (py_int_bounds y) as (Hy1 & Hy2 & Hyp & Hyn).
  assert (forall a b : Z, (inject_Z a < inject_Z b + 1)%Q -> a <= b) as Hstep.
  { intros a b Hab. apply Z.lt_succ_r, Zlt_of_Qlt. unfold Z.succ.
    rewrite inject_Z_plus. by change (inject_Z 1) with 1%Q. }
  destruct (Qlt_le_dec x 0) as [Hxneg|Hxpos], (Qlt_le_dec y 0) as [Hyneg|Hypos].
  - destruct Hxn as [Hx0 Hxle]; [lra|]. destruct Hyn as [Hy0 Hyle]; [lra|].
    split.
    + cut (py_int x <= py_int y + 1); [lia|]. apply Hstep.
      rewrite inject_Z_plus. change (inject_Z 1) with 1%Q. lra.
    + cut (py_int y <= py_int x + 1); [lia|]. apply Hstep.
      rewrite inject_Z_plus. change (inject_Z 1) with 1%Q. lra.
  - destruct Hxn as [Hx0 Hxle]; [lra|]. destruct Hyp as [Hy0 Hyle]; [lra|].
    split; [lia|].
    cut (py_int y <= py_int x + 1); [lia|]. apply Hstep.
    rewrite inject_Z_plus. change (inject_Z 1) with 1%Q. lra.
  - destruct Hxp as [Hx0 Hxle]; [lra|]. destruct Hyn as [Hy0 Hyle]; [lra|].
    split; [|lia].
    cut (py_int x <= py_int y + 1); [lia|]. apply Hstep.
    rewrite inject_Z_plus. change (inject_Z 1) with 1%Q. lra.
  - destruct Hxp as [Hx0 Hxle]; [lra|]. destruct Hyp as [Hy0 Hyle]; [lra|].
    split.
    + cut (py_int x <= py_int y + 1); [lia|]. apply Hstep.
      rewrite inject_Z_plus. change (inject_Z 1) with 1%Q. lra.
    + cut (py_int y <= py_int x + 1); [lia|]. apply Hstep.
      rewrite inject_Z_plus. change (inject_Z 1) with 1%Q. lra.
Qed.

End Truncation.


Section Geometry.
Context {Sig : Type} `{EqDecision Sig}.
Implicit Types o s : FusedVertVoxelSet Sig.
Implicit Types v u : FusedVert Sig.

Lemma flat_map_bind {A B} (f : A -> list B) (l : list A) : flat_map f l = l ≫= f.
Proof. induction l as [|a l IH]; simpl; [done|]. by rewrite IH. Qed.

Lemma elem_of_flat_map {A B} (f : A -> list B) (l : list A) b :
  b ∈ flat_map f l <-> exists a, a ∈ l /\ b ∈ f a.
Proof.
  rewrite flat_map_bind, list_elem_of_bind. split; intros (a & ? & ?); eauto.
Qed.

Lemma elem_of_window (k x : Z) :
  x ∈ window k <-> x = k - 1 \/ x = k \/ x = k + 1 \/ x = k + 2.
Proof.
  unfold window. rewrite !elem_of_cons, elem_of_nil. tauto.
Qed.

Lemma NoDup_window (k : Z) : NoDup (window k).
Proof.
  unfold window. repeat (apply NoDup_cons; split;
    [rewrite ?elem_of_cons, elem_of_nil; lia|]). apply NoDup_nil_2.
Qed.

Lemma elem_of_neighbourhood (k c : Voxel) :
  c ∈ neighbourhood k <->
  c.1.1 ∈ window k.1.1 /\ c.1.2 ∈ window k.1.2 /\ c.2 ∈ window k.2.
Proof.
  destruct k as [[k0 k1] k2], c as [[x y] z]. unfold neighbourhood. cbn [fst snd].
  rewrite elem_of_flat_map. split.
  - intros (x' & Hx & Hin). apply elem_of_flat_map in Hin as (y' & Hy & Hin).
    apply list_elem_of_fmap in Hin as (z' & [= -> -> ->] & Hz). done.
  - intros (Hx & Hy & Hz). exists x. split; [done|].
    apply elem_of_flat_map. exists y. split; [done|].
    apply list_elem_of_fmap. by exists z.
Qed.

Lemma NoDup_neighbourhood (k : Voxel) : NoDup (neighbourhood k).
Proof.
  destruct k as [[k0 k1] k2]. unfold neighbourhood.
  rewrite flat_map_bind. apply NoDup_bind; [| |apply NoDup_window].
  - intros x1 x2 c _ _ H1 H2.
    apply elem_of_flat_map in H1 as (y1 & _ & H1), H2 as (y2 & _ & H2).
    apply list_elem_of_fmap in H1 as (z1 & -> & _), H2 as (z2 & [= -> _ _] & _). done.
  - intros x _. rewrite flat_map_bind. apply NoDup_bind; [| |apply NoDup_window].
    + intros y1 y2 c _ _ H1 H2.
      apply list_elem_of_fmap in H1 as (z1 & -> & _), H2 as (z2 & [= -> _] & _). done.
    + intros y _. apply NoDup_fmap_2; [|apply NoDup_window].
      intros z1 z2 [= ->]. done.
Qed.

(** One coordinate of two points whose squared distance is below
    [pos_epsilon ** 2]. *)
Lemma coordinate_near (eps a b r : Q) :
  (0 <= eps)%Q -> (0 <= r)%Q -> ((a - b) * (a - b) + r < eps * eps)%Q ->
  (a - eps < b)%Q /\ (b < a + eps)%Q.
Proof. intros Heps Hr Hd. split; nra. Qed.

Lemma quotient_near (vsz eps a b : Q) :
  (eps < vsz)%Q -> (0 <= eps)%Q -> (a - eps < b)%Q -> (b < a + eps)%Q ->
  (a / vsz - 1 < b / vsz)%Q /\ (b / vsz < a / vsz + 1)%Q.
Proof.
  intros Hlt Heps Hlo Hhi.
  assert (0 < vsz)%Q as Hpos by lra.
  assert (0 < / vsz)%Q as Hinv by (by apply Qinv_lt_0_compat).
  assert (vsz * / vsz == 1)%Q as Hone by (apply Qmult_inv_r; lra).
  unfold Qdiv. split; nra.
Qed.

(** A vertex closer than [pos_epsilon] to a point lies in the block of
    voxels scanned around the voxel of the point. *)
Lemma voxel_of_near (vsz eps : Q) (p q : Vec3) :
  (0 <= eps)%Q -> (eps < vsz)%Q ->
  (length_squared_diff p q < eps * eps)%Q ->
  voxel_of vsz q ∈ neighbourhood (voxel_of vsz p).
Proof.
  intros Heps Hlt Hd. unfold length_squared_diff in Hd.
  assert (forall a : Q, 0 <= a * a)%Q as Hsq by (intros a; nra).
  pose proof (Hsq (vx p - vx q)%Q) as Hx. pose proof (Hsq (vy p - vy q)%Q) as Hy.
  pose proof (Hsq (vz p - vz q)%Q) as Hz.
  apply elem_of_neighbourhood. unfold voxel_of. simpl.
  rewrite !elem_of_window.
  assert (forall a b r : Q, (0 <= r)%Q -> ((a - b) * (a - b) + r < eps * eps)%Q ->
            py_int (a / vsz) - 1 <= py_int (b / vsz) <= py_int (a / vsz) + 1) as Hax.
  { intros a b r Hr Hab.
    destruct (coordinate_near eps a b r Heps Hr Hab) as [Hlo Hhi].
    destruct (quotient_near vsz eps a b Hlt Heps Hlo Hhi) as [Hlo' Hhi'].
    by apply py_int_near. }
  pose proof (Hax (vx p) (vx q) ((vy p - vy q) * (vy p - vy q)
                 + (vz p - vz q) * (vz p - vz q))%Q) as H1.
  pose proof (Hax (vy p) (vy q) ((vx p - vx q) * (vx p - vx q)
                 + (vz p - vz q) * (vz p - vz q))%Q) as H2.
  pose proof (Hax (vz p) (vz q) ((vx p - vx q) * (vx p - vx q)
                 + (vy p - vy q) * (vy p - vy q))%Q) as H3.
  split; [|split].
  - cut (py_int (vx p / vsz) - 1 <= py_int (vx q / vsz) <= py_int (vx p / vsz) + 1); [lia|].
    apply H1; lra.
  - cut (py_int (vy p / vsz) - 1 <= py_int (vy q / vsz) <= py_int (vy p / vsz) + 1); [lia|].
    apply H2; lra.
  - cut (py_int (vz p / vsz) - 1 <= py_int (vz q / vsz) <= py_int (vz p / vsz) + 1); [lia|].
    apply H3; lra.
Qed.


(** *** The buckets of an index made by [add] calls *)

(** Every index is stored under the key of its own position only. *)
Lemma added_bucket_elem o v :
  (forall i k, i ∈ bucket_of o k <->
     exists u, verts o !! i = Some u /\ voxel_of (voxel_size o) u.1.1 = k) ->
  forall i k, i ∈ bucket_of (added o v) k <->
     exists u, verts (added o v) !! i = Some u /\
               voxel_of (voxel_size (added o v)) u.1.1 = k.
Proof.
  intros Hinv i k. rewrite added_verts. change (voxel_size (added o v)) with (voxel_size o).
  destruct (decide (k = voxel_of (voxel_size o) v.1.1)) as [->|Hk].
  - rewrite bucket_of_added_eq, elem_of_app, list_elem_of_singleton, Hinv. split.
    + intros [(u & Hu & Hvox)| ->].
      * exists u. split; [by apply lookup_app_l_Some | done].
      * exists v. split; [|done]. by rewrite lookup_app_r, Nat.sub_diag.
    + intros (u & Hu & Hvox). apply lookup_app_Some in Hu as [Hu|[Hlen Hu]].
      * left. by exists u.
      * right. apply list_lookup_singleton_Some in Hu as [Hi _]. lia.
  - rewrite bucket_of_added_ne, Hinv by done. split.
    + intros (u & Hu & Hvox). exists u. split; [by apply lookup_app_l_Some | done].
    + intros (u & Hu & Hvox). apply lookup_app_Some in Hu as [Hu|[Hlen Hu]].
      * by exists u.
      * apply list_lookup_singleton_Some in Hu as [_ <-]. by subst k.
Qed.

Lemma built_bucket_elem vsz (l : list (FusedVert Sig)) i k :
  i ∈ bucket_of (built vsz l) k <->
  exists u, l !! i = Some u /\ voxel_of vsz u.1.1 = k.
Proof.
  assert (forall o,
    (forall i k, i ∈ bucket_of o k <->
       exists u, verts o !! i = Some u /\ voxel_of (voxel_size o) u.1.1 = k) ->
    forall i k, i ∈ bucket_of (foldl added o l) k <->
       exists u, verts (foldl added o l) !! i = Some u /\
                 voxel_of (voxel_size (foldl added o l)) u.1.1 = k) as Hgen.
  { induction l as [|v l IH]; intros o Hinv; simpl; [done|].
    by apply IH, added_bucket_elem. }
  specialize (Hgen {| voxels := []; voxel_size := vsz; verts := [] |}).
  fold (built vsz l) in Hgen. rewrite built_verts, built_voxel_size in Hgen.
  apply Hgen. clear. intros i k. unfold bucket_of. simpl. split.
  - intros Hi. by apply not_elem_of_nil in Hi.
  - intros (u & Hu & _). by rewrite lookup_nil in Hu.
Qed.

(** No index is stored twice in a bucket. *)
Lemma added_bucket_NoDup o v :
  buckets_valid o -> (forall k, NoDup (bucket_of o k)) ->
  forall k, NoDup (bucket_of (added o v) k).
Proof.
  intros Hv Hnd k.
  destruct (decide (k = voxel_of (voxel_size o) v.1.1)) as [->|Hk].
  - rewrite bucket_of_added_eq. apply NoDup_app. split; [done|]. split.
    + intros i Hi ->%list_elem_of_singleton.
      pose proof (buckets_valid_bucket_of o (voxel_of (voxel_size o) v.1.1) Hv) as Hall.
      apply (proj1 (Forall_forall _ _) Hall) in Hi. lia.
    + apply NoDup_singleton.
  - by rewrite bucket_of_added_ne.
Qed.

Lemma built_bucket_NoDup vsz (l : list (FusedVert Sig)) k :
  NoDup (bucket_of (built vsz l) k).
Proof.
  revert k. unfold built.
  assert (forall o, buckets_valid o -> (forall k, NoDup (bucket_of o k)) ->
            forall k, NoDup (bucket_of (foldl added o l) k)) as Hgen.
  { induction l as [|v l IH]; intros o Hv Hnd; simpl; [done|].
    apply IH; [by apply buckets_valid_added | by apply added_bucket_NoDup]. }
  apply Hgen; [by apply Forall_nil|]. intros k. apply NoDup_nil_2.
Qed.

(** *** The search space of a block of keys *)

Lemma space_bind o keys :
  space o keys = keys ≫= (fun k => omap (fun i => pair i <$> verts o !! i) (bucket_of o k)).
Proof. unfold space. apply flat_map_bind. Qed.

Lemma NoDup_space vsz (l : list (FusedVert Sig)) keys :
  NoDup keys -> NoDup (space (built vsz l) keys).
Proof.
  intros Hkeys. rewrite space_bind. apply NoDup_bind; [| |done].
  - intros k1 k2 [i u] _ _ H1 H2.
    apply list_elem_of_omap in H1 as (i1 & Hi1 & Hu1), H2 as (i2 & Hi2 & Hu2).
    destruct (verts (built vsz l) !! i1) eqn:E1; [|done].
    destruct (verts (built vsz l) !! i2) eqn:E2; [|done].
    simpl in Hu1, Hu2. simplify_eq.
    apply built_bucket_elem in Hi1 as (u1 & Hl1 & <-), Hi2 as (u2 & Hl2 & <-).
    congruence.
  - intros k _. induction (built_bucket_NoDup vsz l k) as [|i b Hi Hb IH]; simpl.
    + apply NoDup_nil_2.
    + destruct (verts (built vsz l) !! i) as [u|] eqn:E; simpl; [|done].
      apply NoDup_cons. split; [|done].
      intros Hin. apply list_elem_of_omap in Hin as (j & Hj & Hju).
      destruct (verts (built vsz l) !! j) eqn:E'; [|done]. simpl in Hju.
      by simplify_eq.
Qed.

(** The index with each of its vertices: the search space of a search that
    looks at every vertex. *)
Lemma elem_of_space_built vsz (l : list (FusedVert Sig)) keys i u :
  (i, u) ∈ space (built vsz l) keys <->
  l !! i = Some u /\ voxel_of vsz u.1.1 ∈ keys.
Proof.
  rewrite elem_of_space, built_verts. split.
  - intros (k & Hk & Hi & Hu). split; [done|].
    apply built_bucket_elem in Hi as (u' & Hu' & <-). congruence.
  - intros (Hu & Hk). exists (voxel_of vsz u.1.1). split; [done|]. split; [|done].
    apply built_bucket_elem. by exists u.
Qed.

(** *** The candidates found in a search space *)

Lemma potential_verts_filter (sp : list (nat * FusedVert Sig)) eps p sg :
  potential_verts sp p sg (eps * eps) =
  (fun iu : nat * FusedVert Sig => (iu.1, rounded_norm iu.2.1.2, iu.2.1.1))
    <$> filter (fun iu => is_close eps p sg iu.2 = true) sp.
Proof.
  induction sp as [|[i [[q n] sg']] sp IH]; simpl; [done|].
  rewrite filter_cons, IH.
  case_decide as Hc; unfold is_close in Hc; simpl in Hc.
  - by rewrite Hc.
  - apply not_true_is_false in Hc. by rewrite Hc.
Qed.

Lemma length_potential_verts (sp : list (nat * FusedVert Sig)) eps p sg :
  length (potential_verts sp p sg (eps * eps)) =
  length (filter (fun iu => is_close eps p sg iu.2 = true) sp).
Proof. by rewrite potential_verts_filter, length_fmap. Qed.

Lemma elem_of_imap_pair {A} (l : list A) i a : (i, a) ∈ imap pair l <-> l !! i = Some a.
Proof.
  rewrite elem_of_lookup_imap. split.
  - by intros (j & b & [= -> ->] & Hl).
  - intros Hl. by exists i, a.
Qed.

Lemma NoDup_imap_pair {A} (l : list A) : NoDup (imap pair l).
Proof.
  apply NoDup_fmap_1 with (f := fst).
  rewrite fmap_imap. change (NoDup (imap (fun (j : nat) (_ : A) => j) l)).
  rewrite (imap_seq_0 l (fun j => j)), list_fmap_id. apply NoDup_seq.
Qed.

Lemma filter_imap_pair {A} (P : A -> Prop) `{forall a, Decision (P a)} (l : list A) :
  (filter (fun ia : nat * A => P ia.2) (imap pair l)).*2 = filter P l.
Proof.
  assert (forall (f : nat -> nat),
    (filter (fun ia : nat * A => P ia.2) (imap (fun j => pair (f j)) l)).*2 = filter P l)
    as Hgen.
  { induction l as [|a l IH]; intros f; simpl; [done|].
    rewrite !filter_cons. simpl. destruct (decide (P a)); simpl.
    - f_equal. apply (IH (f ∘ S)).
    - apply (IH (f ∘ S)). }
  apply (Hgen id).
Qed.

(** In an index made by [add] calls with a voxel size above [pos_epsilon],
    the block scanned around the voxel of a point holds every vertex of the
    index that passes the test for that point: the candidates found in the
    block are as many as the vertices of the whole index that pass. *)
Lemma length_potential_verts_built vsz eps (l : list (FusedVert Sig)) p sg :
  (0 <= eps)%Q -> (eps < vsz)%Q ->
  length (potential_verts (space (built vsz l) (neighbourhood (voxel_of vsz p)))
            p sg (eps * eps))
  = count_close eps p sg l.
Proof.
  intros Heps Hlt. rewrite length_potential_verts. unfold count_close.
  rewrite <- (filter_imap_pair (fun u => is_close eps p sg u = true) l), length_fmap.
  apply Permutation_length, NoDup_Permutation.
  - apply NoDup_filter, NoDup_space, NoDup_neighbourhood.
  - apply NoDup_filter, NoDup_imap_pair.
  - intros [i u]. rewrite !list_elem_of_filter, elem_of_space_built, elem_of_imap_pair.
    simpl. split; [tauto|]. intros [Hc Hl]. split; [done|]. split; [done|].
    unfold is_close in Hc. apply andb_true_iff in Hc as [_ Hd].
    apply Qltb_lt in Hd. by eapply voxel_of_near.
Qed.


(** The indices of the candidates found in the block around a point. *)
Lemma elem_of_potential_verts_built vsz eps (l : list (FusedVert Sig)) p sg j :
  (0 <= eps)%Q -> (eps < vsz)%Q ->
  j ∈ map (fun c : Candidate => c.1.1)
        (potential_verts (space (built vsz l) (neighbourhood (voxel_of vsz p)))
           p sg (eps * eps)) <->
  exists u, l !! j = Some u /\ is_close eps p sg u = true.
Proof.
  intros Heps Hlt. rewrite potential_verts_filter.
  change (map ?f ?l) with (f <$> l). rewrite <- list_fmap_compose, list_elem_of_fmap.
  split.
  - intros ([i u] & -> & Hin). apply list_elem_of_filter in Hin as [Hc Hin].
    apply elem_of_space_built in Hin as [Hl _]. by exists u.
  - intros (u & Hl & Hc). exists (j, u). split; [done|].
    apply list_elem_of_filter. split; [done|].
    apply elem_of_space_built. split; [done|].
    unfold is_close in Hc. apply andb_true_iff in Hc as [_ Hd].
    apply Qltb_lt in Hd. by eapply voxel_of_near.
Qed.

End Geometry.

(** *** The loop of [check_one_to_one] on two indexes made by [add] calls *)

Section Scan.
Context {Sig : Type} `{EqDecision Sig}.
Implicit Types v u : FusedVert Sig.
Implicit Types acc : Acc (Sig := Sig).
Variables (vsz eps : Q) (l1 l2 : list (FusedVert Sig)).
Hypothesis (Heps : (0 <= eps)%Q) (Hlt : (eps < vsz)%Q).

Local Abbreviation ix1 := (built vsz l1).
Local Abbreviation ix2 := (built vsz l2).
Local Abbreviation c1 := (fun p sg => count_close eps p sg l1).
Local Abbreviation c2 := (fun p sg => count_close eps p sg l2).
Local Abbreviation no_equiv := (fun v : FusedVert Sig => c2 v.1.1 v.2 = 0%nat).
Local Abbreviation unfused :=
  (fun v : FusedVert Sig => c2 v.1.1 v.2 <> 0%nat /\ (c1 v.1.1 v.2 < c2 v.1.1 v.2)%nat).
Local Abbreviation subject := (fun e : Unfused (Sig := Sig) => (e.1.1.1, e.1.1.2)).
Local Abbreviation counts_ok :=
  (fun e : Unfused (Sig := Sig) =>
     length e.1.2 = c1 e.1.1.1 e.1.1.2 /\ length e.2 = c2 e.1.1.1 e.1.1.2).

Lemma classify_built acc v :
  let k := voxel_of vsz v.1.1 in
  let acc' := classify (space ix2 (neighbourhood k)) (space ix1 (neighbourhood k))
                (eps * eps) acc v in
  has_no_equiv_in_other acc'
    = has_no_equiv_in_other acc ++ filter no_equiv [v] /\
  subject <$> was_unfused_in_other acc'
    = (subject <$> was_unfused_in_other acc)
      ++ ((fun v : FusedVert Sig => (v.1.1, v.2)) <$> filter unfused [v]) /\
  (Forall counts_ok (was_unfused_in_other acc) ->
   Forall counts_ok (was_unfused_in_other acc')) /\
  (forall j, j ∈ counted_other_verts acc' <->
     j ∈ counted_other_verts acc \/
     exists u, l2 !! j = Some u /\ is_close eps v.1.1 v.2 u = true).
Proof.
  destruct v as [[p n] sg]. intros k acc'. cbn [fst snd] in k, acc' |- *.
  pose proof (length_potential_verts_built vsz eps l1 p sg Heps Hlt) as Hc1.
  pose proof (length_potential_verts_built vsz eps l2 p sg Heps Hlt) as Hc2.
  pose proof (fun j => elem_of_potential_verts_built vsz eps l2 p sg j Heps Hlt) as Hj.
  fold k in Hc1, Hc2, Hj.
  assert (forall j, j ∈ counted_other_verts acc' <->
            j ∈ counted_other_verts acc \/
            exists u, l2 !! j = Some u /\ is_close eps p sg u = true) as Hcounted.
  { intros j. rewrite <- Hj. subst acc'. unfold classify.
    destruct (_ =? _)%nat; [|destruct (_ <? _)%nat]; simpl;
      rewrite elem_of_union, elem_of_list_to_set; done. }
  split; [|split; [|split; [|exact Hcounted]]]; clear Hcounted Hj;
    subst acc'; unfold classify; rewrite ?filter_cons, ?filter_nil; cbn [fst snd];
    (destruct (length (potential_verts (space ix2 (neighbourhood k)) p sg (eps * eps))
               =? 0)%nat eqn:E0;
     [apply Nat.eqb_eq in E0
     |apply Nat.eqb_neq in E0;
      destruct (length (potential_verts (space ix1 (neighbourhood k)) p sg (eps * eps))
                <? length (potential_verts (space ix2 (neighbourhood k)) p sg (eps * eps)))%nat
        eqn:E1; [apply Nat.ltb_lt in E1 | apply Nat.ltb_ge in E1]]);
    cbn [has_no_equiv_in_other was_unfused_in_other];
    rewrite ?Hc1, ?Hc2 in *; repeat case_decide;
    rewrite ?fmap_app, ?app_nil_r; try done; try lia; try tauto.
  intros Hall. apply Forall_app. split; [done|]. apply Forall_singleton.
  cbn [fst snd]. by rewrite Hc1, Hc2.
Qed.

Lemma filter_elem_iff {A} (P1 P2 : A -> Prop) `{forall x, Decision (P1 x)}
    `{forall x, Decision (P2 x)} (l : list A) :
  (forall x, x ∈ l -> P1 x <-> P2 x) -> filter P1 l = filter P2 l.
Proof.
  induction l as [|a l IH]; intros Hiff; [done|].
  rewrite !filter_cons, IH by (intros x Hx; apply Hiff; by right).
  destruct (decide (P1 a)) as [Ha|Ha], (decide (P2 a)) as [Ha'|Ha']; try done.
  - exfalso. apply Ha'. apply Hiff; [left | done].
  - exfalso. apply Ha. apply Hiff; [left | done].
Qed.

(** The vertices of one bucket. *)
Lemma fold_classify_built k (vs : list (FusedVert Sig)) acc :
  Forall (fun v => voxel_of vsz v.1.1 = k) vs ->
  let acc' := foldl (classify (space ix2 (neighbourhood k)) (space ix1 (neighbourhood k))
                       (eps * eps)) acc vs in
  has_no_equiv_in_other acc'
    = has_no_equiv_in_other acc ++ filter no_equiv vs /\
  subject <$> was_unfused_in_other acc'
    = (subject <$> was_unfused_in_other acc)
      ++ ((fun v : FusedVert Sig => (v.1.1, v.2)) <$> filter unfused vs) /\
  (Forall counts_ok (was_unfused_in_other acc) ->
   Forall counts_ok (was_unfused_in_other acc')) /\
  (forall j, j ∈ counted_other_verts acc' <->
     j ∈ counted_other_verts acc \/
     exists v u, v ∈ vs /\ l2 !! j = Some u /\ is_close eps v.1.1 v.2 u = true).
Proof.
  intros Hvs. revert acc. induction Hvs as [|v vs Hk _ IH]; intros acc; cbn [foldl].
  - rewrite !filter_nil. simpl. rewrite !app_nil_r. repeat split; try done.
    + by left.
    + intros [?|(v & u & Hv & _)]; [done|]. by apply not_elem_of_nil in Hv.
  - pose proof (classify_built acc v) as Hstep. rewrite Hk in Hstep. cbv zeta in Hstep.
    destruct Hstep as (S1 & S2 & S3 & S4).
    destruct (IH (classify (space ix2 (neighbourhood k)) (space ix1 (neighbourhood k))
                    (eps * eps) acc v)) as (I1 & I2 & I3 & I4).
    cbv zeta in *. rewrite I1, I2, S1, S2.
    rewrite (filter_cons _ v vs), (filter_cons (fun v => _ /\ _) v vs).
    rewrite !filter_cons, !filter_nil in *.
    split; [|split; [|split]].
    + rewrite <- app_assoc. f_equal. repeat case_decide; done.
    + rewrite <- app_assoc. f_equal. repeat case_decide; done.
    + intros Hall. by apply I3, S3.
    + intros j. rewrite I4, S4. split.
      * intros [[Hj|(u & Hu & Hc)]|(v' & u & Hv' & Hu & Hc)].
        -- by left.
        -- right. exists v, u. split; [left | done].
        -- right. exists v', u. split; [by right | done].
      * intros [Hj|(v' & u & Hv' & Hu & Hc)]; [by left; left|].
        apply elem_of_cons in Hv' as [->|Hv'].
        -- left. right. by exists u.
        -- right. by exists v', u.
Qed.

(** The items of [self.voxels]. *)
Lemma scan_built (items : list (Voxel * list nat)) acc :
  (forall k vs, (k, vs) ∈ items ->
     Forall (fun i => exists v, l1 !! i = Some v /\ voxel_of vsz v.1.1 = k) vs) ->
  let acc' := scan ix1 ix2 (eps * eps) items acc in
  let all := omap (fun i => l1 !! i) (items ≫= snd) in
  has_no_equiv_in_other acc'
    = has_no_equiv_in_other acc ++ filter no_equiv all /\
  subject <$> was_unfused_in_other acc'
    = (subject <$> was_unfused_in_other acc)
      ++ ((fun v : FusedVert Sig => (v.1.1, v.2)) <$> filter unfused all) /\
  (Forall counts_ok (was_unfused_in_other acc) ->
   Forall counts_ok (was_unfused_in_other acc')) /\
  (forall j, j ∈ counted_other_verts acc' <->
     j ∈ counted_other_verts acc \/
     exists v u, v ∈ all /\ l2 !! j = Some u /\ is_close eps v.1.1 v.2 u = true).
Proof.
  revert acc. induction items as [|[k vs] items IH]; intros acc Hitems.
  - simpl. rewrite !filter_nil. simpl. rewrite !app_nil_r. repeat split; try done.
    + by left.
    + intros [?|(v & u & Hv & _)]; [done|]. by apply not_elem_of_nil in Hv.
  - rewrite scan_cons. rewrite built_verts.
    assert (Forall (fun v => voxel_of vsz v.1.1 = k) (omap (fun i => l1 !! i) vs)) as Hvs.
    { apply Forall_forall. intros v Hv. apply list_elem_of_omap in Hv as (i & Hi & Hl).
      pose proof (Hitems k vs ltac:(left)) as Hall.
      apply (proj1 (Forall_forall _ _) Hall) in Hi as (v' & Hv' & Hk). congruence. }
    destruct (fold_classify_built k _ acc Hvs) as (S1 & S2 & S3 & S4).
    destruct (IH (foldl (classify (space ix2 (neighbourhood k)) (space ix1 (neighbourhood k))
                           (eps * eps)) acc (omap (fun i => l1 !! i) vs)))
      as (I1 & I2 & I3 & I4).
    { intros k' vs' Hin. apply Hitems. by right. }
    cbv zeta in *. rewrite I1, I2, S1, S2.
    change (((k, vs) :: items) ≫= snd) with (vs ++ (items ≫= snd)).
    rewrite omap_app, !filter_app, fmap_app, <- !app_assoc.
    split; [done|]. split; [done|]. split; [intros Hall; by apply I3, S3|].
    intros j. rewrite I4, S4. split.
    + intros [[Hj|(v & u & Hv & Hu & Hc)]|(v & u & Hv & Hu & Hc)].
      * by left.
      * right. exists v, u. split; [apply elem_of_app; by left | done].
      * right. exists v, u. split; [apply elem_of_app; by right | done].
    + intros [Hj|(v & u & Hv & Hu & Hc)]; [by left; left|].
      apply elem_of_app in Hv as [Hv|Hv].
      * left. right. by exists v, u.
      * right. by exists v, u.
Qed.


(** The buckets of the items, one after the other, hold every index once. *)
Lemma built_item vsz' (l : list (FusedVert Sig)) k vs :
  (k, vs) ∈ voxels (built vsz' l) -> bucket_of (built vsz' l) k = vs.
Proof.
  intros Hin. unfold bucket_of.
  by rewrite (dict_elem_get_NoDup _ _ _ (built_keys_distinct vsz' l) Hin).
Qed.

Lemma built_items_Permutation vsz' (l : list (FusedVert Sig)) :
  voxels (built vsz' l) ≫= snd ≡ₚ seq 0 (length l).
Proof.
  apply NoDup_Permutation.
  - apply NoDup_bind.
    + intros [k1 vs1] [k2 vs2] i H1 H2 Hi1 Hi2. simpl in Hi1, Hi2.
      pose proof (built_item _ _ _ _ H1) as B1. pose proof (built_item _ _ _ _ H2) as B2.
      rewrite <- B1 in Hi1. rewrite <- B2 in Hi2.
      apply built_bucket_elem in Hi1 as (u1 & Hu1 & <-), Hi2 as (u2 & Hu2 & <-).
      assert (u1 = u2) as -> by congruence. congruence.
    + intros [k vs] Hin. simpl. rewrite <- (built_item _ _ _ _ Hin).
      apply built_bucket_NoDup.
    + eapply NoDup_fmap_1. apply (built_keys_distinct vsz' l).
  - apply NoDup_seq.
  - intros i. rewrite list_elem_of_bind, elem_of_seq. split.
    + intros ([k vs] & Hi & Hin). simpl in Hi. rewrite <- (built_item _ _ _ _ Hin) in Hi.
      apply built_bucket_elem in Hi as (u & Hu & _). apply lookup_lt_Some in Hu. lia.
    + intros [_ Hi]. destruct (built_buckets_cover vsz' l i) as [k Hk].
      { rewrite built_verts. lia. }
      exists (k, bucket_of (built vsz' l) k). split; [done|].
      unfold bucket_of in *. destruct (dict_get (voxels (built vsz' l)) k) eqn:Hg.
      * by apply dict_get_Some_elem.
      * by apply not_elem_of_nil in Hk.
Qed.

Lemma omap_ext_elem {A B} (f g : A -> option B) (l : list A) :
  (forall x, x ∈ l -> f x = g x) -> omap f l = omap g l.
Proof.
  induction l as [|a l IH]; intros Hfg; simpl; [done|].
  rewrite (Hfg a) by left.
  assert (omap f l = omap g l) as Hrec by (apply IH; intros x Hx; apply Hfg; by right).
  destruct (g a); [f_equal|]; exact Hrec.
Qed.

Lemma omap_lookup_seq {A} (l : list A) : omap (fun i => l !! i) (seq 0 (length l)) = l.
Proof.
  induction l as [|a l IH] using rev_ind; [done|].
  rewrite length_app. simpl. rewrite Nat.add_1_r, seq_S, omap_app. simpl.
  rewrite lookup_app_r, Nat.sub_diag by lia. simpl. f_equal.
  rewrite <- IH at 2. apply omap_ext_elem.
  intros i Hi%elem_of_seq. apply lookup_app_l. lia.
Qed.

Lemma omap_filter_seq {A} (P : nat -> Prop) (Q : A -> Prop)
    `{forall j, Decision (P j)} `{forall a, Decision (Q a)} (l : list A) :
  (forall j a, l !! j = Some a -> P j <-> Q a) ->
  omap (fun j => l !! j) (filter P (seq 0 (length l))) = filter Q l.
Proof.
  induction l as [|a l IH] using rev_ind; intros HPQ; [done|].
  rewrite length_app. simpl. rewrite Nat.add_1_r, seq_S, !filter_app, omap_app. simpl.
  f_equal.
  - rewrite <- IH.
    + apply omap_ext_elem.
      intros i Hi%list_elem_of_filter. destruct Hi as [_ Hi%elem_of_seq].
      apply lookup_app_l. lia.
    + intros j b Hj. apply HPQ. by apply lookup_app_l_Some.
  - assert ((l ++ [a]) !! length l = Some a) as Hl
      by (by rewrite lookup_app_r, Nat.sub_diag by lia).
    rewrite !filter_cons, !filter_nil.
    pose proof (HPQ _ _ Hl) as Hiff.
    destruct (decide (P (length l))), (decide (Q a)); simpl; rewrite ?Hl; tauto.
Qed.

Lemma filter_all {A} (P : A -> Prop) `{forall x, Decision (P x)} (l : list A) :
  (forall x, P x) -> filter P l = l.
Proof.
  intros HP. induction l as [|a l IH]; [done|].
  by rewrite filter_cons, decide_True, IH.
Qed.

(** Two indexes made by [add] calls and compared: the run, and the result
    as computed on the two values. *)
Lemma build_build_check w vsz' (m1 m2 : list (FusedVert Sig)) pos_epsilon :
  ~ (vsz' == 0)%Q -> (pos_epsilon < vsz')%Q ->
  (s ← build vsz' m1; o ← build vsz' m2; check_one_to_one s o pos_epsilon) w
  = (Ok (one_to_one (built vsz' m1) (built vsz' m2) pos_epsilon),
     with_obj (allocated (allocated w (built vsz' m1)) (built vsz' m2))
       (S (length (heap w)))
       (foldl probed (built vsz' m2) (probes (voxels (built vsz' m1))))).
Proof.
  intros Hvs Hlt'.
  erewrite bind_Ok by (by apply build_spec).
  erewrite bind_Ok.
  2:{ rewrite build_spec by done. simpl. rewrite length_app. simpl. reflexivity. }
  replace (length (heap w) + 1)%nat with (S (length (heap w))) by lia.
  apply (check_one_to_one_spec _ _ _ (built vsz' m1) (built vsz' m2)).
  - lia.
  - by apply allocated_lookup_old, allocated_lookup_new.
  - replace (S (length (heap w)))
      with (length (heap (allocated w (built vsz' m1)))).
    + apply allocated_lookup_new.
    + simpl. rewrite length_app. simpl. lia.
  - apply built_buckets_valid.
  - apply built_buckets_valid.
  - rewrite !built_voxel_size. by apply Qeq_bool_iff.
  - rewrite built_voxel_size. by apply Qltb_lt.
Qed.


(** The result of the comparison, in terms of the vertices of the two
    indexes. *)
Lemma check_one_to_one_exhaustive w :
  exists a b c w',
    (self ← build vsz l1; other ← build vsz l2; check_one_to_one self other eps) w
      = (Ok (a, b, c), w') /\
    a ≡ₚ filter no_equiv l1 /\
    subject <$> b ≡ₚ (fun v : FusedVert Sig => (v.1.1, v.2)) <$> filter unfused l1 /\
    Forall counts_ok b /\
    c = filter (fun u => Forall (fun v : FusedVert Sig =>
                                   is_close eps v.1.1 v.2 u = false) l1) l2.
Proof.
  assert (~ (vsz == 0)%Q) as Hvs by (intros Hq; rewrite Hq in Hlt; lra).
  rewrite (build_build_check w vsz l1 l2 eps Hvs Hlt). unfold one_to_one.
  destruct (scan_built (voxels ix1)
              {| has_no_equiv_in_other := []; was_unfused_in_other := [];
                 counted_other_verts := ∅ |}) as (H1 & H2 & H3 & H4).
  { intros k vs Hin. apply Forall_forall. intros i Hi.
    rewrite <- (built_item _ _ _ _ Hin) in Hi. by apply built_bucket_elem in Hi. }
  cbv zeta in H1, H2, H3, H4. simpl in H1, H2, H3.
  assert (omap (fun i => l1 !! i) (voxels ix1 ≫= snd) ≡ₚ l1) as Hall.
  { rewrite built_items_Permutation. by rewrite omap_lookup_seq. }
  eexists _, _, _, _. split; [reflexivity|].
  split; [by rewrite H1, Hall|].
  split; [by rewrite H2, Hall|].
  split; [by apply H3|].
  rewrite built_verts. apply omap_filter_seq.
  intros j u Hu. rewrite H4, Forall_forall. split.
  - intros Hnot v Hv. destruct (is_close eps v.1.1 v.2 u) eqn:Hc; [|done].
    exfalso. apply Hnot. right. exists v, u. split; [|done]. by rewrite Hall.
  - intros Hnone [Hj|(v & u' & Hv & Hu' & Hc)]; [by apply not_elem_of_empty in Hj|].
    rewrite Hall in Hv. assert (u' = u) as -> by congruence.
    by rewrite (Hnone v Hv) in Hc.
Qed.

End Scan.

Section Results.
Context {Sig : Type} `{EqDecision Sig}.
Implicit Types w : World Sig.
Implicit Types v u : FusedVert Sig.

(** [check_one_to_one] finds what an exhaustive search finds.  For two
    indexes made by [add] calls with one voxel size [vsz] and
    [0 <= pos_epsilon < vsz], the call returns, and with "close to [v]" for
    the vertices that have the bone weights of [v] and lie at a squared
    distance below [pos_epsilon ** 2] from it:
    - [has_no_equiv_in_other] holds, up to order, the vertices of [self]
      with no close vertex in the whole of [other];
    - [was_unfused_in_other] has one entry, up to order, for each vertex of
      [self] that has a close vertex in [other] and fewer close vertices in
      [self] than in [other], and the two candidate lists of an entry hold as
      many candidates as there are close vertices in the whole of [self] and
      of [other];
    - [other_vs_with_no_equiv_in_self] holds, in the order of [other], the
      vertices of [other] that are close to no vertex of [self]. *)
Theorem check_one_to_one_searches_all w vsz pos_epsilon (l1 l2 : list (FusedVert Sig)) :
  (0 <= pos_epsilon)%Q -> (pos_epsilon < vsz)%Q ->
  exists a b c w',
    (self ← build vsz l1; other ← build vsz l2;
     check_one_to_one self other pos_epsilon) w = (Ok (a, b, c), w') /\
    a ≡ₚ filter (fun v => count_close pos_epsilon v.1.1 v.2 l2 = 0%nat) l1 /\
    (fun e : Unfused => (e.1.1.1, e.1.1.2)) <$> b
      ≡ₚ (fun v => (v.1.1, v.2))
           <$> filter (fun v => count_close pos_epsilon v.1.1 v.2 l2 <> 0%nat /\
                                (count_close pos_epsilon v.1.1 v.2 l1
                                 < count_close pos_epsilon v.1.1 v.2 l2)%nat) l1 /\
    Forall (fun e : Unfused =>
              length e.1.2 = count_close pos_epsilon e.1.1.1 e.1.1.2 l1 /\
              length e.2 = count_close pos_epsilon e.1.1.1 e.1.1.2 l2) b /\
    c = filter (fun u => Forall (fun v => is_close pos_epsilon v.1.1 v.2 u = false) l1) l2.
Proof. intros Heps Hlt. by apply check_one_to_one_exhaustive. Qed.

(** The empty index on either side.  With [0 <= pos_epsilon < vsz]:
    comparing the empty index with an index made by [add] calls returns
    every vertex of that index, in order, as [other_vs_with_no_equiv_in_self]
    and writes nothing into it; comparing an index made by [add] calls with
    the empty index returns each of its vertices once as
    [has_no_equiv_in_other]. *)
Theorem check_one_to_one_empty_index w vsz pos_epsilon (l : list (FusedVert Sig)) :
  (0 <= pos_epsilon)%Q -> (pos_epsilon < vsz)%Q ->
  (self ← build vsz []; other ← build vsz l; check_one_to_one self other pos_epsilon) w
    = (Ok ([], [], l), allocated (allocated w (built vsz [])) (built vsz l)) /\
  exists a w',
    (self ← build vsz l; other ← build vsz []; check_one_to_one self other pos_epsilon) w
      = (Ok (a, [], []), w') /\
    a ≡ₚ l.
Proof.
  intros Heps Hlt.
  assert (~ (vsz == 0)%Q) as Hvs by (intros Hq; rewrite Hq in Hlt; lra).
  split.
  - destruct (check_one_to_one_exhaustive vsz pos_epsilon [] l Heps Hlt w)
      as (a & b & c & w' & Hrun & Ha & Hb & _ & Hc).
    rewrite Hrun. rewrite build_build_check in Hrun by done.
    apply (f_equal snd) in Hrun. simpl in Hrun. subst w'.
    rewrite filter_nil in Ha. apply Permutation_nil_r in Ha as ->.
    rewrite filter_nil in Hb. change ((fun v : FusedVert Sig => (v.1.1, v.2)) <$> []) with
      (@nil (Vec3 * Sig)) in Hb.
    apply Permutation_nil_r in Hb. apply fmap_nil_inv in Hb. subst b.
    f_equal.
    + rewrite Hc. do 2 f_equal. apply filter_all. intros u. apply Forall_nil_2.
    + apply with_obj_id.
      change (foldl probed (built vsz l) (probes (voxels (built vsz [])))) with (built vsz l).
      replace (S (length (heap w))) with (length (heap (allocated w (built vsz [])))).
      * apply allocated_lookup_new.
      * simpl. rewrite length_app. simpl. lia.
  - destruct (check_one_to_one_exhaustive vsz pos_epsilon l [] Heps Hlt w)
      as (a & b & c & w' & Hrun & Ha & Hb & _ & Hc).
    rewrite filter_nil in Hc. subst c.
    assert (b = []) as ->.
    { apply fmap_nil_inv with (f := fun e : Unfused (Sig := Sig) => (e.1.1.1, e.1.1.2)).
      apply Permutation_nil_r. rewrite Hb.
      rewrite (proj2 (filter_none _ l)); [done|].
      intros v _ [Hne _]. by apply Hne. }
    exists a, w'. split; [done|]. rewrite Ha.
    by rewrite filter_all.
Qed.


Lemma added_buckets_nonempty (o : FusedVertVoxelSet Sig) v :
  (forall k vs, (k, vs) ∈ voxels o -> vs <> []) ->
  forall k vs, (k, vs) ∈ voxels (added o v) -> vs <> [].
Proof.
  intros Hne k vs Hin. unfold added in Hin. simpl in Hin.
  apply dict_set_elem in Hin as [[= -> ->]|Hin]; [|by eapply Hne].
  intros Happ. by apply app_nil in Happ as [_ ?].
Qed.

Lemma built_buckets_nonempty vsz (l : list (FusedVert Sig)) k vs :
  (k, vs) ∈ voxels (built vsz l) -> vs <> [].
Proof.
  revert k vs. unfold built.
  assert (forall o : FusedVertVoxelSet Sig,
            (forall k vs, (k, vs) ∈ voxels o -> vs <> []) ->
            forall k vs, (k, vs) ∈ voxels (foldl added o l) -> vs <> []) as Hgen.
  { induction l as [|v l IH]; intros o Hne; simpl; [done|].
    by apply IH, added_buckets_nonempty. }
  apply Hgen. intros k vs Hin. by apply not_elem_of_nil in Hin.
Qed.

(** The index after [FusedVertVoxelSet(vsz)] and a sequence of [add] calls,
    for a voxel size other than zero: [verts] is the sequence of the added
    vertices, [len] is its length, the keys of [voxels] are distinct, no
    bucket is empty, and the index [i] of each vertex is stored once, in the
    bucket of the key obtained by truncating its position divided by the
    voxel size, and in no other. *)
Theorem build_buckets w vsz (l : list (FusedVert Sig)) :
  ~ (vsz == 0)%Q ->
  exists o,
    build vsz l w = (Ok (length (heap w)), allocated w o) /\
    len (length (heap w)) (allocated w o) = (Ok (length l), allocated w o) /\
    verts o = l /\
    voxel_size o = vsz /\
    NoDup (voxels o).*1 /\
    (forall k vs, (k, vs) ∈ voxels o -> vs <> []) /\
    (forall k, NoDup (bucket_of o k)) /\
    (forall i k, i ∈ bucket_of o k <->
       exists v, l !! i = Some v /\ voxel_of vsz v.1.1 = k).
Proof.
  intros Hvs. exists (built vsz l).
  split; [by apply build_spec|].
  split.
  { rewrite (len_spec _ (built vsz l)) by apply allocated_lookup_new.
    by rewrite built_verts. }
  split; [apply built_verts|].
  split; [apply built_voxel_size|].
  split; [apply (built_keys_distinct vsz l)|].
  split; [apply built_buckets_nonempty|].
  split; [apply built_bucket_NoDup|].
  apply built_bucket_elem.
Qed.

(** The constructor accepts the voxel size zero; the first [add] on such an
    index raises [ZeroDivisionError] and changes nothing, so that the
    construction with at least one vertex stops with the empty index. *)
Theorem add_zero_voxel_size w r (o : FusedVertVoxelSet Sig) pos norm sig :
  heap w !! r = Some o ->
  (voxel_size o == 0)%Q ->
  add r pos norm sig w = (Raise ZeroDivisionError, w) /\
  forall vs,
    build (voxel_size o) ((pos, norm, sig) :: vs) w
    = (Raise ZeroDivisionError, allocated w (built (voxel_size o) [])).
Proof.
  intros Hr Hz. apply Qeq_bool_iff in Hz.
  assert (forall w' r' o', heap w' !! r' = Some o' -> voxel_size o' = voxel_size o ->
            add r' pos norm sig w' = (Raise ZeroDivisionError, w')) as Hadd.
  { intros w' r' o' Hr' Hvs. unfold add.
    erewrite bind_Ok by (by apply get_obj_Some).
    erewrite bind_Raise; [done|]. unfold py_div. by rewrite Hvs, Hz. }
  split; [by eapply Hadd|].
  intros vs. unfold build.
  erewrite bind_Ok by apply init_spec.
  erewrite bind_Raise; [done|]. simpl.
  erewrite bind_Raise; [done|].
  apply (Hadd _ _ (built (voxel_size o) [])); [|done].
  simpl. by rewrite lookup_app_r, Nat.sub_diag.
Qed.

End Results.

End FusedSearch.

(** *** The theorems above at concrete indexes *)

(** The exhaustive-search theorem for the index of the vertex at the origin
    compared with the index of the vertex half a voxel below it, with the
    default voxel size and tolerance. *)
Lemma check_one_to_one_searches_all_witness :
  exists a b c w',
    (self ← Fused.build Fused.default_voxel_size [(origin, None, tt)];
     other ← Fused.build Fused.default_voxel_size [(below_origin, None, tt)];
     Fused.check_one_to_one self other Fused.default_pos_epsilon) empty_world
      = (Ok (a, b, c), w') /\
    a ≡ₚ filter (fun v : Fused.FusedVert unit =>
                   count_close Fused.default_pos_epsilon v.1.1 v.2
                     [(below_origin, None, tt)] = 0%nat)
                [(origin, None, tt)] /\
    (fun e : Fused.Unfused => (e.1.1.1, e.1.1.2)) <$> b
      ≡ₚ (fun v : Fused.FusedVert unit => (v.1.1, v.2))
           <$> filter (fun v : Fused.FusedVert unit =>
                         count_close Fused.default_pos_epsilon v.1.1 v.2
                           [(below_origin, None, tt)] <> 0%nat /\
                         (count_close Fused.default_pos_epsilon v.1.1 v.2
                            [(origin, None, tt)]
                          < count_close Fused.default_pos_epsilon v.1.1 v.2
                              [(below_origin, None, tt)])%nat)
                      [(origin, None, tt)] /\
    Forall (fun e : Fused.Unfused =>
              length e.1.2 = count_close Fused.default_pos_epsilon e.1.1.1 e.1.1.2
                               [(origin, None, tt)] /\
              length e.2 = count_close Fused.default_pos_epsilon e.1.1.1 e.1.1.2
                             [(below_origin, None, tt)]) b /\
    c = filter (fun u : Fused.FusedVert unit =>
                  Forall (fun v : Fused.FusedVert unit =>
                            is_close Fused.default_pos_epsilon v.1.1 v.2 u = false)
                         [(origin, None, tt)])
               [(below_origin, None, tt)].
Proof.
  apply (FusedSearch.check_one_to_one_searches_all empty_world Fused.default_voxel_size
           Fused.default_pos_epsilon [(origin, None, tt)] [(below_origin, None, tt)]).
  - by vm_compute.
  - reflexivity.
Defined.

(** The empty-index theorem for the index of the vertex at the origin. *)
Lemma check_one_to_one_empty_index_witness :
  (self ← Fused.build Fused.default_voxel_size [];
   other ← Fused.build Fused.default_voxel_size [(origin, None, tt)];
   Fused.check_one_to_one self other Fused.default_pos_epsilon) empty_world
    = (Ok ([], [], [(origin, None, tt)]),
       Fused.allocated (Fused.allocated empty_world
                          (Fused.built Fused.default_voxel_size []))
         (Fused.built Fused.default_voxel_size [(origin, None, tt)])) /\
  exists a w',
    (self ← Fused.build Fused.default_voxel_size [(origin, None, tt)];
     other ← Fused.build Fused.default_voxel_size [];
     Fused.check_one_to_one self other Fused.default_pos_epsilon) empty_world
      = (Ok (a, [], []), w') /\
    a ≡ₚ [(origin, None, tt)].
Proof.
  apply (FusedSearch.check_one_to_one_empty_index empty_world Fused.default_voxel_size
           Fused.default_pos_epsilon [(origin, None, tt)]).
  - by vm_compute.
  - reflexivity.
Defined.

(** The construction theorem for the two vertices at the origin and half a
    voxel below it. *)
Lemma build_buckets_witness :
  exists o,
    Fused.build Fused.default_voxel_size
      [(origin, None, tt); (below_origin, None, tt)] empty_world
      = (Ok (length (Fused.heap empty_world)), Fused.allocated empty_world o) /\
    Fused.len (length (Fused.heap empty_world)) (Fused.allocated empty_world o)
      = (Ok (length [(origin, @None Vec3, tt); (below_origin, None, tt)]),
         Fused.allocated empty_world o) /\
    Fused.verts o = [(origin, None, tt); (below_origin, None, tt)] /\
    Fused.voxel_size o = Fused.default_voxel_size /\
    NoDup (Fused.voxels o).*1 /\
    (forall k vs, (k, vs) ∈ Fused.voxels o -> vs <> []) /\
    (forall k, NoDup (Fused.bucket_of o k)) /\
    (forall i k, i ∈ Fused.bucket_of o k <->
       exists v : Fused.FusedVert unit,
         [(origin, None, tt); (below_origin, None, tt)] !! i = Some v /\
         Fused.voxel_of Fused.default_voxel_size v.1.1 = k).
Proof.
  apply (FusedSearch.build_buckets empty_world Fused.default_voxel_size
           [(origin, None, tt); (below_origin, None, tt)]).
  intros Hq. vm_compute in Hq. discriminate Hq.
Defined.

(** The zero-voxel-size theorem for the empty index with voxel size 0. *)
Lemma add_zero_voxel_size_witness :
  Fused.add 0%nat origin None tt
    {| Fused.heap := [Fused.built 0 []]; Fused.log := [] |}
    = (Raise ZeroDivisionError,
       {| Fused.heap := [Fused.built 0 []]; Fused.log := [] |}) /\
  forall vs,
    Fused.build (Fused.voxel_size (Fused.built (Sig := unit) 0 []))
      ((origin, None, tt) :: vs)
      {| Fused.heap := [Fused.built 0 []]; Fused.log := [] |}
    = (Raise ZeroDivisionError,
       Fused.allocated {| Fused.heap := [Fused.built 0 []]; Fused.log := [] |}
         (Fused.built (Fused.voxel_size (Fused.built (Sig := unit) 0 [])) [])).
Proof.
  apply (FusedSearch.add_zero_voxel_size
           {| Fused.heap := [Fused.built 0 []]; Fused.log := [] |} 0%nat
           (Fused.built 0 []) origin None tt).
  - reflexivity.
  - reflexivity.
Defined.

(** ** The fusion check in terms of the fused vertices *)

Module FusionMeaning.
Import FusedProps FusedBuilt FusedSelf FusedSearch DriverProps.

Section Meaning.
Context {Mesh AttrSet K Sig : Type}.
Context `{Countable K} `{EqDecision Sig} `{EqDecision AttrSet}.
Context `{!MeshData Mesh AttrSet K Sig}.
Implicit Types w : Fused.World Sig.

Lemma nonempty_length {A} (l : list A) : nonempty l = negb (length l =? 0)%nat.
Proof. by destruct l. Qed.

(** What [compare_same_layout_mesh_vertex_fusions] reports, in terms of the
    fused vertices of the two sides.  Call a fused vertex [u] close to [v]
    when it has the bone weights of [v] and lies within the default
    [pos_epsilon] of it.  The check counts the fused vertices of [src] with no
    close fused vertex in [dst], those with a close vertex in [dst] but fewer
    close vertices in [src] than in [dst], and the fused vertices of [dst]
    close to no fused vertex of [src]; these three counts are the ones of the
    fatal report, which is made exactly when one of them is not zero.  When
    all three are zero, the check returns [True], after a recoverable report
    if the numbers of fused vertices differ. *)
Theorem compare_fusions_meaning skinned src dst (error : ErrorReporter) context w :
  let l1 := fusion_output_records skinned src in
  let l2 := fusion_output_records skinned dst in
  let eps := Fused.default_pos_epsilon in
  let n_no_equiv :=
    length (filter (fun v => count_close eps v.1.1 v.2 l2 = 0%nat) l1) in
  let n_unfused :=
    length (filter (fun v => count_close eps v.1.1 v.2 l2 <> 0%nat /\
                             (count_close eps v.1.1 v.2 l1
                              < count_close eps v.1.1 v.2 l2)%nat) l1) in
  let n_dst_no_equiv :=
    length (filter (fun u => Forall (fun v : Fused.FusedVert Sig =>
                                       is_close eps v.1.1 v.2 u = false) l1) l2) in
  exists w',
    Fused.log w' = Fused.log w /\
    compare_same_layout_mesh_vertex_fusions skinned src dst error context w =
      if (n_no_equiv + n_unfused + n_dst_no_equiv =? 0)%nat then
        if (length l1 =? length l2)%nat then (Ok true, w')
        else (reply error Recoverable true,
              reported w' (mkEvent Recoverable context
                             (FusionCountsDontMatch (length l1) (length l2))))
      else
        (reply error Fatal false,
         reported w' (mkEvent Fatal context
                        (FusionsDontMatch (length l1) (length l2)
                           n_no_equiv n_unfused n_dst_no_equiv))).
Proof.
  intros l1 l2 eps n_no_equiv n_unfused n_dst_no_equiv.
  destruct (compare_fusions_run skinned src dst error context w) as [_ Hrun].
  cbv zeta in Hrun. fold l1 l2 in Hrun.
  destruct (check_one_to_one_exhaustive Fused.default_voxel_size eps l1 l2
              ltac:(by vm_compute) ltac:(reflexivity) w)
    as (a & b & c & w0 & Hcheck & Ha & Hb & _ & Hc).
  rewrite build_build_check in Hcheck;
    [|intros Hq; vm_compute in Hq; discriminate Hq | reflexivity].
  assert (Fused.one_to_one (Fused.built Fused.default_voxel_size l1)
            (Fused.built Fused.default_voxel_size l2) eps = (a, b, c)) as Hres
    by congruence.
  fold eps in Hrun. rewrite Hres in Hrun.
  rewrite !built_verts in Hrun.
  apply Permutation_length in Ha, Hb. rewrite !length_fmap in Hb.
  assert (length c = n_dst_no_equiv) as Hc' by (by rewrite Hc).
  assert (length a = n_no_equiv) as Ha' by exact Ha.
  assert (length b = n_unfused) as Hb' by exact Hb.
  rewrite !nonempty_length, Ha', Hb', Hc' in Hrun.
  clearbody n_no_equiv n_unfused n_dst_no_equiv.
  eexists. split; [|rewrite Hrun; clear Hrun].
  2:{ destruct n_no_equiv, n_unfused, n_dst_no_equiv; simpl;
        try (rewrite report_then_ret; reflexivity).
      destruct (length l1 =? length l2)%nat; simpl; [reflexivity|].
      rewrite report_then_ret. reflexivity. }
  done.
Qed.

End Meaning.
End FusionMeaning.

(** ** Comparing a mesh group, a node or a hierarchy with itself *)

Module SelfComparison.
Import FusedProps FusedBuilt FusedSelf DriverProps ReportProps DriverReports HierarchyProps.

Section Self.
Context {Mesh AttrSet K Sig : Type}.
Context `{Countable K} `{EqDecision Sig} `{EqDecision AttrSet}.
Context `{!MeshData Mesh AttrSet K Sig}.
Implicit Types w : Fused.World Sig.

(** What a report of a self-comparison can be: the recoverable report that
    approximate data differs, or the note that the meshes are identical. *)
Local Abbreviation self_report :=
  (fun ev : event =>
     (ev_severity ev = Recoverable /\
      exists n m p q, ev_message ev = ApproxDataDiffers n m p q) \/
     (ev_severity ev = Info /\ ev_message ev = FunctionallyIdentical)).

(** The runs of a self-comparison: only such reports, and without
    [vertices] no report and a normal return. *)
Local Abbreviation quiet :=
  (fun (vertices : bool) A (r : res A) (evs : list event) =>
     Forall self_report evs /\ (vertices = false -> evs = [] /\ exists a, r = Ok a)).

Lemma post_run {A} (m : Fused.M Sig A) (Q : res A -> list event -> Prop) w :
  post m Q -> exists evs, Fused.log (m w).2 = Fused.log w ++ evs /\ Q (m w).1 evs.
Proof. intros Hm. destruct (m w) as [r w'] eqn:Hrun. by apply (Hm w r w'). Qed.

Lemma post_bind_quiet {A B} vertices (m : Fused.M Sig A) (k : A -> Fused.M Sig B) :
  post m (quiet vertices A) -> (forall a, post (k a) (quiet vertices B)) ->
  post (m ≫= k) (quiet vertices B).
Proof.
  intros Hm Hk. eapply post_bind; [exact Hm | exact Hk | |]; simpl.
  - intros a evs1 r evs2 [F1 S1] [F2 S2]. split; [by apply Forall_app|].
    intros Hv. destruct (S1 Hv) as [-> _], (S2 Hv) as [-> Hr]. done.
  - intros e evs [F1 S1]. split; [done|]. intros Hv.
    destruct (S1 Hv) as [_ [a [=]]].
Qed.

Lemma post_ret_quiet {A} vertices (a : A) :
  post (Sig := Sig) (mret a) (quiet vertices A).
Proof. apply post_ret. split; [done|]. intros _. eauto. Qed.

Lemma same_buckets_refl (o : Fused.FusedVertVoxelSet Sig) : Fused.same_buckets o o.
Proof. done. Qed.

Lemma compare_fusions_self_run skinned ms (error : ErrorReporter) context w :
  exists w',
    compare_same_layout_mesh_vertex_fusions skinned ms ms error context w = (Ok true, w') /\
    Fused.log w' = Fused.log w.
Proof.
  destruct (compare_fusions_run skinned ms ms error context w) as [_ Hrun].
  cbv zeta in Hrun. rewrite Hrun.
  rewrite one_to_one_same;
    [|reflexivity | apply same_buckets_refl | apply built_buckets_valid
     |apply built_keys_distinct | apply built_buckets_cover].
  simpl. rewrite Nat.eqb_refl. simpl. eexists. split; [reflexivity | done].
Qed.

Lemma compare_meshes_self_run skinned ms (error : ErrorReporter) context w :
  let S := get_unique_verts skinned ms in
  compare_same_layout_meshes skinned ms ms error context w =
    if bool_decide (difference S S = ∅) then (Ok true, w)
    else (reply error Recoverable false,
          reported w (mkEvent Recoverable context
                        (ApproxDataDiffers (len S) (len S)
                           (size (difference S S)) (size (difference S S))))).
Proof.
  intros S. rewrite compare_same_layout_meshes_run. cbv zeta. fold S.
  rewrite exact_difference_self.
  rewrite (bool_decide_eq_true_2 (∅ = ∅ /\ ∅ = ∅)) by done.
  destruct (bool_decide_reflect (difference S S = ∅)) as [He|Hne].
  - by rewrite bool_decide_eq_true_2.
  - rewrite bool_decide_eq_false_2; [done|]. by intros [? _].
Qed.

(** A mesh group compared with itself.  [compare_same_layout_meshes] never
    reports that exact data differs: it returns [True] without a report when
    [difference] of the vertex set with itself is empty, and otherwise makes
    the one recoverable report that approximate data differs.
    [compare_same_layout_mesh_vertex_fusions] reports nothing and returns
    [True]. *)
Theorem compare_meshes_self skinned ms (error : ErrorReporter) context w :
  (let S := get_unique_verts skinned ms in
   compare_same_layout_meshes skinned ms ms error context w =
     if bool_decide (difference S S = ∅) then (Ok true, w)
     else (reply error Recoverable false,
           reported w (mkEvent Recoverable context
                         (ApproxDataDiffers (len S) (len S)
                            (size (difference S S)) (size (difference S S)))))) /\
  exists w',
    compare_same_layout_mesh_vertex_fusions skinned ms ms error context w = (Ok true, w') /\
    Fused.log w' = Fused.log w.
Proof.
  split; [apply compare_meshes_self_run | apply compare_fusions_self_run].
Qed.

(** The verdict of [compare_same_layout_meshes] does not depend on which
    side is the source: with the two mesh lists exchanged it returns the same
    value (or raises alike) and makes a report of the same severity. *)
Theorem compare_meshes_symmetric skinned src dst (error : ErrorReporter) context w :
  (compare_same_layout_meshes skinned src dst error context w).1
    = (compare_same_layout_meshes skinned dst src error context w).1 /\
  ev_severity <$> Fused.log (compare_same_layout_meshes skinned src dst error context w).2
    = ev_severity <$> Fused.log (compare_same_layout_meshes skinned dst src error context w).2.
Proof.
  rewrite !compare_same_layout_meshes_run. cbv zeta.
  set (S := get_unique_verts skinned src). set (D := get_unique_verts skinned dst).
  destruct (bool_decide_reflect (exact_difference S D = ∅ /\ exact_difference D S = ∅))
    as [[E1 E2]|He].
  - rewrite (bool_decide_eq_true_2 (exact_difference D S = ∅ /\ _)) by done.
    destruct (bool_decide_reflect (difference S D = ∅ /\ difference D S = ∅))
      as [[D1 D2]|Hd].
    + by rewrite (bool_decide_eq_true_2 (difference D S = ∅ /\ _)).
    + rewrite (bool_decide_eq_false_2 (difference D S = ∅ /\ _)) by tauto.
      simpl. by rewrite !fmap_app.
  - rewrite (bool_decide_eq_false_2 (exact_difference D S = ∅ /\ _)) by tauto.
    simpl. by rewrite !fmap_app.
Qed.

(** *** A node with itself *)

Lemma tuple_eqb_refl (a : list Q) : tuple_eqb a a = true.
Proof. induction a as [|x a IH]; simpl; [done|]. by rewrite Qeq_bool_refl, IH. Qed.

Lemma tuple2_eqb_refl (a : list (list Q)) : tuple2_eqb a a = true.
Proof. induction a as [|x a IH]; simpl; [done|]. by rewrite tuple_eqb_refl, IH. Qed.

Lemma compare_field_self {A} `{EqDecision A} vertices (n : GMDNode Mesh) error context f
    (fld : GMDNode Mesh -> A) :
  post (Sig := Sig) (compare_field n n error context f fld) (quiet vertices unit).
Proof.
  unfold compare_field. rewrite bool_decide_eq_false_2 by (intros Hne; by apply Hne).
  apply post_ret_quiet.
Qed.

Lemma compare_vec_field_self vertices (n : GMDNode Mesh) error context f fld :
  post (Sig := Sig) (compare_vec_field n n error context f fld) (quiet vertices unit).
Proof. unfold compare_vec_field. rewrite tuple_eqb_refl. apply post_ret_quiet. Qed.

Lemma compare_mat_field_self vertices (n : GMDNode Mesh) error context f fld :
  post (Sig := Sig) (compare_mat_field n n error context f fld) (quiet vertices unit).
Proof. unfold compare_mat_field. rewrite tuple2_eqb_refl. apply post_ret_quiet. Qed.

Lemma compare_meshes_self_post skinned ms error context :
  post (compare_same_layout_meshes skinned ms ms error context) (quiet true bool).
Proof.
  intros w r w'. rewrite compare_meshes_self_run. cbv zeta.
  destruct (bool_decide _).
  - intros [= <- <-]. exists []. rewrite app_nil_r. done.
  - intros [= <- <-]. eexists [_]. split; [done|]. split; [|done].
    apply Forall_singleton. left. simpl. eauto 10.
Qed.

Lemma for_attr_sets_self skinned (n : GMDNode Mesh) error context attrs identical :
  post (for_attr_sets skinned n n error context attrs identical) (quiet true bool).
Proof.
  revert identical. induction attrs as [|attr attrs IH]; intros identical; simpl.
  - apply post_ret_quiet.
  - apply post_bind_quiet; [apply compare_meshes_self_post|]. intros ok. apply IH.
Qed.

Lemma compare_fusions_self_post skinned ms error context :
  post (compare_same_layout_mesh_vertex_fusions skinned ms ms error context)
       (quiet true bool).
Proof.
  intros w r w' Hrun.
  destruct (compare_fusions_self_run skinned ms error context w) as (w1 & Hrun' & Hlog).
  rewrite Hrun' in Hrun. injection Hrun as <- <-.
  exists []. rewrite app_nil_r. done.
Qed.

Lemma compare_single_node_pair_self_post skinned vertices (n : GMDNode Mesh) error context :
  post (compare_single_node_pair skinned vertices n n error context)
       (quiet vertices unit).
Proof.
  unfold compare_single_node_pair.
  apply post_bind_quiet; [apply compare_field_self|]. intros _.
  do 5 (apply post_bind_quiet; [apply compare_vec_field_self|]; intros _).
  apply post_bind_quiet; [apply compare_field_self|]. intros _.
  apply post_bind_quiet.
  { destruct (negb _); [apply compare_mat_field_self | apply post_ret_quiet]. }
  intros _. rewrite bool_decide_eq_true_2 by done.
  destruct (bool_decide (node_type n = MatrixTransform)); [apply post_ret_quiet|].
  unfold sort_src_dest_lists.
  apply post_bind_quiet.
  { rewrite bool_decide_eq_false_2 by (intros Hne; by apply Hne). apply post_ret_quiet. }
  intros _. destruct vertices; [|apply post_ret_quiet].
  apply post_bind_quiet; [apply for_attr_sets_self|]. intros identical.
  apply post_bind_quiet; [apply compare_fusions_self_post|]. intros ok.
  destruct (if negb ok then false else identical); [|apply post_ret_quiet].
  apply post_report. split; [|done]. apply Forall_singleton. by right.
Qed.

(** *** A hierarchy with itself *)

Lemma for_zip_self skinned vertices error context (l : list (GMDNode Mesh)) :
  Forall (fun n => forall c,
            post (recursive_compare_children skinned vertices error n (children n) c)
                 (quiet vertices unit)) l ->
  post (for_zip (recursive_compare_children skinned vertices error)
          skinned vertices error context l l)
       (quiet vertices unit).
Proof.
  induction 1 as [|n l Hn _ IH]; simpl; [apply post_ret_quiet|].
  apply post_bind_quiet; [apply compare_single_node_pair_self_post|]. intros _.
  apply post_bind_quiet; [apply Hn|]. intros _. apply IH.
Qed.

Lemma recursive_compare_body_self skinned vertices error context (l : list (GMDNode Mesh)) :
  Forall (fun n => forall c,
            post (recursive_compare_children skinned vertices error n (children n) c)
                 (quiet vertices unit)) l ->
  post (recursive_compare_body (recursive_compare_children skinned vertices error)
          skinned vertices l l error context)
       (quiet vertices unit).
Proof.
  intros Hl. unfold recursive_compare_body.
  apply post_bind_quiet.
  { rewrite bool_decide_eq_false_2 by (intros Hne; by apply Hne). apply post_ret_quiet. }
  intros _. apply post_bind_quiet.
  { rewrite bool_decide_eq_false_2 by (intros Hne; by apply Hne). apply post_ret_quiet. }
  intros _. by apply for_zip_self.
Qed.

Lemma recursive_compare_children_self skinned vertices error (n : GMDNode Mesh) :
  forall c,
    post (recursive_compare_children skinned vertices error n (children n) c)
         (quiet vertices unit).
Proof.
  induction n as [n IH] using GMDNode_tree_ind. intros c.
  rewrite recursive_compare_children_eq. unfold recursive_compare_node_lists.
  by apply recursive_compare_body_self.
Qed.

Lemma recursive_compare_self_post skinned vertices error context (l : list (GMDNode Mesh)) :
  post (recursive_compare_node_lists skinned vertices l l error context)
       (quiet vertices unit).
Proof.
  unfold recursive_compare_node_lists. apply recursive_compare_body_self.
  apply Forall_forall. intros n _. apply recursive_compare_children_self.
Qed.

Lemma self_reports_not_aborting (error : ErrorReporter) {A} (r : res A) evs :
  aborts error Recoverable = false -> aborts error Info = false ->
  Forall self_report evs -> stops_at_abort error r evs -> exists a, r = Ok a.
Proof.
  intros HR HI Hall Hstop. destruct r as [a|e]; [by eauto|].
  destruct (Hstop e eq_refl) as (_ & evs' & ev & -> & Hab).
  apply Forall_app in Hall. destruct Hall as [Hpre Hev].
  rewrite Forall_singleton in Hev.
  destruct Hev as [Hev|Hev]; destruct Hev as [Hs _]; rewrite Hs in Hab; congruence.
Qed.

(** A node compared with itself: [compare_single_node_pair] reports no
    field, vector, matrix or attribute-set difference and nothing fatal; its
    only possible reports are recoverable reports that approximate data
    differs and the note that the meshes are identical; without [vertices] it
    reports nothing and returns; and a reporter that raises on fatal reports
    only lets it return. *)
Theorem compare_single_node_pair_self skinned vertices (n : GMDNode Mesh)
    (error : ErrorReporter) context w :
  let run := compare_single_node_pair skinned vertices n n error context w in
  exists evs,
    Fused.log run.2 = Fused.log w ++ evs /\
    Forall (fun ev =>
              (ev_severity ev = Recoverable /\
               exists n m p q, ev_message ev = ApproxDataDiffers n m p q) \/
              (ev_severity ev = Info /\ ev_message ev = FunctionallyIdentical)) evs /\
    (vertices = false -> evs = [] /\ run.1 = Ok tt) /\
    (aborts error Recoverable = false -> aborts error Info = false -> run.1 = Ok tt).
Proof.
  intros run. subst run.
  destruct (compare_single_node_pair skinned vertices n n error context w) as [r w'] eqn:Hrun.
  destruct (compare_single_node_pair_self_post skinned vertices n error context w r w' Hrun)
    as (evs & Hlog & Hall & Hsilent).
  destruct (compare_single_node_pair_stops skinned vertices n n error context w r w' Hrun)
    as (evs' & Hlog' & Hstop).
  assert (evs' = evs) as -> by (rewrite Hlog in Hlog'; by apply app_inv_head in Hlog').
  exists evs. simpl. split; [done|]. split; [done|]. split.
  - intros Hv. destruct (Hsilent Hv) as [-> [u ->]]. by destruct u.
  - intros HR HI.
    destruct (self_reports_not_aborting error r evs HR HI Hall Hstop) as [u ->].
    by destruct u.
Qed.

(** A hierarchy compared with itself: [recursive_compare_node_lists] on the
    same list of nodes on both sides reports nothing fatal, at any depth; its
    only possible reports are recoverable reports that approximate data
    differs and notes that meshes are identical; without [vertices] it
    reports nothing and returns; and a reporter that raises on fatal reports
    only lets it return. *)
Theorem recursive_compare_self skinned vertices (l : list (GMDNode Mesh))
    (error : ErrorReporter) context w :
  let run := recursive_compare_node_lists skinned vertices l l error context w in
  exists evs,
    Fused.log run.2 = Fused.log w ++ evs /\
    Forall (fun ev =>
              (ev_severity ev = Recoverable /\
               exists n m p q, ev_message ev = ApproxDataDiffers n m p q) \/
              (ev_severity ev = Info /\ ev_message ev = FunctionallyIdentical)) evs /\
    (vertices = false -> evs = [] /\ run.1 = Ok tt) /\
    (aborts error Recoverable = false -> aborts error Info = false -> run.1 = Ok tt).
Proof.
  intros run. subst run.
  destruct (recursive_compare_node_lists skinned vertices l l error context w)
    as [r w'] eqn:Hrun.
  destruct (recursive_compare_self_post skinned vertices error context l w r w' Hrun)
    as (evs & Hlog & Hall & Hsilent).
  destruct (recursive_compare_node_lists_stops skinned vertices l l error context w r w' Hrun)
    as (evs' & Hlog' & Hstop).
  assert (evs' = evs) as -> by (rewrite Hlog in Hlog'; by apply app_inv_head in Hlog').
  exists evs. simpl. split; [done|]. split; [done|]. split.
  - intros Hv. destruct (Hsilent Hv) as [-> [u ->]]. by destruct u.
  - intros HR HI.
    destruct (self_reports_not_aborting error r evs HR HI Hall Hstop) as [u ->].
    by destruct u.
Qed.

End Self.
End SelfComparison.

(** ** The shape of a run of the hierarchy comparison *)

Module RunShape.
Import FusedProps FusedBuilt FusedSelf DriverProps ReportProps DriverReports HierarchyProps.

Lemma string_app_assoc (a b c : string) : ((a ++ b) ++ c = a ++ (b ++ c))%string.
Proof.
  induction a as [|x a IH]; [done|].
  change (String x ((a ++ b) ++ c) = String x (a ++ (b ++ c)))%string. by rewrite IH.
Qed.

Lemma string_app_nil_r (a : string) : (a ++ "" = a)%string.
Proof.
  induction a as [|x a IH]; [done|].
  change (String x (a ++ "") = String x a)%string. by rewrite IH.
Qed.

Section Shape.
Context {Mesh AttrSet K Sig : Type}.
Context `{Countable K} `{EqDecision Sig} `{EqDecision AttrSet}.
Context `{!MeshData Mesh AttrSet K Sig}.
Implicit Types w : Fused.World Sig.

(** The reports are made under the context [c]: the context of each starts
    with [c]. *)
Local Abbreviation under :=
  (fun (c : string) A (_ : res A) (evs : list event) =>
     Forall (fun ev => exists s, ev_context ev = (c ++ s)%string) evs).

Lemma post_bind_under {A B} c (m : Fused.M Sig A) (k : A -> Fused.M Sig B) :
  post m (under c A) -> (forall a, post (k a) (under c B)) -> post (m ≫= k) (under c B).
Proof.
  intros Hm Hk. eapply post_bind; [exact Hm | exact Hk | |]; simpl.
  - intros a evs1 r evs2 F1 F2. by apply Forall_app.
  - done.
Qed.

Lemma post_ret_under {A} c (a : A) : post (Sig := Sig) (mret a) (under c A).
Proof. by apply post_ret. Qed.

Lemma post_report_under c error sev msg :
  post (Sig := Sig) (report error sev c msg) (under c unit).
Proof.
  apply post_report. apply Forall_singleton. exists "". simpl.
  by rewrite string_app_nil_r.
Qed.

Lemma post_under_longer {A} c t (m : Fused.M Sig A) :
  post m (under (c ++ t)%string A) -> post m (under c A).
Proof.
  intros Hm. eapply post_weaken; [exact Hm|]. cbv beta. intros r evs Hall.
  eapply Forall_impl; [exact Hall|]. cbv beta. intros ev [s Hs].
  exists (t ++ s)%string. rewrite Hs. apply string_app_assoc.
Qed.

Lemma compare_field_under {A} `{EqDecision A} (src dst : GMDNode Mesh) error c f
    (fld : GMDNode Mesh -> A) :
  post (Sig := Sig) (compare_field src dst error c f fld) (under c unit).
Proof.
  unfold compare_field. destruct (bool_decide _);
    [apply post_report_under | apply post_ret_under].
Qed.

Lemma compare_vec_field_under (src dst : GMDNode Mesh) error c f fld :
  post (Sig := Sig) (compare_vec_field src dst error c f fld) (under c unit).
Proof.
  unfold compare_vec_field. destruct (negb _); [|apply post_ret_under].
  destruct (Qltb _ _); apply post_report_under.
Qed.

Lemma compare_mat_field_under (src dst : GMDNode Mesh) error c f fld :
  post (Sig := Sig) (compare_mat_field src dst error c f fld) (under c unit).
Proof.
  unfold compare_mat_field. destruct (negb _); [|apply post_ret_under].
  destruct (Qltb _ _); apply post_report_under.
Qed.

Lemma compare_meshes_under skinned ms1 ms2 error c :
  post (compare_same_layout_meshes skinned ms1 ms2 error c) (under c bool).
Proof.
  unfold compare_same_layout_meshes. cbv zeta.
  destruct (_ || _).
  - apply post_bind_under; [apply post_report_under|]. intros _. apply post_ret_under.
  - destruct (_ || _); [|apply post_ret_under].
    apply post_bind_under; [apply post_report_under|]. intros _. apply post_ret_under.
Qed.

Lemma compare_fusions_under skinned ms1 ms2 error c :
  post (compare_same_layout_mesh_vertex_fusions skinned ms1 ms2 error c) (under c bool).
Proof.
  intros w r w' Hrun.
  destruct (compare_fusions_outcome skinned ms1 ms2 error c w)
    as (a & b & d & w3 & _ & Hlog & Hout).
  cbv zeta in Hout. rewrite Hout in Hrun. clear Hout.
  destruct (_ || _).
  - injection Hrun as <- <-. eexists [_]. simpl. rewrite Hlog. split; [done|].
    apply Forall_singleton. exists "". simpl. by rewrite string_app_nil_r.
  - destruct (negb _).
    + injection Hrun as <- <-. eexists [_]. simpl. rewrite Hlog. split; [done|].
      apply Forall_singleton. exists "". simpl. by rewrite string_app_nil_r.
    + injection Hrun as <- <-. exists []. rewrite app_nil_r. done.
Qed.

Lemma for_attr_sets_under skinned (src dst : GMDNode Mesh) error c attrs identical :
  post (for_attr_sets skinned src dst error c attrs identical) (under c bool).
Proof.
  revert identical. induction attrs as [|attr attrs IH]; intros identical; simpl.
  - apply post_ret_under.
  - apply post_bind_under; [|intros ok; apply IH].
    eapply post_under_longer. apply compare_meshes_under.
Qed.

Lemma compare_single_node_pair_under skinned vertices (src dst : GMDNode Mesh) error c :
  post (compare_single_node_pair skinned vertices src dst error c) (under c unit).
Proof.
  unfold compare_single_node_pair.
  apply post_bind_under; [apply compare_field_under|]. intros _.
  do 5 (apply post_bind_under; [apply compare_vec_field_under|]; intros _).
  apply post_bind_under; [apply compare_field_under|]. intros _.
  apply post_bind_under.
  { destruct (negb _); [apply compare_mat_field_under | apply post_ret_under]. }
  intros _. destruct (bool_decide (node_type src = node_type dst)); [|apply post_ret_under].
  destruct (bool_decide (node_type src = MatrixTransform)); [apply post_ret_under|].
  unfold sort_src_dest_lists.
  apply post_bind_under.
  { destruct (bool_decide _); [apply post_report_under | apply post_ret_under]. }
  intros _. destruct vertices; [|apply post_ret_under].
  apply post_bind_under; [apply for_attr_sets_under|]. intros identical.
  apply post_bind_under; [apply compare_fusions_under|]. intros ok.
  destruct (if negb ok then false else identical);
    [apply post_report_under | apply post_ret_under].
Qed.

Lemma for_zip_under self_call skinned vertices error c (src dst : list (GMDNode Mesh)) :
  Forall (fun n => forall d c', post (self_call n d c') (under c' unit)) src ->
  post (for_zip self_call skinned vertices error c src dst) (under c unit).
Proof.
  intros Hsrc. revert dst. induction Hsrc as [|n src Hn _ IH]; intros [|d dst]; simpl;
    try apply post_ret_under.
  apply post_bind_under.
  { eapply post_under_longer. apply compare_single_node_pair_under. }
  intros _. apply post_bind_under.
  { eapply post_under_longer. apply Hn. }
  intros _. apply IH.
Qed.

Lemma recursive_compare_body_under self_call skinned vertices error c
    (src dst : list (GMDNode Mesh)) :
  Forall (fun n => forall d c', post (self_call n d c') (under c' unit)) src ->
  post (recursive_compare_body self_call skinned vertices src dst error c)
       (under c unit).
Proof.
  intros Hsrc. unfold recursive_compare_body.
  apply post_bind_under.
  { destruct (bool_decide _); [apply post_report_under | apply post_ret_under]. }
  intros _. apply post_bind_under.
  { destruct (bool_decide _); [apply post_report_under | apply post_ret_under]. }
  intros _. by apply for_zip_under.
Qed.

Lemma recursive_compare_children_under skinned vertices error (n : GMDNode Mesh) :
  forall (dst : list (GMDNode Mesh)) c,
    post (recursive_compare_children skinned vertices error n dst c) (under c unit).
Proof.
  induction n as [n IH] using GMDNode_tree_ind. intros dst c.
  rewrite recursive_compare_children_eq. unfold recursive_compare_node_lists.
  by apply recursive_compare_body_under.
Qed.

(** Every report of [recursive_compare_node_lists], at any depth, is made
    under the context the function was called with: the context of each
    report starts with it. *)
Theorem recursive_compare_contexts skinned vertices (src dst : list (GMDNode Mesh))
    (error : ErrorReporter) context w :
  let run := recursive_compare_node_lists skinned vertices src dst error context w in
  exists evs,
    Fused.log run.2 = Fused.log w ++ evs /\
    Forall (fun ev => exists s, ev_context ev = (context ++ s)%string) evs.
Proof.
  intros run. subst run.
  destruct (recursive_compare_node_lists skinned vertices src dst error context w)
    as [r w'] eqn:Hrun.
  apply (recursive_compare_body_under
           (recursive_compare_children skinned vertices error)
           skinned vertices error context src dst) in Hrun; [done|].
  apply Forall_forall. intros n _. apply recursive_compare_children_under.
Qed.

(** The comparison itself raises nothing (mesh data being read without
    error): the only exception that leaves [recursive_compare_node_lists] is
    the one with which the reporter stops it, raised by the last report made;
    in particular no assertion of the voxel index fails.  With a reporter
    that never raises, the comparison returns. *)
Theorem recursive_compare_raises_only_abort skinned vertices
    (src dst : list (GMDNode Mesh)) (error : ErrorReporter) context w :
  let run := recursive_compare_node_lists skinned vertices src dst error context w in
  (forall e, run.1 = Raise e ->
     e = ReporterAbort /\
     exists evs ev,
       Fused.log run.2 = Fused.log w ++ evs ++ [ev] /\
       aborts error (ev_severity ev) = true) /\
  ((forall sev, aborts error sev = false) -> run.1 = Ok tt).
Proof.
  intros run. subst run.
  destruct (recursive_compare_node_lists skinned vertices src dst error context w)
    as [r w'] eqn:Hrun.
  destruct (recursive_compare_node_lists_stops skinned vertices src dst error context
              w r w' Hrun) as (evs & Hlog & Hstop).
  simpl. split.
  - intros e ->. destruct (Hstop e eq_refl) as (-> & evs' & ev & -> & Hab).
    split; [done|]. by exists evs', ev.
  - intros Hnever. destruct r as [u|e]; [by destruct u|].
    destruct (Hstop e eq_refl) as (_ & evs' & ev & _ & Hab).
    by rewrite Hnever in Hab.
Qed.

(** *** Vectors of different lengths *)

Lemma tuple_eqb_longer (a extra : list Q) :
  extra <> [] -> tuple_eqb a (a ++ extra) = false /\ tuple_eqb (a ++ extra) a = false.
Proof.
  intros Hne. induction a as [|x a [IH1 IH2]]; simpl.
  - by destruct extra.
  - rewrite IH1, IH2. by rewrite !andb_false_r.
Qed.

Lemma sum_abs_diff_longer (a extra : list Q) :
  (sum_abs_diff a (a ++ extra) == 0)%Q /\ (sum_abs_diff (a ++ extra) a == 0)%Q.
Proof.
  induction a as [|x a [IH1 IH2]]; simpl.
  - split; [done|]. by destruct extra.
  - assert (Qabs (x - x) == 0)%Q as Habs.
    { transitivity (Qabs 0); [apply Qabs_wd; ring | reflexivity]. }
    split; [rewrite IH1 | rewrite IH2]; rewrite Habs; reflexivity.
Qed.

Lemma Qltb_above_zero (q : Q) : (q == 0)%Q -> Qltb (5 # 100) q = false.
Proof.
  intros Hq. unfold Qltb. apply negb_false_iff, Qle_bool_iff. by rewrite Hq.
Qed.

(** [compare_vec_field] on vectors of different lengths.  When one rounded
    vector is the other followed by further components, the components that
    have no partner take no part in the sum ([zip] stops at the shorter
    vector), so that the difference is reported as slight: one recoverable
    report, never a fatal one. *)
Theorem compare_vec_field_length_mismatch (src dst : GMDNode Mesh)
    (error : ErrorReporter) context f (fld : GMDNode Mesh -> list Q) extra w :
  extra <> [] ->
  map (py_round 3) (fld dst) = map (py_round 3) (fld src) ++ extra \/
  map (py_round 3) (fld src) = map (py_round 3) (fld dst) ++ extra ->
  compare_vec_field src dst error context f fld w
  = (reply error Recoverable tt,
     reported w (mkEvent Recoverable context (VectorDiffersSlightly f))).
Proof.
  intros Hne Hlen. unfold compare_vec_field.
  destruct Hlen as [-> | ->].
  - rewrite (proj1 (tuple_eqb_longer _ _ Hne)). cbn [negb].
    rewrite Qltb_above_zero by apply sum_abs_diff_longer. apply report_spec.
  - rewrite (proj2 (tuple_eqb_longer _ _ Hne)). cbn [negb].
    rewrite Qltb_above_zero by apply sum_abs_diff_longer. apply report_spec.
Qed.

End Shape.
End RunShape.

(** The theorem on vectors of different lengths for a node whose position
    has three components and a node whose position has a fourth. *)
Lemma compare_vec_field_length_mismatch_witness :
  compare_vec_field (ex_node "n" MatrixTransform [] [])
    (mkGMDNode "n" MatrixTransform [0; 0; 0; 7]%Q [0; 0; 0; 1]%Q [1; 1; 1]%Q
       [0; 0; 0; 1]%Q [0; 0; 0; 0]%Q [0; 0; 0; 0] [] [] [])
    lenient "ctx" "pos" pos empty_world
  = (reply lenient Recoverable tt,
     reported empty_world (mkEvent Recoverable "ctx" (VectorDiffersSlightly "pos"))).
Proof.
  apply (RunShape.compare_vec_field_length_mismatch
           (Sig := unit) (ex_node "n" MatrixTransform [] [])
           (mkGMDNode "n" MatrixTransform [0; 0; 0; 7]%Q [0; 0; 0; 1]%Q [1; 1; 1]%Q
              [0; 0; 0; 1]%Q [0; 0; 0; 0]%Q [0; 0; 0; 0] [] [] [])
           lenient "ctx" "pos" pos [py_round 3 7] empty_world).
  - discriminate.
  - left. reflexivity.
Defined.

(** ** When the note "functionally identical" is made *)

Module NoteProps.
Import FusedProps DriverProps ReportProps DriverReports HierarchyProps SignalProps.

Section Note.
Context {Mesh AttrSet K Sig : Type}.
Context `{Countable K} `{EqDecision Sig} `{EqDecision AttrSet}.
Context `{!MeshData Mesh AttrSet K Sig}.
Implicit Types w : Fused.World Sig.
Implicit Types src dst : GMDNode Mesh.
Implicit Types error : ErrorReporter.

Local Abbreviation no_mismatch := (fun ev : event => mesh_mismatch ev = false).

(** A run that returns without the report of a located mesh mismatch has
    made the note. *)
Local Abbreviation noted :=
  (fun (r : res unit) (evs : list event) =>
     r = Ok tt -> Forall no_mismatch evs -> Exists is_identical_note evs).

Lemma post_bind_noted {A} (m : Fused.M Sig A) (k : A -> Fused.M Sig unit)
    (Q1 : res A -> list event -> Prop) :
  post m Q1 -> (forall a, post (k a) noted) -> post (m ≫= k) noted.
Proof.
  intros Hm Hk. eapply post_bind; [exact Hm | exact Hk | |]; cbv beta.
  - intros a evs1 r evs2 _ Hn Hr Hall. apply Forall_app in Hall. destruct Hall as [_ H2].
    apply Exists_app. right. by apply Hn.
  - by intros e evs _ [=].
Qed.

Lemma post_bind_all_plain {A B} (m : Fused.M Sig A) (k : A -> Fused.M Sig B) :
  post m (fun _ evs => Forall plain evs) ->
  (forall a, post (k a) (fun _ evs => Forall plain evs)) ->
  post (m ≫= k) (fun _ evs => Forall plain evs).
Proof.
  intros Hm Hk. eapply post_bind; [exact Hm | exact Hk | |]; cbv beta.
  - intros a evs1 r evs2 H1 H2. by apply Forall_app.
  - done.
Qed.

(** The loop over the attribute sets, started with [True], returns [True]
    when no group comparison has reported a located mismatch. *)
Lemma for_attr_sets_pass skinned src dst error context attrs identical :
  post (for_attr_sets skinned src dst error context attrs identical)
       (fun r evs => forall b, r = Ok b -> identical = true ->
                               Forall no_mismatch evs -> b = true).
Proof.
  revert identical. induction attrs as [|attr attrs IH]; intros identical; simpl.
  - apply post_ret. intros b [= <-]. done.
  - eapply post_bind; [apply compare_same_layout_meshes_post | intros ok; apply IH | |];
      cbv beta.
    + intros ok evs1 r evs2 Hmesh Hrest b Hr Hid Hall.
      apply Forall_app in Hall. destruct Hall as [Hall1 Hall2].
      destruct Hmesh as [[[= ->] ->]|(ev & -> & _ & Hm & _)].
      * by apply (Hrest b).
      * rewrite Forall_singleton in Hall1. congruence.
    + by intros e evs _ b [=].
Qed.

Lemma compare_fusions_pass skinned (ms1 ms2 : list Mesh) error context :
  post (compare_same_layout_mesh_vertex_fusions skinned ms1 ms2 error context)
       (fun r evs => forall b, r = Ok b -> Forall no_mismatch evs -> b = true).
Proof.
  eapply post_weaken; [apply compare_fusions_post|]. cbv beta.
  intros r evs [[-> ->]|[(ev & -> & _ & _ & Hm)|(ev & n & m & -> & -> & _)]] b Hr Hall.
  - by injection Hr as <-.
  - rewrite Forall_singleton in Hall. congruence.
  - unfold reply in Hr. destruct (aborts error Recoverable); [done|]. by injection Hr as <-.
Qed.

Lemma vertices_part_noted skinned src dst error context :
  post (identical ← for_attr_sets skinned src dst error context
                      (unique_attr_sets (mesh_list src)) true;
        ok ← compare_same_layout_mesh_vertex_fusions skinned (mesh_list src)
               (mesh_list dst) error context;
        let identical := if negb ok then false else identical in
        if identical
        then report error Info context FunctionallyIdentical
        else mret tt)
       noted.
Proof.
  eapply (post_bind _ _ _
            (fun identical r evs =>
               r = Ok tt -> identical = true -> Forall no_mismatch evs ->
               Exists is_identical_note evs));
    [apply for_attr_sets_pass | | |]; cbv beta.
  - intros identical.
    eapply (post_bind _ _ _
              (fun ok r evs => ok = true -> identical = true ->
                               Exists is_identical_note evs));
      [apply compare_fusions_pass | | |]; cbv beta.
    + intros ok. destruct ok, identical; simpl.
      * apply post_report. intros _ _. by apply Exists_cons_hd.
      * by apply post_ret.
      * by apply post_ret.
      * by apply post_ret.
    + intros ok evs1 r evs2 Hok Hrest _ Hid Hall.
      apply Forall_app in Hall. destruct Hall as [Hall1 _].
      apply Exists_app. right. apply Hrest; [|done]. by apply (Hok ok).
    + by intros e evs _ [=].
  - intros identical evs1 r evs2 Hid Hrest Hr Hall.
    apply Forall_app in Hall. destruct Hall as [Hall1 Hall2].
    apply Exists_app. right. apply Hrest; [done| |done].
    by apply (Hid identical).
  - by intros e evs _ [=].
Qed.

(** On two mesh nodes of one type, compared with [--vertices]. *)
Lemma compare_single_node_pair_noted skinned src dst error context :
  node_type src = node_type dst -> node_type src <> MatrixTransform ->
  post (compare_single_node_pair skinned true src dst error context) noted.
Proof.
  intros Hty Hmesh. unfold compare_single_node_pair.
  eapply post_bind_noted; [apply compare_field_plain|]. intros _.
  do 5 (eapply post_bind_noted; [apply compare_vec_field_plain|]; intros _).
  eapply post_bind_noted; [apply compare_field_plain|]. intros _.
  eapply post_bind_noted.
  { destruct (negb _); [apply compare_mat_field_plain | apply ret_plain]. }
  intros _.
  rewrite bool_decide_eq_true_2 by done. rewrite bool_decide_eq_false_2 by done.
  unfold sort_src_dest_lists.
  eapply post_bind_noted.
  { case_bool_decide; [by apply report_plain | apply ret_plain]. }
  intros _. apply vertices_part_noted.
Qed.

(** Without [--vertices], on nodes of different types or on bones. *)
Lemma compare_single_node_pair_plain skinned vertices src dst error context :
  ~ (vertices = true /\ node_type src = node_type dst /\
     node_type src <> MatrixTransform) ->
  post (compare_single_node_pair skinned vertices src dst error context)
       (fun _ evs => Forall plain evs).
Proof.
  intros Hnot. unfold compare_single_node_pair.
  apply post_bind_all_plain; [apply compare_field_plain|]. intros _.
  do 5 (apply post_bind_all_plain; [apply compare_vec_field_plain|]; intros _).
  apply post_bind_all_plain; [apply compare_field_plain|]. intros _.
  apply post_bind_all_plain.
  { destruct (negb _); [apply compare_mat_field_plain | apply ret_plain]. }
  intros _.
  case_bool_decide; [|apply ret_plain].
  case_bool_decide; [apply ret_plain|].
  unfold sort_src_dest_lists.
  apply post_bind_all_plain.
  { case_bool_decide; [by apply report_plain | apply ret_plain]. }
  intros _. destruct vertices; [|apply ret_plain].
  by destruct Hnot.
Qed.

(** The note, when made, is the last report and the only note. *)
Local Abbreviation note_last :=
  (fun context (evs : list event) =>
     Exists is_identical_note evs ->
     exists evs', evs = evs' ++ [mkEvent Info context FunctionallyIdentical] /\
                  ~ Exists is_identical_note evs').

Lemma post_bind_note_last {A B} context (m : Fused.M Sig A) (k : A -> Fused.M Sig B) :
  post m (fun _ evs => ~ Exists is_identical_note evs) ->
  (forall a, post (k a) (fun _ evs => note_last context evs)) ->
  post (m ≫= k) (fun _ evs => note_last context evs).
Proof.
  intros Hm Hk. eapply post_bind; [exact Hm | exact Hk | |]; cbv beta.
  - intros a evs1 r evs2 H1 H2 Hex.
    apply Exists_app in Hex as [Hex|Hex]; [done|].
    destruct (H2 Hex) as (evs' & -> & Hnone).
    exists (evs1 ++ evs'). split; [by rewrite app_assoc|].
    intros Hex'. apply Exists_app in Hex' as [?|?]; done.
  - by intros e evs Hnone Hex.
Qed.

Lemma plain_post_no_note {A} (m : Fused.M Sig A) :
  post m (fun _ evs => Forall plain evs) ->
  post m (fun _ evs => ~ Exists is_identical_note evs).
Proof. intros Hm. eapply post_weaken; [exact Hm|]. intros r evs. apply plain_no_note. Qed.

Lemma compare_single_node_pair_note_last skinned vertices src dst error context :
  post (compare_single_node_pair skinned vertices src dst error context)
       (fun _ evs => note_last context evs).
Proof.
  unfold compare_single_node_pair.
  apply post_bind_note_last; [apply plain_post_no_note, compare_field_plain|]. intros _.
  do 5 (apply post_bind_note_last;
        [apply plain_post_no_note, compare_vec_field_plain|]; intros _).
  apply post_bind_note_last; [apply plain_post_no_note, compare_field_plain|]. intros _.
  apply post_bind_note_last.
  { apply plain_post_no_note.
    destruct (negb _); [apply compare_mat_field_plain | apply ret_plain]. }
  intros _.
  assert (forall u : (), post (Sig := Sig) (mret u)
                           (fun _ evs => note_last context evs)) as Hret.
  { intros u. apply post_ret. by intros ?%Exists_nil. }
  case_bool_decide; [|apply Hret].
  case_bool_decide; [apply Hret|].
  unfold sort_src_dest_lists.
  apply post_bind_note_last.
  { apply plain_post_no_note.
    case_bool_decide; [by apply report_plain | apply ret_plain]. }
  intros _. destruct vertices; [|apply Hret].
  apply post_bind_note_last.
  { eapply post_weaken; [apply for_attr_sets_note|]. by intros r evs [? _]. }
  intros identical.
  apply post_bind_note_last.
  { eapply post_weaken; [apply compare_fusions_note|]. by intros r evs [? _]. }
  intros ok. destruct (if negb ok then false else identical).
  - apply post_report. intros _. exists []. split; [done|]. by intros ?%Exists_nil.
  - apply Hret.
Qed.

(** When [compare_single_node_pair] returns, it has made the note
    "functionally identical" exactly when it was run with [--vertices] on
    two nodes of one type other than [MatrixTransform] and none of its
    reports is a located mesh mismatch (exact data, approximate data or
    fusions); differences of fields, vectors, the matrix or the attribute
    sets, and a drift of the fusion counts, do not withhold it.  The note,
    when made, is the last report of the run and its only note. *)
Theorem identical_note_iff skinned vertices src dst error context w :
  let run := compare_single_node_pair skinned vertices src dst error context w in
  exists evs,
    Fused.log run.2 = Fused.log w ++ evs /\
    (run.1 = Ok tt ->
     (Exists is_identical_note evs <->
      vertices = true /\ node_type src = node_type dst /\
      node_type src <> MatrixTransform /\
      Forall (fun ev => mesh_mismatch ev = false) evs)) /\
    (Exists is_identical_note evs ->
     exists evs', evs = evs' ++ [mkEvent Info context FunctionallyIdentical] /\
                  ~ Exists is_identical_note evs').
Proof.
  intros run. subst run.
  destruct (compare_single_node_pair skinned vertices src dst error context w)
    as [r w'] eqn:Hrun.
  destruct (compare_single_node_pair_note skinned vertices src dst error context
              w r w' Hrun) as (evs & Hlog & Hnote).
  destruct (compare_single_node_pair_note_last skinned vertices src dst error context
              w r w' Hrun) as (evs1 & Hlog1 & Hlast).
  assert (evs1 = evs) as -> by (apply (app_inv_head (Fused.log w)); congruence).
  exists evs. cbn [fst snd]. split; [done|]. split; [|done].
  intros ->. split.
  - intros Hex.
    destruct (decide (vertices = true /\ node_type src = node_type dst /\
                      node_type src <> MatrixTransform)) as [(Hv & Hty & Hmesh)|Hnot].
    + by auto.
    + destruct (compare_single_node_pair_plain skinned vertices src dst error context
                  Hnot w _ w' Hrun) as (evs2 & Hlog2 & Hplain).
      assert (evs2 = evs) as -> by (apply (app_inv_head (Fused.log w)); congruence).
      by apply plain_no_note in Hplain.
  - intros (-> & Hty & Hmesh & Hall).
    destruct (compare_single_node_pair_noted skinned src dst error context
                Hty Hmesh w _ w' Hrun) as (evs2 & Hlog2 & Hnoted).
    assert (evs2 = evs) as -> by (apply (app_inv_head (Fused.log w)); congruence).
    by apply Hnoted.
Qed.

End Note.
End NoteProps.

(** ** Children without a partner *)

Module SurplusChildren.
Import FusedProps DriverProps ReportProps HierarchyProps.

Section Surplus.
Context {Mesh AttrSet K Sig : Type}.
Context `{Countable K} `{EqDecision Sig} `{EqDecision AttrSet}.
Context `{!MeshData Mesh AttrSet K Sig}.
Implicit Types w : Fused.World Sig.
Implicit Types src dst extra : list (GMDNode Mesh).
Implicit Types error : ErrorReporter.

(** [zip] stops at the shorter list. *)
Lemma for_zip_surplus self_call skinned vertices error context src dst extra :
  length src = length dst ->
  for_zip (Sig := Sig) self_call skinned vertices error context (src ++ extra) dst
  = for_zip self_call skinned vertices error context src dst /\
  for_zip (Sig := Sig) self_call skinned vertices error context src (dst ++ extra)
  = for_zip self_call skinned vertices error context src dst.
Proof.
  revert dst. induction src as [|s src IH]; intros [|d dst] Hlen; try done.
  - simpl. by destruct extra.
  - injection Hlen as Hlen. destruct (IH dst Hlen) as [IH1 IH2].
    simpl. by rewrite IH1, IH2.
Qed.

Lemma names_surplus (l extra : list (GMDNode Mesh)) :
  (list_to_set (map name (l ++ extra)) : gset string) = list_to_set (map name l)
  <-> Forall (fun n => name n ∈ map name l) extra.
Proof.
  rewrite map_app, list_to_set_app_L, Forall_forall. split.
  - intros Heq n Hn.
    assert (name n ∈ (list_to_set (map name l) ∪ list_to_set (map name extra)
                      : gset string)) as Hin.
    { apply elem_of_union_r, elem_of_list_to_set, list_elem_of_fmap. by exists n. }
    rewrite Heq in Hin. by apply elem_of_list_to_set in Hin.
  - intros Hall. apply set_eq. intros x. rewrite elem_of_union, !elem_of_list_to_set.
    split; [|by left]. intros [?|Hx]; [done|].
    apply list_elem_of_fmap in Hx as (n & -> & Hn). by apply Hall.
Qed.

Lemma names_longer (l extra : list (GMDNode Mesh)) :
  extra <> [] -> map name (l ++ extra) <> map name l.
Proof.
  intros Hne Heq. apply (f_equal length) in Heq.
  rewrite !length_map, length_app in Heq. destruct extra; [done|]. simpl in Heq. lia.
Qed.

(** A child without a partner is reported, and not compared.  When [src]
    and [dst] have the same names in the same order and one side has further
    children [extra] at its end, a run that the reporter does not stop
    reports that the children are in a different order (after the report
    that the sets of children differ, when a name of [extra] is new) and then
    proceeds exactly as the run on [src] and [dst]: no field, mesh or
    descendant of a node of [extra] is compared. *)
Theorem surplus_children_not_compared skinned vertices src dst extra error context w :
  map name src = map name dst -> extra <> [] -> aborts error Fatal = false ->
  recursive_compare_node_lists skinned vertices (src ++ extra) dst error context w
  = recursive_compare_node_lists skinned vertices src dst error context
      (surplus_reported w context (map name src) extra) /\
  recursive_compare_node_lists skinned vertices src (dst ++ extra) error context w
  = recursive_compare_node_lists skinned vertices src dst error context
      (surplus_reported w context (map name dst) extra).
Proof.
  intros Hnames Hne Hfatal.
  assert (length src = length dst) as Hlen.
  { apply (f_equal length) in Hnames. by rewrite !length_map in Hnames. }
  assert (forall w0 ev, report (Sig := Sig) error Fatal context ev w0
                        = (Ok tt, reported w0 (mkEvent Fatal context ev))) as Hrep.
  { intros w0 ev. rewrite report_spec. unfold reply. by rewrite Hfatal. }
  assert (forall w0, recursive_compare_node_lists skinned vertices src dst error context w0
                     = for_zip (recursive_compare_children skinned vertices error)
                         skinned vertices error context src dst w0) as Hsame.
  { intros w0. unfold recursive_compare_node_lists, recursive_compare_body.
    rewrite Hnames. rewrite !bool_decide_eq_false_2 by (by intros []). done. }
  rewrite !Hsame.
  destruct (for_zip_surplus (recursive_compare_children skinned vertices error)
              skinned vertices error context src dst extra Hlen) as [Hz1 Hz2].
  assert ((list_to_set (map name (src ++ extra)) : gset string)
            ≠ list_to_set (map name dst)
          <-> ~ Forall (fun n => name n ∈ map name src) extra) as Eset1.
  { rewrite <- Hnames. by rewrite names_surplus. }
  assert ((list_to_set (map name src) : gset string)
            ≠ list_to_set (map name (dst ++ extra))
          <-> ~ Forall (fun n => name n ∈ map name dst) extra) as Eset2.
  { rewrite Hnames. rewrite <- names_surplus. split; intros Hd Heq; by apply Hd. }
  assert (map name (src ++ extra) ≠ map name dst) as Eord1.
  { rewrite <- Hnames. by apply names_longer. }
  assert (map name src ≠ map name (dst ++ extra)) as Eord2.
  { rewrite Hnames. intros Heq. by apply (names_longer dst extra). }
  unfold surplus_reported. split.
  - unfold recursive_compare_node_lists, recursive_compare_body. rewrite Hz1.
    rewrite (bool_decide_eq_true_2 _ Eord1).
    case_decide as Hall.
    + rewrite bool_decide_eq_false_2 by (intros Hd; by apply Eset1 in Hd).
      erewrite (bind_Ok (mret tt)) by reflexivity.
      erewrite bind_Ok by apply Hrep. done.
    + rewrite bool_decide_eq_true_2 by (by apply Eset1).
      erewrite bind_Ok by apply Hrep.
      erewrite bind_Ok by apply Hrep. done.
  - unfold recursive_compare_node_lists, recursive_compare_body. rewrite Hz2.
    rewrite (bool_decide_eq_true_2 _ Eord2).
    case_decide as Hall.
    + rewrite bool_decide_eq_false_2 by (intros Hd; by apply Eset2 in Hd).
      erewrite (bind_Ok (mret tt)) by reflexivity.
      erewrite bind_Ok by apply Hrep. done.
    + rewrite bool_decide_eq_true_2 by (by apply Eset2).
      erewrite bind_Ok by apply Hrep.
      erewrite bind_Ok by apply Hrep. done.
Qed.

End Surplus.
End SurplusChildren.

(** The theorem on surplus children for a list of one bone and the same list
    followed by a second bone. *)
Lemma surplus_children_not_compared_witness :
  recursive_compare_node_lists false false
    ([ex_node "a" MatrixTransform [] []] ++ [ex_node "b" MatrixTransform [] []])
    [ex_node "a" MatrixTransform [] []] lenient "" empty_world
  = recursive_compare_node_lists false false
      [ex_node "a" MatrixTransform [] []] [ex_node "a" MatrixTransform [] []] lenient ""
      (surplus_reported empty_world "" ["a"]
         [ex_node "b" MatrixTransform [] []]) /\
  recursive_compare_node_lists false false
    [ex_node "a" MatrixTransform [] []]
    ([ex_node "a" MatrixTransform [] []] ++ [ex_node "b" MatrixTransform [] []])
    lenient "" empty_world
  = recursive_compare_node_lists false false
      [ex_node "a" MatrixTransform [] []] [ex_node "a" MatrixTransform [] []] lenient ""
      (surplus_reported empty_world "" ["a"]
         [ex_node "b" MatrixTransform [] []]).
Proof.
  apply (SurplusChildren.surplus_children_not_compared (Sig := unit) false false
           [ex_node "a" MatrixTransform [] []] [ex_node "a" MatrixTransform [] []]
           [ex_node "b" MatrixTransform [] []] lenient "" empty_world).
  - reflexivity.
  - discriminate.
  - reflexivity.
Defined.
